(** * A-star maze solver with a parallel batch driver: the C++ program
      [A_star.cpp] as Rocq definitions, and the properties of its
      specification proved (or refuted) on them.

    Layout of the development:
    - machine integers and doubles as the code uses them;
    - the free store of [Node] objects and the vectors of [aStarSearch];
    - a small state-and-error monad in which the search is written;
    - [heuristic], [isValid], [reconstructPath], [aStarSearch];
    - [solveMaze]'s updates of the three global counters and the
      interleaving semantics of the [omp parallel for] loop of [main];
    - the theorems. *)

From Stdlib Require Import ZArith Lia Floats Uint63.
From stdpp Require Import base list.

Open Scope Z_scope.

(** ** Machine numbers *)

(** [int] is a 32-bit two's complement integer. *)
Definition INT_MAX : Z := 2147483647.

Definition wrap_int (z : Z) : Z := (z + 2147483648) mod 4294967296 - 2147483648.

Definition in_int (z : Z) : Prop := -2147483648 <= z <= INT_MAX.

(** The conversion of an [int] to a [double] (exact: 32 bits fit in the
    53-bit significand). *)
Definition double_of_int (z : Z) : float :=
  if z <? 0 then PrimFloat.opp (PrimFloat.of_uint63 (Uint63.of_Z (- z)))
  else PrimFloat.of_uint63 (Uint63.of_Z z).

(** [pow(d, 2)] on doubles. *)
Definition pow2 (d : float) : float := PrimFloat.mul d d.

(** ** Nodes and the free store *)

Abbreviation coord := (Z * Z)%type (only parsing).

(** A [Node*] is an index into the store; [nullptr] is [None]. *)
Abbreviation ptr := nat (only parsing).

Module Node.
Record t : Type := mk {
  x : Z;
  y : Z;
  f : float;
  g : float;
  h : float;
  parent : option ptr
}.
End Node.

(** The free store: slot [p] holds [Some n] while the node allocated at
    address [p] is live, [None] once it has been deleted. [new] takes the
    next fresh address. *)
Abbreviation store := (list (option Node.t)) (only parsing).

(** What a call of [aStarSearch] can see of the caller's world: the grid
    it receives by reference and the free store. *)
Record memory : Type := mkMemory {
  mem_grid : list (list Z);
  mem_heap : store
}.

(** The variables of a running [aStarSearch]. *)
Record search_state : Type := mkState {
  grid : list (list Z);
  heap : store;
  closed : list (list bool);
  allNodes : list (list (option ptr));
  openList : list ptr
}.

(** ** Outcomes and the monad of the search *)

Inductive outcome (A : Type) : Type :=
| Ok (a : A)
| Undefined
| OutOfFuel.
Arguments Ok {A} a.
Arguments Undefined {A}.
Arguments OutOfFuel {A}.

Definition M (A : Type) : Type := search_state -> outcome (A * search_state).

Definition ret {A} (a : A) : M A := fun s => Ok (a, s).

Definition bind {A B} (m : M A) (k : A -> M B) : M B :=
  fun s =>
    match m s with
    | Ok (a, s') => k a s'
    | Undefined => Undefined
    | OutOfFuel => OutOfFuel
    end.

Declare Scope search_scope.
Delimit Scope search_scope with search.
Notation "x <- m ;; k" := (bind m (fun x => k))
  (at level 100, m at next level, right associativity) : search_scope.
Notation "m ;;; k" := (bind m (fun _ => k))
  (at level 100, right associativity) : search_scope.
Open Scope search_scope.

(** An access that is undefined when the option is empty. *)
Definition defined {A} (o : option A) : M A :=
  fun s => match o with Some a => Ok (a, s) | None => Undefined end.

Definition get_state : M search_state := fun s => Ok (s, s).

(** ** Vectors indexed by [int] *)

(** [v[i]]: an index outside the vector is undefined behaviour. *)
Definition vec_get {A} (v : list A) (i : Z) : option A :=
  if i <? 0 then None else v !! Z.to_nat i.

Definition vec_set {A} (v : list A) (i : Z) (a : A) : option (list A) :=
  match vec_get v i with
  | Some _ => Some (<[Z.to_nat i := a]> v)
  | None => None
  end.

Definition get2 {A} (v : list (list A)) (i j : Z) : option A :=
  match vec_get v i with
  | Some row => vec_get row j
  | None => None
  end.

Definition set2 {A} (v : list (list A)) (i j : Z) (a : A) : option (list (list A)) :=
  match vec_get v i with
  | Some row =>
      match vec_set row j a with
      | Some row' => vec_set v i row'
      | None => None
      end
  | None => None
  end.

(** ** The functions of the program *)

(** Directions for movement (up, down, left, right, diagonals). *)
Definition dx : list Z := [-1; 1; 0; 0; -1; -1; 1; 1].
Definition dy : list Z := [0; 0; -1; 1; -1; 1; -1; 1].

(** Heuristic: Euclidean distance. *)
Definition heuristic (x1 y1 x2 y2 : Z) : float :=
  PrimFloat.sqrt
    (PrimFloat.add (pow2 (double_of_int (wrap_int (x1 - x2))))
                   (pow2 (double_of_int (wrap_int (y1 - y2))))).

(** Check if the position is valid. The conjunction is evaluated left to
    right, so the grid is read only at a position inside the bounds. *)
Definition isValid (x y rows cols : Z) : M bool :=
  fun s =>
    if (0 <=? x) && (x <? rows) && (0 <=? y) && (y <? cols) then
      match get2 (grid s) x y with
      | Some v => Ok (v =? 0, s)
      | None => Undefined
      end
    else Ok (false, s).

(** Store operations: [*p], [new Node{...}], [delete p]. *)
Definition deref (p : ptr) : M Node.t :=
  fun s =>
    match heap s !! p with
    | Some (Some n) => Ok (n, s)
    | _ => Undefined
    end.

Definition new_node (n : Node.t) : M ptr :=
  fun s =>
    Ok (length (heap s),
        mkState (grid s) (heap s ++ [Some n]) (closed s) (allNodes s) (openList s)).

Definition delete_node (h : store) (p : ptr) : option store :=
  match h !! p with
  | Some (Some _) => Some (<[p := None]> h)
  | _ => None
  end.

(** The priority queue [openList], ordered by the comparator
    [a->f > b->f]: [top] is an element of least [f], [pop] removes it.
    Which of several elements of the same least [f] is on top depends on
    the heap operations of the C++ library; the model takes the first of
    them in the order of insertion. The general theorems about the
    search use of [top] only that it is an element of the queue
    ([pq_top_elem]), that it exists when the queue is not empty
    ([pq_top_is_Some]) and that it does not depend on what else the
    store holds ([pq_top_rebase]); none of them uses the choice among
    elements of the same [f]. *)
Fixpoint pq_min (h : store) (best : ptr) (bestf : float) (rest : list ptr) : option ptr :=
  match rest with
  | [] => Some best
  | p :: rest' =>
      match h !! p with
      | Some (Some n) =>
          if PrimFloat.ltb (Node.f n) bestf then pq_min h p (Node.f n) rest'
          else pq_min h best bestf rest'
      | _ => None
      end
  end.

Definition pq_top (h : store) (q : list ptr) : option ptr :=
  match q with
  | [] => None
  | p :: rest =>
      match h !! p with
      | Some (Some n) => pq_min h p (Node.f n) rest
      | _ => None
      end
  end.

Fixpoint pq_remove (p : ptr) (q : list ptr) : list ptr :=
  match q with
  | [] => []
  | p' :: rest => if Nat.eqb p p' then rest else p' :: pq_remove p rest
  end.

Definition openList_push (p : ptr) : M unit :=
  fun s => Ok (tt, mkState (grid s) (heap s) (closed s) (allNodes s) (openList s ++ [p])).

Definition openList_top : M ptr :=
  fun s => match pq_top (heap s) (openList s) with
           | Some p => Ok (p, s)
           | None => Undefined
           end.

Definition openList_pop : M unit :=
  fun s => match pq_top (heap s) (openList s) with
           | Some p =>
               Ok (tt, mkState (grid s) (heap s) (closed s) (allNodes s)
                               (pq_remove p (openList s)))
           | None => Undefined
           end.

Definition openList_empty : M bool :=
  fun s => Ok (match openList s with [] => true | _ => false end, s).

(** [closed[x][y]], [closed[x][y] = true], [allNodes[x][y]],
    [allNodes[x][y] = p]. *)
Definition closed_get (x y : Z) : M bool :=
  fun s => match get2 (closed s) x y with
           | Some b => Ok (b, s)
           | None => Undefined
           end.

Definition closed_set (x y : Z) : M unit :=
  fun s => match set2 (closed s) x y true with
           | Some c => Ok (tt, mkState (grid s) (heap s) c (allNodes s) (openList s))
           | None => Undefined
           end.

Definition allNodes_get (x y : Z) : M (option ptr) :=
  fun s => match get2 (allNodes s) x y with
           | Some o => Ok (o, s)
           | None => Undefined
           end.

Definition allNodes_set (x y : Z) (p : ptr) : M unit :=
  fun s => match set2 (allNodes s) x y (Some p) with
           | Some a => Ok (tt, mkState (grid s) (heap s) (closed s) a (openList s))
           | None => Undefined
           end.

(** Reconstruct path from goal to start: the loop pushes the coordinates
    while following [parent], and [reverse] turns the result around. The
    fuel bounds the number of nodes visited. *)
Fixpoint reconstruct_loop (fuel : nat) (h : store) (current : option ptr)
    (path : list coord) : outcome (list coord) :=
  match current with
  | None => Ok path
  | Some p =>
      match fuel with
      | O => OutOfFuel
      | S fuel' =>
          match h !! p with
          | Some (Some n) =>
              reconstruct_loop fuel' h (Node.parent n) (path ++ [(Node.x n, Node.y n)])
          | _ => Undefined
          end
      end
  end.

Definition reconstructPath (fuel : nat) (h : store) (goal : ptr) : outcome (list coord) :=
  match reconstruct_loop fuel h (Some goal) [] with
  | Ok path => Ok (reverse path)
  | Undefined => Undefined
  | OutOfFuel => OutOfFuel
  end.

(** The body of the loop over the 8 directions, for direction [i]. *)
Definition explore (current : ptr) (goal : coord) (rows cols : Z) (i : nat) : M unit :=
  cur <- deref current ;;
  let newX := wrap_int (Node.x cur + nth i dx 0) in
  let newY := wrap_int (Node.y cur + nth i dy 0) in
  valid <- isValid newX newY rows cols ;;
  if negb valid then ret tt
  else
    c <- closed_get newX newY ;;
    if c then ret tt
    else
      let gNew := PrimFloat.add (Node.g cur)
                    (heuristic (Node.x cur) (Node.y cur) newX newY) in
      let hNew := heuristic newX newY (fst goal) (snd goal) in
      let fNew := PrimFloat.add gNew hNew in
      recorded <- allNodes_get newX newY ;;
      better <- match recorded with
                | None => ret true
                | Some q => old <- deref q ;; ret (PrimFloat.ltb fNew (Node.f old))
                end ;;
      if better : bool then
        neighbor <- new_node (Node.mk newX newY fNew gNew hNew (Some current)) ;;
        openList_push neighbor ;;;
        allNodes_set newX newY neighbor
      else ret tt.

(** [for (int i = 0; i < 8; i++) body(i)]. *)
Fixpoint for_each (idx : list nat) (body : nat -> M unit) : M unit :=
  match idx with
  | [] => ret tt
  | i :: idx' => body i ;;; for_each idx' body
  end.

(** The main loop. One unit of fuel is spent per extraction from the open
    list; the result is the goal node, or [None] when the list empties. *)
Fixpoint search_loop (fuel : nat) (goal : coord) (rows cols : Z) : M (option ptr) :=
  empty <- openList_empty ;;
  if empty : bool then ret None
  else
    match fuel with
    | O => fun _ => OutOfFuel
    | S fuel' =>
        current <- openList_top ;;
        openList_pop ;;;
        cur <- deref current ;;
        if (Node.x cur =? fst goal) && (Node.y cur =? snd goal) then ret (Some current)
        else
          closed_set (Node.x cur) (Node.y cur) ;;;
          for_each (seq 0 8) (explore current goal rows cols) ;;;
          search_loop fuel' goal rows cols
    end.

(** Clean up: [delete] every node recorded in [allNodes]. *)
Fixpoint delete_all (h : store) (ps : list (option ptr)) : option store :=
  match ps with
  | [] => Some h
  | None :: ps' => delete_all h ps'
  | Some p :: ps' =>
      match delete_node h p with
      | Some h' => delete_all h' ps'
      | None => None
      end
  end.

(** A* Search function. [int rows = grid.size()] and [grid[0].size()]
    convert an unsigned size to [int]; a vector cannot be built with a
    negative size. The line that the function writes to [std::cout]
    before it returns (the elapsed wall-clock time, lines 126 and 135) is
    not part of the model: the state of the model is the memory. *)
Definition aStarSearch (fuel : nat) (start goal : coord) (m : memory)
    : outcome (list coord * memory) :=
  let rows := wrap_int (Z.of_nat (length (mem_grid m))) in
  match mem_grid m with
  | [] => Undefined
  | row0 :: _ =>
      let cols := wrap_int (Z.of_nat (length row0)) in
      if (rows <? 0) || (cols <? 0) then Undefined
      else
        let s0 := mkState (mem_grid m) (mem_heap m)
                    (replicate (Z.to_nat rows) (replicate (Z.to_nat cols) false))
                    (replicate (Z.to_nat rows) (replicate (Z.to_nat cols) None))
                    [] in
        let run : M (list coord) :=
          startNode <- new_node
            (Node.mk (fst start) (snd start) 0%float 0%float
               (heuristic (fst start) (snd start) (fst goal) (snd goal)) None) ;;
          openList_push startNode ;;;
          allNodes_set (fst start) (snd start) startNode ;;;
          goalNode <- search_loop fuel goal rows cols ;;
          s <- get_state ;;
          path <- match goalNode with
                  | Some gp =>
                      fun s' => match reconstructPath (length (heap s)) (heap s) gp with
                                | Ok p => Ok (p, s')
                                | Undefined => Undefined
                                | OutOfFuel => OutOfFuel
                                end
                  | None => ret []
                  end ;;
          h' <- defined (delete_all (heap s) (concat (allNodes s))) ;;
          (fun s' => Ok (path, mkState (grid s') h' (closed s') (allNodes s') (openList s')))
        in
        match run s0 with
        | Ok (path, s) => Ok (path, mkMemory (grid s) (heap s))
        | Undefined => Undefined
        | OutOfFuel => OutOfFuel
        end
  end.

(** ** Paths *)

(** The 8 unit offsets, as the arrays [dx] and [dy] list them. *)
Definition offsets : list (Z * Z) := zip dx dy.

(** [b] is [a] moved by one of the 8 unit offsets. *)
Definition unit_step (a b : coord) : Prop :=
  (fst b - fst a, snd b - snd a) ∈ offsets.

(** Every pair of consecutive coordinates is one unit step apart. *)
Definition stepwise (path : list coord) : Prop :=
  ∀ (i : nat) (a b : coord),
    path !! i = Some a → path !! S i = Some b → unit_step a b.

(** The dimensions [aStarSearch] computes for a grid, and the
    coordinates [isValid] accepts on it. *)
Definition grid_rows (gd : list (list Z)) : Z := wrap_int (Z.of_nat (length gd)).

Definition grid_cols (gd : list (list Z)) : Z :=
  match gd with
  | [] => 0
  | row0 :: _ => wrap_int (Z.of_nat (length row0))
  end.

Definition in_bounds (gd : list (list Z)) (c : coord) : Prop :=
  0 <= fst c < grid_rows gd ∧ 0 <= snd c < grid_cols gd.

Definition blocked (gd : list (list Z)) (c : coord) : Prop :=
  ∃ v, get2 gd (fst c) (snd c) = Some v ∧ v ≠ 0.

Definition free_cell (gd : list (list Z)) (c : coord) : Prop :=
  in_bounds gd c ∧ get2 gd (fst c) (snd c) = Some 0.

(** ** The batch: [solveMaze], the shared counters and the parallel loop *)

(** The shared global variables, updated by every call of [solveMaze]. *)
Record globals : Type := mkGlobals {
  totalPathLength : Z;
  successfulMazes : Z;
  mazeAttempts : Z
}.

Inductive counter : Type := TotalPathLength | SuccessfulMazes | MazeAttempts.

Definition load (c : counter) (gl : globals) : Z :=
  match c with
  | TotalPathLength => totalPathLength gl
  | SuccessfulMazes => successfulMazes gl
  | MazeAttempts => mazeAttempts gl
  end.

Definition store_to (c : counter) (v : Z) (gl : globals) : globals :=
  match c with
  | TotalPathLength => mkGlobals v (successfulMazes gl) (mazeAttempts gl)
  | SuccessfulMazes => mkGlobals (totalPathLength gl) v (mazeAttempts gl)
  | MazeAttempts => mkGlobals (totalPathLength gl) (successfulMazes gl) v
  end.

(** The search of [solveMaze] on its maze: from the top left corner to
    the bottom right one; [pathLen] is the size of the path as an [int].
    The random placement of the obstacles is not modelled: the maze is
    given. *)
Definition solveMaze_pathLen (fuel : nat) (maze : list (list Z)) : outcome Z :=
  let rows := grid_rows maze in
  let cols := grid_cols maze in
  match aStarSearch fuel (0, 0) (rows - 1, cols - 1) (mkMemory maze []) with
  | Ok (path, _) => Ok (wrap_int (Z.of_nat (length path)))
  | Undefined => Undefined
  | OutOfFuel => OutOfFuel
  end.

(** What a thread does to the shared world. An update [c += d] of a
    shared [int] without synchronisation is a read of [c] into a register
    followed by a write of the register plus [d]; other threads may run
    in between. *)
Inductive instr : Type :=
| Print (pathLen : Z)
| Load (c : counter)
| AddStore (c : counter) (d : Z).

(** The tail of [solveMaze] once the search has returned [pathLen]:
    the line it prints and the three updates. *)
Definition solveMaze_code (pathLen : Z) : list instr :=
  [Print pathLen;
   Load MazeAttempts; AddStore MazeAttempts 1;
   Load TotalPathLength; AddStore TotalPathLength pathLen]
  ++ (if 0 <? pathLen
      then [Load SuccessfulMazes; AddStore SuccessfulMazes 1]
      else []).

Record thread : Type := mkThread {
  reg : Z;
  code : list instr
}.

Record config : Type := mkConfig {
  shared : globals;
  output : list Z;
  threads : list thread
}.

(** Thread [tid] executes its next instruction; a thread that has
    finished, or that does not exist, does nothing. *)
Definition step (cfg : config) (tid : nat) : config :=
  match threads cfg !! tid with
  | Some (mkThread r (i :: rest)) =>
      match i with
      | Print n =>
          mkConfig (shared cfg) (output cfg ++ [n])
                   (<[tid := mkThread r rest]> (threads cfg))
      | Load c =>
          mkConfig (shared cfg) (output cfg)
                   (<[tid := mkThread (load c (shared cfg)) rest]> (threads cfg))
      | AddStore c d =>
          mkConfig (store_to c (wrap_int (r + d)) (shared cfg)) (output cfg)
                   (<[tid := mkThread r rest]> (threads cfg))
      end
  | _ => cfg
  end.

(** A schedule names the thread that runs at each step. *)
Definition run_schedule (sched : list nat) (cfg : config) : config :=
  fold_left step sched cfg.

Definition finishedb (cfg : config) : bool :=
  forallb (λ t, match code t with [] => true | _ => false end) (threads cfg).

Definition finished (cfg : config) : Prop :=
  Forall (λ t, code t = []) (threads cfg).

(** Two threads are in the middle of an update of the same counter: each
    has read it and not yet written it back. *)
Definition updating (c : counter) (t : thread) : Prop :=
  ∃ d rest, code t = AddStore c d :: rest.

Definition race_on (c : counter) (cfg : config) : Prop :=
  ∃ i j ti tj, i ≠ j ∧ threads cfg !! i = Some ti ∧ threads cfg !! j = Some tj ∧
               updating c ti ∧ updating c tj.

(** The two definitions that follow describe the OpenMP runtime, which
    is no code of the program: they fix one distribution of the
    iterations over the threads. The properties of [main] are proved for
    every number of threads and use of the distribution only that every
    iteration belongs to the block of exactly one thread
    ([concat_parallel_for]); the interleaving of the threads is
    arbitrary.

    [omp_set_num_threads(n)]: the team has [n] threads. The program calls
    it with the literal 4 (line 183). OpenMP leaves the effect of a value
    that is not positive to the implementation; the model takes a team of
    one thread, as GNU libgomp does. *)
Definition omp_team_size (numThreads : Z) : nat := Z.to_nat (Z.max 1 numThreads).

(** [#pragma omp parallel for] without a schedule clause, taken with the
    static schedule that implementations use by default: the iterations
    are cut into one block per thread, the first [n mod team] blocks one
    longer than the others. *)
Fixpoint distribute {A} (sizes : list nat) (l : list A) : list (list A) :=
  match sizes with
  | [] => []
  | k :: sizes' => take k l :: distribute sizes' (drop k l)
  end.

Definition block_sizes (team n : nat) : list nat :=
  map (λ t, (n / team + if t <? n mod team then 1 else 0)%nat) (seq 0 team).

Definition parallel_for {A} (team : nat) (iterations : list A) : list (list A) :=
  distribute (block_sizes team (length iterations)) iterations.

(** The threads at the start of the loop, given the iterations of each
    and the path length each iteration finds. *)
Definition spawn (assignment : list (list Z)) : config :=
  mkConfig (mkGlobals 0 0 0) []
           (map (λ its, mkThread 0 (concat (map solveMaze_code its))) assignment).

Fixpoint solve_all (fuel : nat) (mazes : list (list (list Z))) : outcome (list Z) :=
  match mazes with
  | [] => Ok []
  | maze :: mazes' =>
      match solveMaze_pathLen fuel maze with
      | Ok n =>
          match solve_all fuel mazes' with
          | Ok ns => Ok (n :: ns)
          | Undefined => Undefined
          | OutOfFuel => OutOfFuel
          end
      | Undefined => Undefined
      | OutOfFuel => OutOfFuel
      end
  end.

(** [main] on given mazes, with [numThreads] threads requested and the
    interleaving [sched]: the exit status and the final configuration,
    whose counters [main] prints once every thread has finished. *)
Definition main (fuel : nat) (numThreads : Z) (mazes : list (list (list Z)))
    (sched : list nat) : outcome (Z * config) :=
  match solve_all fuel mazes with
  | Ok pathLens =>
      Ok (0, run_schedule sched
               (spawn (parallel_for (omp_team_size numThreads) pathLens)))
  | Undefined => Undefined
  | OutOfFuel => OutOfFuel
  end.

(** [solveMaze]'s three updates when nothing runs in between, and the
    statistics of a list of results taken one after the other. *)
Definition record_result (gl : globals) (pathLen : Z) : globals :=
  mkGlobals (wrap_int (totalPathLength gl + pathLen))
            (if 0 <? pathLen then wrap_int (successfulMazes gl + 1)
             else successfulMazes gl)
            (wrap_int (mazeAttempts gl + 1)).

Definition reduce (results : list Z) : globals :=
  fold_left record_result results (mkGlobals 0 0 0).

(** A task result has found a path when its length is positive. *)
Definition found (pathLen : Z) : bool := 0 <? pathLen.

Fixpoint sum_list (l : list Z) : Z :=
  match l with
  | [] => 0
  | n :: l' => n + sum_list l'
  end.

(** ** Notions used to state the properties *)

(** The state after [explore] has created the node [n] for cell
    [(Node.x n, Node.y n)]: allocated, pushed and recorded. *)
Definition created (s : search_state) (n : Node.t) (a : list (list (option ptr)))
    : search_state :=
  mkState (grid s) (heap s ++ [Some n]) (closed s) a (openList s ++ [length (heap s)]).

(** The number of results that found a path. *)
Definition count_found (results : list Z) : Z :=
  Z.of_nat (length (List.filter found results)).

(** Small mazes for the examples: all free; the start cell blocked; the
    goal cell blocked; one free cell. *)
Definition maze_free : list (list Z) := [[0; 0; 0]; [0; 0; 0]; [0; 0; 0]].
Definition maze_start_blocked : list (list Z) := [[1; 0]; [0; 0]].
Definition maze_goal_blocked : list (list Z) := [[0; 0]; [0; 1]].
Definition maze_one_cell : list (list Z) := [[0]].

(** A store with two nodes of some earlier owner. *)
Definition old_store : list (option Node.t) :=
  [Some (Node.mk 7 7 1 1 0 None); Some (Node.mk 7 8 2 1 1 (Some 0%nat))].


(** Two interleavings of a batch of two one-cell mazes. In the first a
    single thread runs both tasks. In the second two threads print, both
    read [mazeAttempts], both write it back, and then each finishes its
    task; its first four steps lead to the moment where both have read
    the counter. *)
Definition sched_sequential : list nat := replicate 14 0%nat.
Definition sched_both_read : list nat := [0; 1; 0; 1]%nat.
Definition sched_lost_update : list nat :=
  sched_both_read ++ [0; 1; 0; 0; 0; 0; 1; 1; 1; 1]%nat.

(** The claim that the statistics do not depend on the pool size, for
    the pool sizes 1, 2, 4 and 8, and the claim that no two threads are
    ever inside an update of the same counter. *)
Definition pool_size_independent (fuel : nat) (mazes : list (list (list Z))) : Prop :=
  ∀ p q sched1 sched2 st1 cfg1 st2 cfg2,
    p ∈ [1; 2; 4; 8] → q ∈ [1; 2; 4; 8] →
    main fuel p mazes sched1 = Ok (st1, cfg1) → finished cfg1 →
    main fuel q mazes sched2 = Ok (st2, cfg2) → finished cfg2 →
    shared cfg1 = shared cfg2.

Definition race_free (fuel : nat) (mazes : list (list (list Z))) : Prop :=
  ∀ p sched st cfg c,
    p ∈ [1; 2; 4; 8] →
    main fuel p mazes sched = Ok (st, cfg) → ¬ race_on c cfg.

(** * Proofs *)

(** ** Machine integers *)

Lemma wrap_int_range z : -2147483648 <= wrap_int z <= INT_MAX.
Proof.
  unfold wrap_int, INT_MAX.
  pose proof (Z.mod_pos_bound (z + 2147483648) 4294967296); lia.
Qed.

Lemma wrap_int_id z : in_int z → wrap_int z = z.
Proof.
  unfold in_int, wrap_int, INT_MAX; intros Hz.
  rewrite Z.mod_small by lia. lia.
Qed.

(** ** Vectors *)

Lemma vec_get_Some {A} (v : list A) i a :
  vec_get v i = Some a ↔ 0 <= i ∧ v !! Z.to_nat i = Some a.
Proof.
  unfold vec_get. destruct (Z.ltb_spec i 0); split; try easy; intros []; try lia; auto.
Qed.

Lemma vec_get_lt {A} (v : list A) i a :
  vec_get v i = Some a → 0 <= i < Z.of_nat (length v).
Proof.
  rewrite vec_get_Some. intros [? H%lookup_lt_Some]. lia.
Qed.

Lemma vec_get_is_Some {A} (v : list A) i :
  0 <= i < Z.of_nat (length v) → is_Some (vec_get v i).
Proof.
  intros Hi. unfold vec_get. destruct (Z.ltb_spec i 0); [lia|].
  apply lookup_lt_is_Some. lia.
Qed.

Lemma vec_get_replicate {A} n (a : A) i :
  0 <= i < Z.of_nat n → vec_get (replicate n a) i = Some a.
Proof.
  intros Hi. apply vec_get_Some. split; [lia|].
  apply lookup_replicate_2. lia.
Qed.

Lemma get2_replicate {A} r c (a : A) i j :
  0 <= i < Z.of_nat r → 0 <= j < Z.of_nat c →
  get2 (replicate r (replicate c a)) i j = Some a.
Proof.
  intros Hi Hj. unfold get2.
  rewrite vec_get_replicate by done. by apply vec_get_replicate.
Qed.

Lemma vec_set_Some {A} (v v' : list A) i a :
  vec_set v i a = Some v' ↔
  0 <= i < Z.of_nat (length v) ∧ v' = <[Z.to_nat i := a]> v.
Proof.
  unfold vec_set. destruct (vec_get v i) eqn:E.
  - apply vec_get_lt in E. split; [intros [= <-]|intros [_ ->]]; auto.
  - split; [done|]. intros [Hi _]. apply vec_get_is_Some in Hi as [? ?]. congruence.
Qed.

Lemma set2_Some {A} (v v' : list (list A)) i j a :
  set2 v i j a = Some v' ↔
  ∃ row, vec_get v i = Some row ∧ 0 <= j < Z.of_nat (length row) ∧
         v' = <[Z.to_nat i := <[Z.to_nat j := a]> row]> v.
Proof.
  unfold set2. destruct (vec_get v i) as [row|] eqn:E.
  - destruct (vec_set row j a) as [row'|] eqn:E'.
    + apply vec_set_Some in E' as [Hj ->]. rewrite vec_set_Some. split.
      * intros [_ ->]. eauto.
      * intros (row2 & [= <-] & _ & ->). split; [|done]. by eapply vec_get_lt.
    + split; [done|]. intros (row2 & [= <-] & Hj & _).
      assert (vec_set row j a = Some (<[Z.to_nat j := a]> row)) by by apply vec_set_Some.
      congruence.
  - split; [done|]. by intros (? & ? & _).
Qed.

(** Reading a two-dimensional vector after one write. *)
Lemma get2_set2 {A} (v v' : list (list A)) i j a i' j' :
  set2 v i j a = Some v' →
  get2 v' i' j' = if decide (i' = i ∧ j' = j) then Some a else get2 v i' j'.
Proof.
  rewrite set2_Some. intros (row & Hrow & Hj & ->).
  pose proof (vec_get_lt _ _ _ Hrow) as Hi.
  apply vec_get_Some in Hrow as [_ Hrow].
  unfold get2, vec_get.
  destruct (Z.ltb_spec i' 0).
  { case_decide; [lia|done]. }
  destruct (decide (i' = i)) as [->|Hne].
  - rewrite list_lookup_insert_eq by lia.
    destruct (Z.ltb_spec j' 0).
    { case_decide; [lia|]. by rewrite Hrow. }
    destruct (decide (j' = j)) as [->|Hne'].
    + rewrite list_lookup_insert_eq by lia. by rewrite decide_True.
    + rewrite list_lookup_insert_ne by lia. rewrite Hrow.
      rewrite decide_False by tauto. done.
  - rewrite list_lookup_insert_ne by lia. rewrite decide_False by tauto. done.
Qed.

Lemma elem_of_concat {A} (ls : list (list A)) (a : A) :
  a ∈ concat ls ↔ ∃ l, a ∈ l ∧ l ∈ ls.
Proof.
  rewrite list_elem_of_In, in_concat. split.
  - intros (l & ? & ?). exists l. by rewrite !list_elem_of_In.
  - intros (l & ? & ?). exists l. by rewrite <- !list_elem_of_In.
Qed.

(** The entries of a two-dimensional vector after one write are the old
    ones and the written one. *)
Lemma elem_of_concat_set2 {A} (v v' : list (list A)) i j a b :
  set2 v i j a = Some v' → b ∈ concat v' → b = a ∨ b ∈ concat v.
Proof.
  rewrite set2_Some. intros (row & Hrow & Hj & ->).
  apply vec_get_Some in Hrow as [_ Hrow].
  rewrite !elem_of_concat. intros (l & Hb & Hl).
  apply list_elem_of_lookup in Hl as [k Hk].
  destruct (decide (k = Z.to_nat i)) as [->|Hne].
  - rewrite list_lookup_insert_eq in Hk by (by eapply lookup_lt_Some).
    injection Hk as <-.
    apply list_elem_of_lookup in Hb as [k' Hk'].
    destruct (decide (k' = Z.to_nat j)) as [->|Hne'].
    + rewrite list_lookup_insert_eq in Hk' by lia. left. congruence.
    + rewrite list_lookup_insert_ne in Hk' by done. right.
      exists row. split; eapply list_elem_of_lookup_2; eauto.
  - rewrite list_lookup_insert_ne in Hk by done. right.
    exists l. split; [done|]. by eapply list_elem_of_lookup_2.
Qed.

(** ** The monad: what a successful run of each operation tells *)

Ltac unfold_state :=
  cbn [grid heap closed allNodes openList
       Node.x Node.y Node.f Node.g Node.h Node.parent] in *.

Lemma bind_Ok {A B} (m : M A) (k : A → M B) s r :
  bind m k s = Ok r → ∃ a s1, m s = Ok (a, s1) ∧ k a s1 = Ok r.
Proof.
  unfold bind. destruct (m s) as [[a s1]| |]; [eauto|done|done].
Qed.

Lemma ret_Ok {A} (a b : A) s s' : ret a s = Ok (b, s') → b = a ∧ s' = s.
Proof. by intros [= -> ->]. Qed.

Lemma deref_Ok p s n s' :
  deref p s = Ok (n, s') → heap s !! p = Some (Some n) ∧ s' = s.
Proof.
  unfold deref. destruct (heap s !! p) as [[n'|]|]; [|done|done].
  by intros [= -> ->].
Qed.

Lemma isValid_Ok x y rows cols s b s' :
  isValid x y rows cols s = Ok (b, s') →
  s' = s ∧
  (b = true → (0 <= x < rows ∧ 0 <= y < cols) ∧ get2 (grid s) x y = Some 0).
Proof.
  unfold isValid.
  destruct ((0 <=? x) && (x <? rows) && (0 <=? y) && (y <? cols)) eqn:E.
  - destruct (get2 (grid s) x y) as [v|]; [|done].
    intros [= <- <-]. split; [done|]. intros ->%Z.eqb_eq.
    split; [lia|done].
  - by intros [= <- <-].
Qed.

Lemma closed_get_Ok x y s b s' :
  closed_get x y s = Ok (b, s') → get2 (closed s) x y = Some b ∧ s' = s.
Proof.
  unfold closed_get. destruct (get2 (closed s) x y); [|done]. by intros [= -> ->].
Qed.

Lemma allNodes_get_Ok x y s o s' :
  allNodes_get x y s = Ok (o, s') → get2 (allNodes s) x y = Some o ∧ s' = s.
Proof.
  unfold allNodes_get. destruct (get2 (allNodes s) x y); [|done]. by intros [= -> ->].
Qed.

Lemma closed_set_Ok x y s u s' :
  closed_set x y s = Ok (u, s') →
  ∃ c, set2 (closed s) x y true = Some c ∧
       s' = mkState (grid s) (heap s) c (allNodes s) (openList s).
Proof.
  unfold closed_set. destruct (set2 (closed s) x y true); [|done].
  intros [= _ <-]. eauto.
Qed.

Lemma allNodes_set_Ok x y p s u s' :
  allNodes_set x y p s = Ok (u, s') →
  ∃ a, set2 (allNodes s) x y (Some p) = Some a ∧
       s' = mkState (grid s) (heap s) (closed s) a (openList s).
Proof.
  unfold allNodes_set. destruct (set2 (allNodes s) x y (Some p)); [|done].
  intros [= _ <-]. eauto.
Qed.

Lemma new_node_Ok n s p s' :
  new_node n s = Ok (p, s') →
  p = length (heap s) ∧
  s' = mkState (grid s) (heap s ++ [Some n]) (closed s) (allNodes s) (openList s).
Proof. by intros [= <- <-]. Qed.

Lemma openList_push_Ok p s u s' :
  openList_push p s = Ok (u, s') →
  s' = mkState (grid s) (heap s) (closed s) (allNodes s) (openList s ++ [p]).
Proof. by intros [= _ <-]. Qed.

(** One pass of the loop body either leaves the state as it is or creates
    one node, for a cell that passed [isValid] and is not closed. *)
Lemma explore_Ok current goal rows cols i s u s' :
  explore current goal rows cols i s = Ok (u, s') →
  ∃ cur, heap s !! current = Some (Some cur) ∧
    (s' = s ∨
     ∃ n a,
       Node.x n = wrap_int (Node.x cur + nth i dx 0) ∧
       Node.y n = wrap_int (Node.y cur + nth i dy 0) ∧
       Node.parent n = Some current ∧
       (0 <= Node.x n < rows ∧ 0 <= Node.y n < cols) ∧
       get2 (grid s) (Node.x n) (Node.y n) = Some 0 ∧
       get2 (closed s) (Node.x n) (Node.y n) = Some false ∧
       set2 (allNodes s) (Node.x n) (Node.y n) (Some (length (heap s))) = Some a ∧
       s' = created s n a).
Proof.
  unfold explore. intros H.
  apply bind_Ok in H as (cur & s1 & [Hcur ->]%deref_Ok & H).
  exists cur. split; [done|].
  apply bind_Ok in H as (valid & s1 & [-> Hvalid]%isValid_Ok & H).
  destruct valid; cbn [negb] in H; [|apply ret_Ok in H as [_ ->]; by left].
  destruct Hvalid as [Hb Hfree]; [done|].
  apply bind_Ok in H as (c & s1 & [Hc ->]%closed_get_Ok & H).
  destruct c; [apply ret_Ok in H as [_ ->]; by left|].
  apply bind_Ok in H as (rec & s1 & [Hrec ->]%allNodes_get_Ok & H).
  apply bind_Ok in H as (better & s1 & Hbetter & H).
  assert (s1 = s) as ->.
  { destruct rec as [q|].
    - apply bind_Ok in Hbetter as (old & s2 & [_ ->]%deref_Ok & [_ ->]%ret_Ok). done.
    - by apply ret_Ok in Hbetter as [_ ->]. }
  destruct better; [|apply ret_Ok in H as [_ ->]; by left].
  right.
  apply bind_Ok in H as (p & s1 & [-> ->]%new_node_Ok & H).
  apply bind_Ok in H as (? & s1 & ->%openList_push_Ok & H).
  apply allNodes_set_Ok in H as (a & Ha & ->).
  unfold_state.
  eexists (Node.mk _ _ _ _ _ _), a.
  cbn [Node.x Node.y Node.parent]. repeat split; (done || lia).
Qed.

(** ** The priority queue *)

Lemma pq_min_elem h best bestf rest p :
  pq_min h best bestf rest = Some p → p = best ∨ p ∈ rest.
Proof.
  revert best bestf. induction rest as [|q rest IH]; intros best bestf; simpl.
  - intros [= ->]. by left.
  - destruct (h !! q) as [[n|]|]; [|done|done].
    destruct (PrimFloat.ltb (Node.f n) bestf); intros [->|?]%IH;
      rewrite elem_of_cons; auto.
Qed.

Lemma pq_top_elem h q p : pq_top h q = Some p → p ∈ q.
Proof.
  destruct q as [|p0 rest]; [done|]. simpl.
  destruct (h !! p0) as [[n|]|]; [|done|done].
  intros [->|?]%pq_min_elem; rewrite elem_of_cons; auto.
Qed.

Lemma pq_remove_elem p q p' : p' ∈ pq_remove p q → p' ∈ q.
Proof.
  induction q as [|p0 rest IH]; [done|]. simpl.
  destruct (Nat.eqb p p0); rewrite !elem_of_cons; [auto|].
  intros [->|?]; auto.
Qed.

Lemma openList_top_Ok s p s' :
  openList_top s = Ok (p, s') → p ∈ openList s ∧ s' = s.
Proof.
  unfold openList_top. destruct (pq_top (heap s) (openList s)) eqn:E; [|done].
  intros [= <- <-]. split; [|done]. by eapply pq_top_elem.
Qed.

Lemma openList_pop_Ok s u s' :
  openList_pop s = Ok (u, s') →
  grid s' = grid s ∧ heap s' = heap s ∧ closed s' = closed s ∧
  allNodes s' = allNodes s ∧ ∀ p, p ∈ openList s' → p ∈ openList s.
Proof.
  unfold openList_pop. destruct (pq_top (heap s) (openList s)) eqn:E; [|done].
  intros [= _ <-]. repeat split. unfold_state. apply pq_remove_elem.
Qed.

(** ** The 8 directions *)

Lemma direction_offset i :
  (i < 8)%nat → (nth i dx 0, nth i dy 0) ∈ offsets.
Proof.
  intros Hi. unfold offsets, dx, dy. cbn [zip zip_with].
  do 8 (destruct i as [|i]; [cbn [nth]; rewrite !elem_of_cons; tauto|]). lia.
Qed.

Lemma offset_unit ox oy :
  (ox, oy) ∈ offsets ↔ Z.max (Z.abs ox) (Z.abs oy) = 1.
Proof.
  unfold offsets, dx, dy. cbn [zip zip_with].
  rewrite !elem_of_cons, elem_of_nil. split.
  - intros H. repeat destruct H as [H|H]; try done; injection H as -> ->; done.
  - intros H.
    assert ((ox = -1 ∨ ox = 0 ∨ ox = 1) ∧ (oy = -1 ∨ oy = 0 ∨ oy = 1)
            ∧ ¬ (ox = 0 ∧ oy = 0)) as (Hx & Hy & Hn) by lia.
    destruct Hx as [-> | [-> | ->]]; destruct Hy as [-> | [-> | ->]]; tauto || lia.
Qed.

(** ** Stepwise paths *)

Lemma stepwise_singleton c : stepwise [c].
Proof. intros [|i] a b; [done|done]. Qed.

Lemma stepwise_snoc l a b :
  stepwise l → last l = Some a → unit_step a b → stepwise (l ++ [b]).
Proof.
  intros Hl Hlast Hstep i x y Hx Hy.
  assert (S i < length (l ++ [b]))%nat as Hlen by by eapply lookup_lt_Some.
  rewrite length_app in Hlen. cbn [length] in Hlen.
  rewrite lookup_app_l in Hx by lia.
  destruct (decide (S i = length l)) as [Heq|Hne].
  - rewrite list_lookup_middle in Hy by done. injection Hy as <-.
    rewrite last_lookup, <- Heq in Hlast. cbn [pred] in Hlast.
    by assert (x = a) as -> by congruence.
  - rewrite lookup_app_l in Hy by lia. by eapply Hl.
Qed.

Lemma reconstruct_loop_None fuel h acc :
  reconstruct_loop fuel h None acc = Ok acc.
Proof. by destruct fuel. Qed.

(** ** The invariant of the search *)

Section Invariant.
(** The store and the grid at the call, the start cell, and the
    dimensions the search works with. *)
Variables (h0 : store) (g0 : list (list Z)) (start : coord) (rows cols : Z).
Hypothesis rows_int : rows <= INT_MAX.
Hypothesis cols_int : cols <= INT_MAX.

(** A pointer to a node this call has allocated. *)
Definition own (h : store) (p : ptr) : Prop :=
  (length h0 <= p < length h)%nat.

(** The node [n] at address [p] lies inside the grid, and is either the
    start node or one unit step from its parent, an older node of this
    call, on a free cell. *)
Definition linked (h : store) (p : ptr) (n : Node.t) : Prop :=
  (0 <= Node.x n < rows ∧ 0 <= Node.y n < cols) ∧
  match Node.parent n with
  | None => (Node.x n, Node.y n) = start
  | Some q =>
      (length h0 <= q < p)%nat ∧
      get2 g0 (Node.x n) (Node.y n) = Some 0 ∧
      ∃ m, h !! q = Some (Some m) ∧
           unit_step (Node.x m, Node.y m) (Node.x n, Node.y n)
  end.

Record inv (s : search_state) : Prop := mkInv {
  inv_grid : grid s = g0;
  inv_frame : h0 `prefix_of` heap s;
  inv_live : ∀ p, own (heap s) p →
             ∃ n, heap s !! p = Some (Some n) ∧ linked (heap s) p n;
  inv_open : ∀ p, p ∈ openList s → own (heap s) p;
  inv_all : ∀ p, Some p ∈ concat (allNodes s) → own (heap s) p
}.

Lemma linked_grow h p n x :
  (p < length h)%nat → linked h p n → linked (h ++ [x]) p n.
Proof.
  intros Hp [Hb Hl]. split; [done|].
  destruct (Node.parent n) as [q|]; [|done].
  destruct Hl as (Hq & Hfree & m & Hm & Hstep).
  split; [done|]. split; [done|].
  exists m. split; [|done]. rewrite lookup_app_l; [done|lia].
Qed.

Lemma inv_created s cur current i n a :
  inv s → (i < 8)%nat →
  own (heap s) current → heap s !! current = Some (Some cur) →
  Node.x n = wrap_int (Node.x cur + nth i dx 0) →
  Node.y n = wrap_int (Node.y cur + nth i dy 0) →
  Node.parent n = Some current →
  (0 <= Node.x n < rows ∧ 0 <= Node.y n < cols) →
  get2 (grid s) (Node.x n) (Node.y n) = Some 0 →
  set2 (allNodes s) (Node.x n) (Node.y n) (Some (length (heap s))) = Some a →
  inv (created s n a).
Proof.
  intros [Hg Hf Hlive Hopen Hall] Hi Hown Hcur Hx Hy Hpar Hb Hfree Ha.
  assert (unit_step (Node.x cur, Node.y cur) (Node.x n, Node.y n)) as Hstep.
  { destruct (Hlive _ Hown) as (cur' & Hcur' & [Hbc _]).
    assert (cur' = cur) as -> by congruence.
    pose proof (direction_offset i Hi) as Hoff.
    pose proof Hoff as Hu%offset_unit.
    unfold unit_step. cbn [fst snd].
    rewrite wrap_int_id in Hx by (unfold in_int; lia).
    rewrite wrap_int_id in Hy by (unfold in_int; lia).
    replace (Node.x n - Node.x cur) with (nth i dx 0) by lia.
    replace (Node.y n - Node.y cur) with (nth i dy 0) by lia. done. }
  unfold created. split; unfold_state; unfold own in *.
  - done.
  - by apply prefix_app_r.
  - intros p. rewrite length_app. cbn [length]. intros Hp.
    destruct (decide (p = length (heap s))) as [->|Hne].
    + exists n. rewrite list_lookup_middle by done. split; [done|].
      split; [done|]. rewrite Hpar.
      split; [lia|]. split; [congruence|].
      exists cur. split; [|done]. rewrite lookup_app_l; [done|lia].
    + destruct (Hlive p) as (m & Hm & Hl); [lia|].
      exists m. rewrite lookup_app_l by lia. split; [done|].
      apply linked_grow; [lia|done].
  - intros p. rewrite length_app, elem_of_app, list_elem_of_singleton.
    cbn [length]. intros [?%Hopen| ->]; lia.
  - intros p Hp. rewrite length_app. cbn [length].
    destruct (elem_of_concat_set2 _ _ _ _ _ _ Ha Hp) as [Heq|Hin].
    + injection Heq as ->. lia.
    + apply Hall in Hin. lia.
Qed.

Lemma inv_explore current goal i s u s' :
  inv s → (i < 8)%nat → own (heap s) current →
  explore current goal rows cols i s = Ok (u, s') →
  inv s' ∧ own (heap s') current.
Proof.
  intros Hinv Hi Hown (cur & Hcur & [->|Hnew])%explore_Ok; [done|].
  destruct Hnew as (n & a & Hx & Hy & Hpar & Hb & Hfree & _ & Ha & ->).
  split; [by eapply inv_created|].
  unfold created, own in *. unfold_state. rewrite length_app. lia.
Qed.

Lemma inv_for_each current goal idx s u s' :
  inv s → Forall (λ i, (i < 8)%nat) idx → own (heap s) current →
  for_each idx (explore current goal rows cols) s = Ok (u, s') →
  inv s'.
Proof.
  revert s. induction idx as [|i idx IH]; intros s Hinv Hidx Hown; cbn [for_each].
  - by intros [_ ->]%ret_Ok.
  - intros (? & s1 & Hex & Hrest)%bind_Ok.
    apply Forall_cons in Hidx as [Hi Hidx].
    eapply inv_explore in Hex as [Hinv1 Hown1]; [|done..].
    by eapply IH.
Qed.

(** Marking a cell closed, and taking a node off the open list, keep
    the invariant. *)
Lemma inv_closed s c : inv s →
  inv (mkState (grid s) (heap s) c (allNodes s) (openList s)).
Proof. by intros []. Qed.

Lemma inv_search_loop fuel goal s r s' :
  inv s →
  search_loop fuel goal rows cols s = Ok (r, s') →
  inv s' ∧
  match r with
  | Some p => own (heap s') p ∧
              ∃ n, heap s' !! p = Some (Some n) ∧ (Node.x n, Node.y n) = goal
  | None => True
  end.
Proof.
  revert s. induction fuel as [|fuel IH]; intros s Hinv; cbn [search_loop];
    intros (empty & s1 & [= <- <-] & H)%bind_Ok.
  - destruct (openList s); [|done]. by apply ret_Ok in H as [-> ->].
  - destruct (openList s) as [|p0 q0] eqn:Hq; [by apply ret_Ok in H as [-> ->]|].
    clear Hq p0 q0.
    apply bind_Ok in H as (current & s1 & [Hcur ->]%openList_top_Ok & H).
    apply bind_Ok in H as (? & s1 & Hpop & H).
    apply openList_pop_Ok in Hpop as (Hg1 & Hh1 & Hc1 & Ha1 & Ho1).
    assert (inv s1) as Hinv1.
    { destruct Hinv. split; rewrite ?Hg1, ?Hh1, ?Ha1; auto. }
    assert (own (heap s1) current) as Hown.
    { rewrite Hh1. by apply (inv_open _ Hinv). }
    apply bind_Ok in H as (cur & s2 & [Hnode ->]%deref_Ok & H).
    destruct ((Node.x cur =? fst goal) && (Node.y cur =? snd goal)) eqn:Hgoal.
    + apply ret_Ok in H as [-> ->]. split; [done|]. split; [done|].
      exists cur. split; [done|].
      apply andb_true_iff in Hgoal as [->%Z.eqb_eq ->%Z.eqb_eq].
      by destruct goal.
    + apply bind_Ok in H as (? & s2 & (c & _ & ->)%closed_set_Ok & H).
      apply bind_Ok in H as (? & s3 & Hfor & H).
      apply (IH s3); [|done].
      eapply inv_for_each; [by apply inv_closed| |by unfold_state|done].
      apply Forall_forall. intros i [_ Hi]%elem_of_seq. lia.
Qed.

(** *** Following the parent links *)

(** From a node of this call, [reconstructPath]'s loop appends the
    reversal of a stepwise path from [start] to that node. *)
Lemma reconstruct_loop_chain h :
  (∀ p, own h p → ∃ n, h !! p = Some (Some n) ∧ linked h p n) →
  ∀ p fuel acc path n,
    own h p → h !! p = Some (Some n) →
    reconstruct_loop fuel h (Some p) acc = Ok path →
    ∃ l, path = acc ++ reverse l ∧ head l = Some start ∧
         last l = Some (Node.x n, Node.y n) ∧ stepwise l.
Proof.
  intros Hlive p. induction (lt_wf p) as [p _ IH].
  intros fuel acc path n Hown Hn Hrun.
  destruct fuel as [|fuel]; [done|]. cbn [reconstruct_loop] in Hrun.
  rewrite Hn in Hrun.
  destruct (Hlive p Hown) as (n' & Hn' & _ & Hlink).
  assert (n' = n) as -> by congruence.
  destruct (Node.parent n) as [q|] eqn:Hpar.
  - destruct Hlink as (Hq & _ & m & Hm & Hstep).
    assert (own h q) as Hownq by (unfold own in *; lia).
    destruct (IH q ltac:(lia) fuel _ path m Hownq Hm Hrun)
      as (l & -> & Hhd & Hlast & Hsw).
    exists (l ++ [(Node.x n, Node.y n)]). split; [|split; [|split]].
    + by rewrite reverse_app, <- app_assoc.
    + destruct l; [done|]. done.
    + by rewrite last_snoc.
    + by eapply stepwise_snoc.
  - rewrite reconstruct_loop_None in Hrun. injection Hrun as <-.
    exists [(Node.x n, Node.y n)]. split; [done|]. split; [by rewrite Hlink|].
    split; [done|]. apply stepwise_singleton.
Qed.

Lemma reconstructPath_chain h p n path :
  (∀ p, own h p → ∃ n, h !! p = Some (Some n) ∧ linked h p n) →
  own h p → h !! p = Some (Some n) →
  reconstructPath (length h) h p = Ok path →
  head path = Some start ∧ last path = Some (Node.x n, Node.y n) ∧
  stepwise path.
Proof.
  intros Hlive Hown Hn. unfold reconstructPath.
  destruct (reconstruct_loop _ _ _ _) as [l'| |] eqn:Hrun; [|done|done].
  intros [= <-].
  destruct (reconstruct_loop_chain h Hlive p _ _ _ n Hown Hn Hrun)
    as (l & -> & ? & ? & ?).
  by rewrite app_nil_l, reverse_involutive.
Qed.

(** Every node but the first of the chain has a parent, and so sits on a
    free cell of the grid. *)
Definition passable (c : coord) : Prop :=
  (0 <= fst c < rows ∧ 0 <= snd c < cols) ∧ get2 g0 (fst c) (snd c) = Some 0.

Lemma reconstruct_loop_passable h :
  (∀ p, own h p → ∃ n, h !! p = Some (Some n) ∧ linked h p n) →
  ∀ p fuel acc path,
    own h p →
    reconstruct_loop fuel h (Some p) acc = Ok path →
    ∃ l, path = acc ++ reverse l ∧ l ≠ [] ∧ Forall passable (tail l).
Proof.
  intros Hlive p. induction (lt_wf p) as [p _ IH].
  intros fuel acc path Hown Hrun.
  destruct fuel as [|fuel]; [done|]. cbn [reconstruct_loop] in Hrun.
  destruct (Hlive p Hown) as (n & Hn & Hb & Hlink). rewrite Hn in Hrun.
  destruct (Node.parent n) as [q|] eqn:Hpar.
  - destruct Hlink as (Hq & Hfree & _).
    assert (own h q) as Hownq by (unfold own in *; lia).
    destruct (IH q ltac:(lia) fuel _ path Hownq Hrun) as (l & -> & Hne & Hl).
    exists (l ++ [(Node.x n, Node.y n)]). split; [|split].
    + by rewrite reverse_app, <- app_assoc.
    + by destruct l.
    + destruct l as [|c l]; [done|]. cbn [tail app] in *.
      apply Forall_app. split; [done|]. by apply Forall_singleton.
  - rewrite reconstruct_loop_None in Hrun. injection Hrun as <-.
    exists [(Node.x n, Node.y n)]. split; [done|]. split; [done|].
    apply Forall_nil_2.
Qed.

Lemma reconstructPath_passable h p path :
  (∀ p, own h p → ∃ n, h !! p = Some (Some n) ∧ linked h p n) →
  own h p →
  reconstructPath (length h) h p = Ok path →
  Forall passable (tail path).
Proof.
  intros Hlive Hown. unfold reconstructPath.
  destruct (reconstruct_loop _ _ _ _) as [l'| |] eqn:Hrun; [|done|done].
  intros [= <-].
  destruct (reconstruct_loop_passable h Hlive p _ _ _ Hown Hrun) as (l & -> & _ & Hl).
  by rewrite app_nil_l, reverse_involutive.
Qed.

(** *** Cleaning up *)

(** Deleting nodes of this call leaves the rest of the store alone. *)
Lemma delete_all_frame ps : ∀ h h',
  delete_all h ps = Some h' →
  (∀ p, Some p ∈ ps → (length h0 <= p)%nat) →
  length h' = length h ∧ ∀ p, (p < length h0)%nat → h' !! p = h !! p.
Proof.
  induction ps as [|[q|] ps IH]; intros h h'; cbn [delete_all].
  - by intros [= ->].
  - unfold delete_node. destruct (h !! q) as [[n|]|]; [|done|done].
    intros Hrest Hps.
    apply IH in Hrest as [Hlen Hfr].
    + rewrite length_insert in Hlen. split; [done|].
      intros p Hp. rewrite Hfr by done.
      apply list_lookup_insert_ne.
      assert (length h0 <= q)%nat by (apply Hps; left). lia.
    + intros p Hp. apply Hps. by right.
  - intros Hrest Hps. apply IH; [done|].
    intros p Hp. apply Hps. by right.
Qed.

End Invariant.

(** ** The whole search *)

Lemma grid_dims_int gd : grid_rows gd <= INT_MAX ∧ grid_cols gd <= INT_MAX.
Proof.
  unfold grid_rows, grid_cols. split; [apply wrap_int_range|].
  destruct gd; [unfold INT_MAX; lia|apply wrap_int_range].
Qed.

Lemma concat_replicate_None {A} r c (a : A) :
  Some a ∈ concat (replicate r (replicate c (@None A))) → False.
Proof.
  intros (l & Ha & ->%elem_of_replicate_inv)%elem_of_concat.
  by apply elem_of_replicate_inv in Ha.
Qed.

(** The state in which the loop starts: the start node alone, recorded for
    its cell and on the open list. *)
Lemma inv_initial h0 g0 start rows cols f g h r c a0 :
  0 <= fst start < rows ∧ 0 <= snd start < cols →
  set2 (replicate r (replicate c None)) (fst start) (snd start)
       (Some (length h0)) = Some a0 →
  inv h0 g0 start rows cols
      (mkState g0 (h0 ++ [Some (Node.mk (fst start) (snd start) f g h None)])
               (replicate r (replicate c false)) a0 ([] ++ [length h0])).
Proof.
  intros Hstart Ha0. split; unfold_state; unfold own.
  - done.
  - by apply prefix_app_r.
  - intros p. rewrite length_app. cbn [length]. intros Hp.
    assert (p = length h0) as -> by lia.
    eexists. rewrite list_lookup_middle by done. split; [done|].
    split; [done|]. cbn [Node.parent Node.x Node.y]. by destruct start.
  - intros p ->%list_elem_of_singleton. rewrite length_app. cbn [length]. lia.
  - intros p Hp. rewrite length_app. cbn [length].
    destruct (elem_of_concat_set2 _ _ _ _ _ _ Ha0 Hp) as [Heq|Hin].
    + injection Heq as ->. lia.
    + by apply concat_replicate_None in Hin.
Qed.

(** What a search that returns has done: the loop ended in a state [s]
    satisfying the invariant, with the goal node (or none) from which the
    path was read, and the nodes still recorded were deleted. *)
Lemma aStarSearch_Ok fuel start goal m path m' :
  aStarSearch fuel start goal m = Ok (path, m') →
  ∃ s goalNode h',
    inv (mem_heap m) (mem_grid m) start
        (grid_rows (mem_grid m)) (grid_cols (mem_grid m)) s ∧
    in_bounds (mem_grid m) start ∧
    match goalNode with
    | Some p =>
        own (mem_heap m) (heap s) p ∧
        ∃ n, heap s !! p = Some (Some n) ∧ (Node.x n, Node.y n) = goal ∧
             reconstructPath (length (heap s)) (heap s) p = Ok path
    | None => path = []
    end ∧
    delete_all (heap s) (concat (allNodes s)) = Some h' ∧
    m' = mkMemory (grid s) h'.
Proof.
  unfold aStarSearch, in_bounds, grid_rows, grid_cols.
  destruct m as [gd h0]. cbn [mem_grid mem_heap].
  destruct gd as [|row0 gd']; [done|].
  set (rows := wrap_int (Z.of_nat (length (row0 :: gd')))).
  set (cols := wrap_int (Z.of_nat (length row0))).
  destruct ((rows <? 0) || (cols <? 0)) eqn:Hneg; [done|].
  apply orb_false_iff in Hneg as [Hr%Z.ltb_ge Hc%Z.ltb_ge].
  match goal with |- match ?run ?s0 with _ => _ end = _ → _ =>
    destruct (run s0) as [[path' s']| |] eqn:Hrun; [|done|done] end.
  intros [= -> <-].
  apply bind_Ok in Hrun as (p0 & s1 & [-> ->]%new_node_Ok & Hrun).
  apply bind_Ok in Hrun as (? & s1 & ->%openList_push_Ok & Hrun).
  apply bind_Ok in Hrun as (? & s1 & (a0 & Ha0 & ->)%allNodes_set_Ok & Hrun).
  unfold_state.
  apply bind_Ok in Hrun as (goalNode & s & Hloop & Hrun).
  apply bind_Ok in Hrun as (? & ? & [= <- <-] & Hrun).
  apply bind_Ok in Hrun as (path0 & s2 & Hpath & Hrun).
  apply bind_Ok in Hrun as (h' & s3 & Hdel & Hrun).
  injection Hrun as -> <-.
  unfold defined in Hdel.
  destruct (delete_all (heap s) (concat (allNodes s))) as [h''|] eqn:Hd; [|done].
  injection Hdel as -> ->.
  assert (0 <= fst start < rows ∧ 0 <= snd start < cols) as Hstart.
  { apply set2_Some in Ha0 as (row & Hrow & Hj & _).
    pose proof (vec_get_lt _ _ _ Hrow) as Hi.
    apply vec_get_Some in Hrow as [_ [-> _]%lookup_replicate_1].
    rewrite !length_replicate in *. lia. }
  pose proof (wrap_int_range (Z.of_nat (length (row0 :: gd')))) as [_ Hrmax].
  pose proof (wrap_int_range (Z.of_nat (length row0))) as [_ Hcmax].
  fold rows in Hrmax. fold cols in Hcmax.
  eapply (inv_search_loop h0 (row0 :: gd') start rows cols Hrmax Hcmax)
    in Hloop as [Hinv Hgoal].
  - exists s, goalNode, h'. split; [done|]. split; [done|].
    assert (s3 = s ∧ match goalNode with
                     | Some gp => reconstructPath (length (heap s)) (heap s) gp = Ok path
                     | None => path = []
                     end) as [-> Hp].
    { destruct goalNode as [gp|].
      - destruct (reconstructPath _ _ _); [|done|done]. by injection Hpath as -> ->.
      - by apply ret_Ok in Hpath as [-> ->]. }
    unfold_state. split; [|done].
    destruct goalNode as [gp|]; [|done].
    destruct Hgoal as (Hown & n & Hn & Hxy). eauto 6.
  - by eapply inv_initial.
Qed.

(** ** A search whose start is its goal *)

Lemma delete_all_None h l :
  Forall (λ o : option ptr, o = None) l → delete_all h l = Some h.
Proof. induction 1 as [|? ? -> _ IH]; [done|]. by cbn [delete_all]. Qed.

Lemma delete_all_one h l1 l2 p n :
  Forall (λ o : option ptr, o = None) l1 →
  Forall (λ o : option ptr, o = None) l2 →
  h !! p = Some (Some n) →
  delete_all h (l1 ++ Some p :: l2) = Some (<[p := None]> h).
Proof.
  intros Hl1 Hl2 Hp. induction Hl1 as [|? ? -> _ IH]; [|done].
  cbn [app delete_all]. unfold delete_node. rewrite Hp.
  by apply delete_all_None.
Qed.

Lemma Forall_concat_replicate {A} (P : A → Prop) ls :
  Forall (Forall P) ls → Forall P (concat ls).
Proof.
  induction 1 as [|l ls Hl _ IH]; [done|]. cbn [concat]. by apply Forall_app.
Qed.

(** The entries of the fresh [allNodes] after the start node is recorded. *)
Lemma concat_allNodes_start r c i j (p : ptr) :
  (i < r)%nat → (j < c)%nat →
  ∃ l1 l2,
    concat (<[i := <[j := Some p]> (replicate c None)]> (replicate r (replicate c None)))
    = l1 ++ Some p :: l2 ∧
    Forall (λ o : option ptr, o = None) l1 ∧
    Forall (λ o : option ptr, o = None) l2.
Proof.
  intros Hi Hj.
  rewrite (insert_take_drop (replicate r _)) by (rewrite length_replicate; lia).
  rewrite (insert_take_drop (replicate c _)) by (rewrite length_replicate; lia).
  rewrite concat_app. cbn [concat]. rewrite <- !app_assoc. cbn [app].
  eexists _, _. split; [rewrite app_assoc; reflexivity|].
  assert (∀ k, Forall (λ o : option ptr, o = None) (replicate k None)) as Hrep.
  { intros k. apply Forall_forall. by intros o [-> _]%elem_of_replicate. }
  assert (∀ k, Forall (Forall (λ o : option ptr, o = None))
                      (replicate k (replicate c None))) as Hrep2.
  { intros k. apply Forall_forall. intros l [-> _]%elem_of_replicate. apply Hrep. }
  split; apply Forall_app; split;
    try apply Forall_concat_replicate;
    try apply Forall_take; try apply Forall_drop; auto.
Qed.

Lemma bind_run {A B} (m : M A) (k : A → M B) s a s1 r :
  m s = Ok (a, s1) → k a s1 = r → bind m k s = r.
Proof. unfold bind. by intros -> <-. Qed.

Lemma bind_run_ex {A B} (m : M A) (k : A → M B) s a s1 (b : B)
    (Q : search_state → Prop) :
  m s = Ok (a, s1) → (∃ s', k a s1 = Ok (b, s') ∧ Q s') →
  ∃ s', bind m k s = Ok (b, s') ∧ Q s'.
Proof. unfold bind. intros -> H. exact H. Qed.

(** Run the first operation of a sequence, its result found by [tac]. *)
Ltac run_with tac := eapply bind_run; [solve [tac]|]; cbv beta.

(** With the goal node alone on the open list, the loop ends at its first
    extraction. *)
Lemma search_loop_goal_first fuel goal rows cols s p n :
  openList s = [p] → heap s !! p = Some (Some n) →
  Node.x n = fst goal → Node.y n = snd goal →
  search_loop (S fuel) goal rows cols s
  = Ok (Some p, mkState (grid s) (heap s) (closed s) (allNodes s) []).
Proof.
  intros Hq Hn Hx Hy. cbn [search_loop].
  assert (pq_top (heap s) (openList s) = Some p) as Htop.
  { rewrite Hq. cbn [pq_top]. by rewrite Hn. }
  run_with ltac:(unfold openList_empty; by rewrite Hq).
  run_with ltac:(unfold openList_top; by rewrite Htop).
  run_with ltac:(unfold openList_pop; by rewrite Htop).
  run_with ltac:(unfold deref; unfold_state; by rewrite Hn).
  rewrite Hx, Hy, !Z.eqb_refl. cbn [andb]. unfold ret.
  rewrite Hq. cbn [pq_remove]. by rewrite Nat.eqb_refl.
Qed.

Lemma aStarSearch_start_is_goal fuel c m :
  in_bounds (mem_grid m) c →
  aStarSearch (S fuel) c c m
  = Ok ([c], mkMemory (mem_grid m) (mem_heap m ++ [None])).
Proof.
  destruct m as [gd h0]. destruct c as [x y].
  unfold in_bounds, grid_rows, grid_cols, aStarSearch. cbn [mem_grid mem_heap fst snd].
  destruct gd as [|row0 gd']; [lia|].
  set (rows := wrap_int (Z.of_nat (length (row0 :: gd')))).
  set (cols := wrap_int (Z.of_nat (length row0))).
  intros [Hx Hy].
  assert ((rows <? 0) || (cols <? 0) = false) as ->.
  { apply orb_false_iff. split; apply Z.ltb_ge; lia. }
  set (n := Node.mk x y 0 0 (heuristic x y x y) None).
  set (a := <[Z.to_nat x := <[Z.to_nat y := Some (length h0)]>
               (replicate (Z.to_nat cols) None)]>
            (replicate (Z.to_nat rows) (replicate (Z.to_nat cols) None))).
  assert (set2 (replicate (Z.to_nat rows) (replicate (Z.to_nat cols) None))
               x y (Some (length h0)) = Some a) as Hset.
  { apply set2_Some. exists (replicate (Z.to_nat cols) None).
    rewrite vec_get_replicate, length_replicate by lia. repeat split; lia. }
  assert ((h0 ++ [Some n]) !! length h0 = Some (Some n)) as Hn
    by by apply list_lookup_middle.
  destruct (concat_allNodes_start (Z.to_nat rows) (Z.to_nat cols)
              (Z.to_nat x) (Z.to_nat y) (length h0)) as (l1 & l2 & Hcat & Hl1 & Hl2);
    [lia|lia|]. fold a in Hcat.
  assert (reconstructPath (length (h0 ++ [Some n])) (h0 ++ [Some n]) (length h0)
          = Ok [(x, y)]) as Hpath.
  { unfold reconstructPath. rewrite length_app, Nat.add_1_r.
    cbn [reconstruct_loop]. rewrite Hn. by rewrite reconstruct_loop_None. }
  match goal with |- match ?r with _ => _ end = _ =>
    assert (∃ s, r = Ok ([(x, y)], s) ∧ grid s = row0 :: gd' ∧
                 heap s = h0 ++ [None]) as (s & -> & -> & ->); [|done] end.
  eexists. split.
  - run_with ltac:(reflexivity).
    run_with ltac:(reflexivity).
    run_with ltac:(unfold allNodes_set; unfold_state; by rewrite Hset).
    run_with ltac:(by eapply (search_loop_goal_first _ _ _ _ _ _ n)).
    run_with ltac:(reflexivity).
    unfold_state.
    run_with ltac:(by rewrite Hpath).
    run_with ltac:(unfold defined; unfold_state; rewrite Hcat;
                   by erewrite delete_all_one).
    reflexivity.
  - unfold_state. split; [done|].
    rewrite insert_app_r_alt by lia. by rewrite Nat.sub_diag.
Qed.

(** Without fuel for an extraction the loop cannot end: the open list
    holds the start node when the loop is entered. *)
Lemma aStarSearch_no_fuel start goal m :
  in_bounds (mem_grid m) start → aStarSearch 0 start goal m = OutOfFuel.
Proof.
  destruct m as [gd h0]. destruct start as [x y].
  unfold in_bounds, grid_rows, grid_cols, aStarSearch. cbn [mem_grid mem_heap fst snd].
  destruct gd as [|row0 gd']; [lia|].
  set (rows := wrap_int (Z.of_nat (length (row0 :: gd')))).
  set (cols := wrap_int (Z.of_nat (length row0))).
  intros [Hx Hy].
  assert ((rows <? 0) || (cols <? 0) = false) as ->.
  { apply orb_false_iff. split; apply Z.ltb_ge; lia. }
  assert (is_Some (set2 (replicate (Z.to_nat rows) (replicate (Z.to_nat cols) None))
                        x y (Some (length h0)))) as [a Hset].
  { eexists. apply set2_Some. exists (replicate (Z.to_nat cols) None).
    rewrite vec_get_replicate, length_replicate by lia. repeat split; lia. }
  match goal with |- match ?r with _ => _ end = _ =>
    assert (r = OutOfFuel) as ->; [|done] end.
  run_with ltac:(reflexivity).
  run_with ltac:(reflexivity).
  run_with ltac:(unfold allNodes_set; unfold_state; by rewrite Hset).
  unfold_state. unfold bind at 1. cbn [search_loop].
  unfold bind at 1. unfold openList_empty. unfold_state. reflexivity.
Qed.

(** ** The search does not read the store it is given *)

(** The same run started on a store that already holds [h0]: every node
    of the run sits [length h0] slots further. *)
Definition shift_node (base : nat) (n : Node.t) : Node.t :=
  Node.mk (Node.x n) (Node.y n) (Node.f n) (Node.g n) (Node.h n)
          (fmap (M:=option) (Nat.add base) (Node.parent n)).

Local Abbreviation lmap := (fmap (M:=list)).
Local Abbreviation opmap := (fmap (M:=option)).

Definition shift_store (base : nat) (h : list (option Node.t)) : list (option Node.t) :=
  lmap (opmap (shift_node base)) h.

Definition rebase (h0 : list (option Node.t)) (t : search_state) : search_state :=
  mkState (grid t) (h0 ++ shift_store (length h0) (heap t)) (closed t)
          (lmap (lmap (opmap (Nat.add (length h0)))) (allNodes t))
          (lmap (Nat.add (length h0)) (openList t)).

Definition outcome_map {A B} (f : A → B) (o : outcome A) : outcome B :=
  match o with
  | Ok a => Ok (f a)
  | Undefined => Undefined
  | OutOfFuel => OutOfFuel
  end.

(** [m'] on the rebased state does what [m] does, with results related
    by [fa]. *)
Definition rebased (h0 : list (option Node.t)) {A A'} (fa : A → A')
    (m' : M A') (m : M A) : Prop :=
  ∀ t, m' (rebase h0 t) = outcome_map (λ r, (fa (fst r), rebase h0 (snd r))) (m t).

Ltac unfold_rebase :=
  unfold rebase; cbn [grid heap closed allNodes openList outcome_map fst snd].

Section Rebase.
Variable h0 : list (option Node.t).
Let base := length h0.

Lemma rebased_ret {A A'} (fa : A → A') a : rebased h0 fa (ret (fa a)) (ret a).
Proof. by intros t. Qed.

Lemma rebased_bind {A A' B B'} (fa : A → A') (fb : B → B')
    (m' : M A') (m : M A) (k' : A' → M B') (k : A → M B) :
  rebased h0 fa m' m → (∀ a, rebased h0 fb (k' (fa a)) (k a)) →
  rebased h0 fb (bind m' k') (bind m k).
Proof.
  intros Hm Hk t. unfold bind. rewrite Hm.
  destruct (m t) as [[a t1]| |]; cbn [outcome_map fst snd]; [apply Hk|done..].
Qed.

Lemma lookup_rebase t p :
  heap (rebase h0 t) !! (base + p)%nat = opmap (opmap (shift_node base)) (heap t !! p).
Proof.
  unfold rebase, shift_store. unfold_state.
  rewrite lookup_app_r by (unfold base; lia).
  replace (base + p - length h0)%nat with p by (unfold base; lia).
  by rewrite list_lookup_fmap.
Qed.

Lemma rebased_deref p : rebased h0 (shift_node base) (deref (base + p)) (deref p).
Proof.
  intros t. unfold deref. rewrite lookup_rebase.
  by destruct (heap t !! p) as [[n|]|].
Qed.

Lemma rebased_isValid x y rows cols :
  rebased h0 id (isValid x y rows cols) (isValid x y rows cols).
Proof.
  intros t. unfold isValid. unfold_rebase.
  destruct ((0 <=? x) && (x <? rows) && (0 <=? y) && (y <? cols)); [|done].
  by destruct (get2 (grid t) x y).
Qed.

Lemma rebased_closed_get x y : rebased h0 id (closed_get x y) (closed_get x y).
Proof. intros t. unfold closed_get. unfold_rebase. by destruct (get2 (closed t) x y). Qed.

Lemma rebased_closed_set x y : rebased h0 id (closed_set x y) (closed_set x y).
Proof.
  intros t. unfold closed_set. unfold_rebase. by destruct (set2 (closed t) x y true).
Qed.

Lemma vec_get_fmap {A B} (f : A → B) (v : list A) i :
  vec_get (lmap f v) i = opmap f (vec_get v i).
Proof. unfold vec_get. destruct (i <? 0); [done|]. apply list_lookup_fmap. Qed.

Lemma get2_fmap {A B} (f : A → B) (v : list (list A)) i j :
  get2 (lmap (lmap f) v) i j = opmap f (get2 v i j).
Proof.
  unfold get2. rewrite vec_get_fmap.
  destruct (vec_get v i) as [row|]; [|done]. apply vec_get_fmap.
Qed.

Lemma vec_set_fmap {A B} (f : A → B) (v : list A) i a :
  vec_set (lmap f v) i (f a) = opmap (lmap f) (vec_set v i a).
Proof.
  unfold vec_set. rewrite vec_get_fmap.
  destruct (vec_get v i); [|done]. cbn. by rewrite list_fmap_insert.
Qed.

Lemma set2_fmap {A B} (f : A → B) (v : list (list A)) i j a :
  set2 (lmap (lmap f) v) i j (f a) = opmap (lmap (lmap f)) (set2 v i j a).
Proof.
  unfold set2. rewrite vec_get_fmap.
  destruct (vec_get v i) as [row|]; [|done]. cbn [fmap option_fmap option_map].
  rewrite vec_set_fmap.
  destruct (vec_set row j a) as [row'|]; [|done]. cbn [fmap option_fmap option_map].
  apply (vec_set_fmap (lmap f)).
Qed.

Lemma rebased_allNodes_get x y :
  rebased h0 (opmap (Nat.add base)) (allNodes_get x y) (allNodes_get x y).
Proof.
  intros t. unfold allNodes_get. unfold_rebase. rewrite get2_fmap.
  by destruct (get2 (allNodes t) x y).
Qed.

Lemma rebased_allNodes_set x y p :
  rebased h0 id (allNodes_set x y (base + p)) (allNodes_set x y p).
Proof.
  intros t. unfold allNodes_set. unfold_rebase.
  change (Some (base + p)%nat) with (opmap (Nat.add base) (Some p)).
  rewrite (set2_fmap (opmap (Nat.add base)) _ _ _ (Some p)).
  by destruct (set2 (allNodes t) x y (Some p)).
Qed.

Lemma rebased_new_node n :
  rebased h0 (Nat.add base) (new_node (shift_node base n)) (new_node n).
Proof.
  intros t. unfold new_node, rebase, shift_store. unfold_state.
  cbn [outcome_map fst snd]. unfold_state.
  rewrite length_app, length_fmap, fmap_app, app_assoc. done.
Qed.

Lemma rebased_push p :
  rebased h0 id (openList_push (base + p)) (openList_push p).
Proof.
  intros t. unfold openList_push, rebase. unfold_state.
  cbn [outcome_map fst snd]. unfold_state. by rewrite fmap_app.
Qed.

Lemma pq_min_rebase t best bestf rest :
  pq_min (heap (rebase h0 t)) (base + best) bestf (lmap (Nat.add base) rest)
  = opmap (Nat.add base) (pq_min (heap t) best bestf rest).
Proof.
  revert best bestf. induction rest as [|p rest IH]; intros best bestf; [done|].
  cbn [fmap list_fmap pq_min]. rewrite lookup_rebase.
  destruct (heap t !! p) as [[n|]|]; [|done..]. cbn.
  destruct (PrimFloat.ltb (Node.f n) bestf); apply IH.
Qed.

Lemma pq_top_rebase t :
  pq_top (heap (rebase h0 t)) (openList (rebase h0 t))
  = opmap (Nat.add base) (pq_top (heap t) (openList t)).
Proof.
  unfold pq_top. cbn [openList rebase].
  destruct (openList t) as [|p rest]; [done|]. cbn [fmap list_fmap].
  rewrite lookup_rebase. destruct (heap t !! p) as [[n|]|]; [|done..].
  apply (pq_min_rebase t p (Node.f n) rest).
Qed.

Lemma pq_remove_rebase p q :
  pq_remove (base + p) (lmap (Nat.add base) q) = lmap (Nat.add base) (pq_remove p q).
Proof.
  induction q as [|p' q IH]; [done|]. cbn [fmap list_fmap pq_remove].
  replace (Nat.eqb (base + p) (base + p')) with (Nat.eqb p p').
  - destruct (Nat.eqb p p'); [done|]. cbn [fmap list_fmap]. by rewrite <- IH.
  - destruct (Nat.eqb_spec p p'), (Nat.eqb_spec (base + p) (base + p')); (done || lia).
Qed.

Lemma rebased_top : rebased h0 (Nat.add base) openList_top openList_top.
Proof.
  intros t. unfold openList_top. rewrite pq_top_rebase.
  by destruct (pq_top (heap t) (openList t)).
Qed.

Lemma rebased_pop : rebased h0 id openList_pop openList_pop.
Proof.
  intros t. unfold openList_pop. rewrite pq_top_rebase.
  destruct (pq_top (heap t) (openList t)) as [p|]; [|done].
  cbn [fmap option_fmap option_map outcome_map fst snd].
  unfold_rebase. fold base. by rewrite pq_remove_rebase.
Qed.

Lemma rebased_empty : rebased h0 id openList_empty openList_empty.
Proof.
  intros t. unfold openList_empty. cbn [openList rebase outcome_map fst snd].
  by destruct (openList t).
Qed.

Lemma rebased_explore current goal rows cols i :
  rebased h0 id (explore (base + current) goal rows cols i)
               (explore current goal rows cols i).
Proof.
  unfold explore.
  eapply rebased_bind; [apply rebased_deref|]. intros cur. cbn [shift_node Node.x Node.y Node.g].
  eapply rebased_bind; [apply rebased_isValid|]. intros valid. unfold id at 1.
  destruct valid; cbn [negb]; [|apply (rebased_ret id)].
  eapply rebased_bind; [apply rebased_closed_get|]. intros c. unfold id at 1.
  destruct c; [apply (rebased_ret id)|].
  eapply rebased_bind; [apply rebased_allNodes_get|]. intros recorded.
  eapply (rebased_bind id).
  - destruct recorded as [q|]; cbn [fmap option_fmap option_map].
    + eapply rebased_bind; [apply rebased_deref|]. intros old.
      cbn [shift_node Node.f]. apply (rebased_ret id).
    + apply (rebased_ret id).
  - intros better. unfold id at 1. destruct better; [|apply (rebased_ret id)].
    eapply rebased_bind; [apply (rebased_new_node (Node.mk _ _ _ _ _ (Some current)))|].
    intros neighbor.
    eapply rebased_bind; [apply rebased_push|]. intros _.
    apply rebased_allNodes_set.
Qed.

Lemma rebased_for_each idx (body' body : nat → M unit) :
  (∀ i, rebased h0 id (body' i) (body i)) →
  rebased h0 id (for_each idx body') (for_each idx body).
Proof.
  intros Hbody. induction idx as [|i idx IH]; cbn [for_each].
  - apply (rebased_ret id).
  - eapply rebased_bind; [apply Hbody|]. intros _. apply IH.
Qed.

Lemma rebased_search_loop fuel goal rows cols :
  rebased h0 (opmap (Nat.add base))
    (search_loop fuel goal rows cols) (search_loop fuel goal rows cols).
Proof.
  induction fuel as [|fuel IH]; cbn [search_loop].
  - eapply rebased_bind; [apply rebased_empty|]. intros empty. unfold id at 1.
    destruct empty; by intros t.
  - eapply rebased_bind; [apply rebased_empty|]. intros empty. unfold id at 1.
    destruct empty; [by intros t|].
    eapply rebased_bind; [apply rebased_top|]. intros current.
    eapply rebased_bind; [apply rebased_pop|]. intros _.
    eapply rebased_bind; [apply rebased_deref|]. intros cur.
    cbn [shift_node Node.x Node.y].
    destruct ((Node.x cur =? fst goal) && (Node.y cur =? snd goal)).
    + by intros t.
    + eapply rebased_bind; [apply rebased_closed_set|]. intros _.
      eapply rebased_bind; [apply rebased_for_each, rebased_explore|]. intros _.
      apply IH.
Qed.

(** Following the parent links, and cleaning up, on the rebased store. *)
Lemma reconstruct_loop_rebase fuel h : ∀ current acc,
  reconstruct_loop fuel (h0 ++ shift_store base h) (opmap (Nat.add base) current) acc
  = reconstruct_loop fuel h current acc.
Proof.
  induction fuel as [|fuel IH]; intros [p|] acc; cbn [fmap option_fmap option_map reconstruct_loop]; try done.
  pose proof (lookup_rebase (mkState [] h [] [] []) p) as Hl.
  unfold rebase in Hl. unfold_state. fold base in Hl. rewrite Hl.
  destruct (h !! p) as [[n|]|]; [|done..]. cbn. apply IH.
Qed.

Lemma delete_all_rebase ps : ∀ h,
  delete_all (h0 ++ shift_store base h) (lmap (opmap (Nat.add base)) ps)
  = opmap (λ h', h0 ++ shift_store base h') (delete_all h ps).
Proof.
  induction ps as [|[q|] ps IH]; intros h; cbn [fmap list_fmap option_fmap option_map delete_all];
    [done| |apply IH].
  unfold delete_node.
  pose proof (lookup_rebase (mkState [] h [] [] []) q) as Hl.
  unfold rebase in Hl. unfold_state. fold base in Hl. rewrite Hl.
  destruct (h !! q) as [[n|]|] eqn:Hq; [|done..]. cbn.
  replace (<[(base + q)%nat := None]> (h0 ++ shift_store base h))
    with (h0 ++ shift_store base (<[q := None]> h)); [apply IH|].
  unfold shift_store. rewrite list_fmap_insert.
  rewrite insert_app_r_alt by (unfold base; lia).
  do 2 f_equal. unfold base. lia.
Qed.

End Rebase.

Lemma bind_assoc {A B C} (m : M A) (k : A → M B) (k' : B → M C) s :
  bind (bind m k) k' s = bind m (λ a, bind (k a) k') s.
Proof. unfold bind. by destruct (m s) as [[a s1]| |]. Qed.

Lemma concat_fmap {A B} (f : A → B) (ls : list (list A)) :
  concat (fmap (M:=list) (fmap (M:=list) f) ls) = fmap (M:=list) f (concat ls).
Proof.
  induction ls as [|l ls IH]; [done|].
  cbn [fmap list_fmap concat]. rewrite fmap_app. f_equal. apply IH.
Qed.

(** Once the fuel exceeds the address of a node of the run, following its
    parent links does not depend on the fuel. *)
Lemma reconstruct_loop_fuel h0 g0 start rows cols h :
  (∀ p, own h0 h p → ∃ n, h !! p = Some (Some n) ∧ linked h0 g0 start rows cols h p n) →
  ∀ p fuel1 fuel2 acc,
    own h0 h p → (p < fuel1)%nat → (p < fuel2)%nat →
    reconstruct_loop fuel1 h (Some p) acc = reconstruct_loop fuel2 h (Some p) acc.
Proof.
  intros Hlive p. induction (lt_wf p) as [p _ IH].
  intros [|fuel1] [|fuel2] acc Hown H1 H2; try lia.
  cbn [reconstruct_loop].
  destruct (Hlive p Hown) as (n & -> & _ & Hlink).
  destruct (Node.parent n) as [q|].
  - destruct Hlink as (Hq & _). apply IH; unfold own in *; lia.
  - by rewrite !reconstruct_loop_None.
Qed.

(** The search on a store that holds [h0] is the search on the empty
    store, [length h0] slots further: it returns the same path. *)
Lemma aStarSearch_rebase fuel start goal gd h0 path m' :
  aStarSearch fuel start goal (mkMemory gd h0) = Ok (path, m') →
  ∃ h, aStarSearch fuel start goal (mkMemory gd []) = Ok (path, mkMemory gd h) ∧
       m' = mkMemory gd (h0 ++ shift_store (length h0) h).
Proof.
  unfold aStarSearch. cbn [mem_grid mem_heap].
  destruct gd as [|row0 gd']; [done|].
  set (rows := wrap_int (Z.of_nat (length (row0 :: gd')))).
  set (cols := wrap_int (Z.of_nat (length row0))).
  destruct ((rows <? 0) || (cols <? 0)); [done|].
  set (n0 := Node.mk (fst start) (snd start) 0 0
                     (heuristic (fst start) (snd start) (fst goal) (snd goal)) None).
  set (closed0 := replicate (Z.to_nat rows) (replicate (Z.to_nat cols) false)).
  set (all0 := replicate (Z.to_nat rows) (replicate (Z.to_nat cols) (@None nat))).
  set (t0 := mkState (row0 :: gd') [] closed0 all0 []).
  assert (mkState (row0 :: gd') h0 closed0 all0 [] = rebase h0 t0) as ->.
  { unfold rebase, t0, shift_store, all0. unfold_state.
    rewrite !fmap_replicate. cbn [fmap list_fmap option_fmap option_map].
    by rewrite app_nil_r. }
  set (prefix := bind (new_node n0) (λ startNode,
                   bind (openList_push startNode) (λ _,
                     bind (allNodes_set (fst start) (snd start) startNode) (λ _,
                       search_loop fuel goal rows cols)))).
  assert (rebased h0 (fmap (M:=option) (Nat.add (length h0))) prefix prefix) as Hprefix.
  { unfold prefix.
    eapply rebased_bind; [apply (rebased_new_node h0 n0)|]. intros startNode.
    eapply rebased_bind; [apply rebased_push|]. intros _.
    eapply rebased_bind; [apply rebased_allNodes_set|]. intros _.
    apply rebased_search_loop. }
  match goal with |- match ?run _ with _ => _ end = _ → _ =>
    assert (∀ s, run s = bind prefix (λ goalNode, bind get_state (λ s1,
              bind (match goalNode with
                    | Some gp => λ s' : search_state,
                        match reconstructPath (length (heap s1)) (heap s1) gp with
                        | Ok p => Ok (p, s')
                        | Undefined => Undefined
                        | OutOfFuel => OutOfFuel
                        end
                    | None => ret []
                    end) (λ path,
                bind (defined (delete_all (heap s1) (concat (allNodes s1)))) (λ h' s',
                  Ok (path, mkState (grid s') h' (closed s') (allNodes s') (openList s')))))) s)
      as Hsplit end.
  { intros s. unfold prefix, bind, new_node, openList_push.
    by destruct (allNodes_set _ _ _ _) as [[? ?]| |]. }
  rewrite !Hsplit. clear Hsplit.
  unfold bind at 1 5. rewrite Hprefix.
  destruct (prefix t0) as [[goalNode t]| |] eqn:Ht; cbn [outcome_map fst snd]; [|done..].
  (* the invariant of the run on the empty store *)
  pose proof Ht as Ht'. unfold prefix in Ht'.
  apply bind_Ok in Ht' as (p0 & s1 & [-> ->]%new_node_Ok & Ht').
  apply bind_Ok in Ht' as (? & s1 & ->%openList_push_Ok & Ht').
  apply bind_Ok in Ht' as (? & s1 & (a0 & Ha0 & ->)%allNodes_set_Ok & Ht').
  unfold t0 in Ha0, Ht'. unfold_state. cbn [app length] in Ha0, Ht'.
  assert (0 <= fst start < rows ∧ 0 <= snd start < cols) as Hstart.
  { pose proof Ha0 as Ha0'. unfold all0 in Ha0'.
    apply set2_Some in Ha0' as (row & Hrow & Hj & _).
    pose proof (vec_get_lt _ _ _ Hrow) as Hi.
    apply vec_get_Some in Hrow as [_ [-> _]%lookup_replicate_1].
    rewrite !length_replicate in *. lia. }
  pose proof (wrap_int_range (Z.of_nat (length (row0 :: gd')))) as [_ Hrmax].
  pose proof (wrap_int_range (Z.of_nat (length row0))) as [_ Hcmax].
  fold rows in Hrmax. fold cols in Hcmax.
  eapply (inv_search_loop [] (row0 :: gd') start rows cols Hrmax Hcmax)
    in Ht' as [Hinv Hgoal].
  2:{ split; unfold_state; unfold own; cbn [length app].
      - done.
      - by exists [Some n0].
      - intros p Hp. assert (p = 0%nat) as -> by lia.
        exists n0. split; [done|]. split; [done|]. cbn. by destruct start.
      - intros p ->%list_elem_of_singleton. lia.
      - intros p Hp.
        destruct (elem_of_concat_set2 _ _ _ _ _ _ Ha0 Hp) as [Heq|Hin].
        + injection Heq as ->. lia.
        + by apply concat_replicate_None in Hin. }
  pose proof (inv_grid _ _ _ _ _ _ Hinv) as Hgrid.
  pose proof (inv_live _ _ _ _ _ _ Hinv) as Hlive.
  unfold bind, get_state, defined, ret. unfold_rebase.
  rewrite concat_fmap, delete_all_rebase.
  assert (match fmap (M:=option) (Nat.add (length h0)) goalNode with
          | Some gp =>
              reconstructPath (length (h0 ++ shift_store (length h0) (heap t)))
                              (h0 ++ shift_store (length h0) (heap t)) gp
          | None => Ok []
          end
          = match goalNode with
            | Some gp => reconstructPath (length (heap t)) (heap t) gp
            | None => Ok []
            end) as Hpath.
  { destruct goalNode as [gp|]; [|done]. destruct Hgoal as [Hown _].
    cbn [fmap option_fmap option_map]. unfold reconstructPath.
    change (Some (length h0 + gp)%nat)
      with (fmap (M:=option) (Nat.add (length h0)) (Some gp)).
    rewrite reconstruct_loop_rebase.
    rewrite (reconstruct_loop_fuel [] (row0 :: gd') start rows cols (heap t) Hlive
               gp _ (length (heap t))); [done|done|..].
    - unfold shift_store. rewrite length_app, length_fmap. unfold own in Hown. lia.
    - unfold own in Hown. lia. }
  destruct goalNode as [gp|]; cbn [fmap option_fmap option_map] in *.
  - rewrite Hpath. destruct (reconstructPath _ _ gp) as [p| |]; [|done..].
    destruct (delete_all (heap t) (concat (allNodes t))) as [h|]; [|done].
    cbn. intros [= <- <-]. exists h. by rewrite Hgrid.
  - destruct (delete_all (heap t) (concat (allNodes t))) as [h|]; [|done].
    cbn. intros [= <- <-]. exists h. by rewrite Hgrid.
Qed.

(** ** The outcome does not depend on the value of the start cell *)

(** [isValid] reads the start cell when a neighbour of the start is
    expanded; the cell is closed by then, so the neighbour is skipped
    whether the cell is free or blocked. *)

(** The same state over another grid. *)
Definition with_grid (gd : list (list Z)) (s : search_state) : search_state :=
  mkState gd (heap s) (closed s) (allNodes s) (openList s).

Section StartCell.
(** Two grids that differ at most in the cell [start]. *)
Variables (gd gd' : list (list Z)) (start : Z * Z) (v : Z).
Hypothesis grids : set2 gd (fst start) (snd start) v = Some gd'.

(** The start cell is closed. *)
Definition start_closed (s : search_state) : Prop :=
  get2 (closed s) (fst start) (snd start) = Some true.

(** On a state over [gd] that satisfies [P], [m] over [gd'] does what it
    does over [gd], and leaves a state over [gd] that satisfies [Q]. *)
Definition same_run {A} (P : search_state → Prop) (m : M A)
    (Q : A → search_state → Prop) : Prop :=
  ∀ s, grid s = gd → P s →
    m (with_grid gd' s) = outcome_map (λ r, (fst r, with_grid gd' (snd r))) (m s) ∧
    ∀ a t, m s = Ok (a, t) → grid t = gd ∧ Q a t.

Lemma same_run_bind {A B} P Q R (m : M A) (k : A → M B) :
  same_run P m Q → (∀ a, same_run (Q a) (k a) R) → same_run P (bind m k) R.
Proof.
  intros Hm Hk s Hg HP. destruct (Hm s Hg HP) as [Heq Hpost].
  unfold bind. rewrite Heq.
  destruct (m s) as [[a t]| |]; cbn [outcome_map fst snd]; [|done..].
  destruct (Hpost a t eq_refl) as [Hgt HQ]. apply (Hk a t Hgt HQ).
Qed.

Lemma same_run_weaken {A} (P P' : search_state → Prop) (m : M A)
    (Q Q' : A → search_state → Prop) :
  same_run P m Q → (∀ s, P' s → P s) → (∀ a s, Q a s → Q' a s) → same_run P' m Q'.
Proof.
  intros Hm HP HQ s Hg HP'. destruct (Hm s Hg (HP _ HP')) as [Heq Hpost].
  split; [done|]. intros a t Ht. destruct (Hpost a t Ht). auto.
Qed.

(** An operation that does not look at the grid. *)
Definition grid_blind {A} (m : M A) : Prop :=
  ∀ s g, m (with_grid g s)
         = outcome_map (λ r, (fst r, with_grid g (snd r))) (m s) ∧
         ∀ a t, m s = Ok (a, t) → grid t = grid s.

Lemma same_run_blind {A} (P : search_state → Prop) (m : M A) :
  grid_blind m →
  same_run P m (λ a t, ∃ s, P s ∧ m s = Ok (a, t)).
Proof.
  intros Hm s Hg HP. destruct (Hm s gd') as [Heq Hgrid]. split; [done|].
  intros a t Ht. split; [by rewrite (Hgrid a t Ht)|eauto].
Qed.

Lemma blind_deref p : grid_blind (deref p).
Proof.
  intros s g. unfold deref, with_grid. unfold_state.
  destruct (heap s !! p) as [[n|]|]; cbn; split; try done. by intros ? ? [= _ <-].
Qed.

Lemma blind_closed_get x y : grid_blind (closed_get x y).
Proof.
  intros s g. unfold closed_get, with_grid. unfold_state.
  destruct (get2 (closed s) x y); cbn; split; try done. by intros ? ? [= _ <-].
Qed.

Lemma blind_closed_set x y : grid_blind (closed_set x y).
Proof.
  intros s g. unfold closed_set, with_grid. unfold_state.
  destruct (set2 (closed s) x y true); cbn; split; try done. by intros ? ? [= _ <-].
Qed.

Lemma blind_allNodes_get x y : grid_blind (allNodes_get x y).
Proof.
  intros s g. unfold allNodes_get, with_grid. unfold_state.
  destruct (get2 (allNodes s) x y); cbn; split; try done. by intros ? ? [= _ <-].
Qed.

Lemma blind_allNodes_set x y p : grid_blind (allNodes_set x y p).
Proof.
  intros s g. unfold allNodes_set, with_grid. unfold_state.
  destruct (set2 (allNodes s) x y (Some p)); cbn; split; try done.
  by intros ? ? [= _ <-].
Qed.

Lemma blind_new_node n : grid_blind (new_node n).
Proof. intros s g. split; [done|]. by intros ? ? [= _ <-]. Qed.

Lemma blind_push p : grid_blind (openList_push p).
Proof. intros s g. split; [done|]. by intros ? ? [= _ <-]. Qed.

Lemma blind_empty : grid_blind openList_empty.
Proof. intros s g. split; [done|]. by intros ? ? [= _ <-]. Qed.

Lemma blind_top : grid_blind openList_top.
Proof.
  intros s g. unfold openList_top, with_grid. unfold_state.
  destruct (pq_top (heap s) (openList s)); cbn; split; try done.
  by intros ? ? [= _ <-].
Qed.

Lemma blind_pop : grid_blind openList_pop.
Proof.
  intros s g. unfold openList_pop, with_grid. unfold_state.
  destruct (pq_top (heap s) (openList s)); cbn; split; try done.
  by intros ? ? [= _ <-].
Qed.

Lemma blind_ret {A} (a : A) : grid_blind (ret a).
Proof. intros s g. split; [done|]. by intros ? ? [= _ <-]. Qed.

Lemma blind_bind {A B} (m : M A) (k : A → M B) :
  grid_blind m → (∀ a, grid_blind (k a)) → grid_blind (bind m k).
Proof.
  intros Hm Hk s g. destruct (Hm s g) as [Heq Hgrid]. unfold bind. rewrite Heq.
  destruct (m s) as [[a t]| |]; cbn [outcome_map fst snd]; [|done..].
  destruct (Hk a t g) as [Heq' Hgrid']. split; [done|].
  intros b u Hu. rewrite (Hgrid' b u Hu). by apply (Hgrid a t).
Qed.

(** A grid-blind operation that keeps the start cell closed. *)
Lemma same_run_closed {A} (m : M A) :
  grid_blind m →
  (∀ s a t, m s = Ok (a, t) → start_closed s → start_closed t) →
  same_run start_closed m (λ _, start_closed).
Proof.
  intros Hblind Hkeep.
  eapply same_run_weaken; [by apply (same_run_blind start_closed)|done|].
  intros a t (s & Hs & Hrun). by eapply Hkeep.
Qed.

(** [m] over [gd'] does on [s] what it does over the grid of [s]. *)
Definition agree {A} (m : M A) (s : search_state) : Prop :=
  m (with_grid gd' s) = outcome_map (λ r, (fst r, with_grid gd' (snd r))) (m s).

Lemma agree_bind {A B} (m : M A) (k : A → M B) s :
  agree m s → (∀ a t, m s = Ok (a, t) → agree (k a) t) → agree (bind m k) s.
Proof.
  unfold agree, bind. intros -> Hk.
  destruct (m s) as [[a t]| |]; cbn [outcome_map fst snd]; [by apply Hk|done..].
Qed.

Lemma agree_blind {A} (m : M A) s : grid_blind m → agree m s.
Proof. intros Hm. apply (Hm s gd'). Qed.

(** With the start cell closed, the test of a neighbour gives the same
    verdict over both grids: elsewhere the grids agree, and the start
    cell is skipped over both. *)
Lemma explore_same_run current goal rows cols i :
  same_run start_closed (explore current goal rows cols i) (λ _, start_closed).
Proof.
  intros s Hg Hclosed.
  assert (∀ u t, explore current goal rows cols i s = Ok (u, t) →
                 grid t = gd ∧ start_closed t) as Hpost.
  { intros u t (cur & _ & [->|Hnew])%explore_Ok; [by split|].
    destruct Hnew as (n & a & _ & _ & _ & _ & _ & _ & _ & ->).
    unfold created, start_closed. by unfold_state. }
  split; [|apply Hpost]. fold (agree (explore current goal rows cols i) s).
  unfold explore.
  apply agree_bind; [apply agree_blind, blind_deref|].
  intros cur s1 [_ ->]%deref_Ok.
  set (nx := wrap_int (Node.x cur + nth i dx 0)).
  set (ny := wrap_int (Node.y cur + nth i dy 0)).
  destruct (decide (nx = fst start ∧ ny = snd start)) as [[Hx Hy]|Hne].
  - (* the neighbour is the start cell: skipped over both grids *)
    assert (∀ g, is_Some (get2 g nx ny) →
            ∃ b, isValid nx ny rows cols (with_grid g s) = Ok (b, with_grid g s))
      as Hvalid.
    { intros g [w Hw]. unfold isValid, with_grid. unfold_state.
      destruct (_ && _); rewrite ?Hw; eauto. }
    assert (closed_get nx ny s = Ok (true, s)) as Hcl.
    { unfold closed_get. rewrite Hx, Hy. by rewrite Hclosed. }
    assert (is_Some (get2 gd nx ny) ∧ is_Some (get2 gd' nx ny)) as [Hgd Hgd'].
    { rewrite Hx, Hy. rewrite (get2_set2 _ _ _ _ _ _ _ grids), decide_True by done.
      apply set2_Some in grids as (row & Hrow & Hj & _).
      split; [|done]. unfold get2. rewrite Hrow. by apply vec_get_is_Some. }
    assert (with_grid gd s = s) as Hs by (destruct s; cbn in *; by subst).
    destruct (Hvalid gd' Hgd') as [b' Hb'], (Hvalid gd Hgd) as [b Hb].
    rewrite Hs in Hb. unfold agree, bind. rewrite Hb', Hb. cbn [outcome_map fst snd].
    destruct (blind_closed_get nx ny s gd') as [Hcl' _]. rewrite Hcl in Hcl'.
    destruct b', b; cbn [negb]; rewrite ?Hcl', ?Hcl; done.
  - (* another cell: the same test, and the rest does not read the grid *)
    apply agree_bind.
    { unfold agree, isValid, with_grid. unfold_state. rewrite Hg.
      rewrite (get2_set2 _ _ _ _ _ _ _ grids), decide_False by done.
      destruct (_ && _); [|done]. by destruct (get2 gd nx ny). }
    intros valid s1 [-> _]%isValid_Ok.
    apply agree_blind.
    destruct valid; cbn [negb]; [|apply blind_ret].
    apply blind_bind; [apply blind_closed_get|].
    intros c. destruct c; [apply blind_ret|].
    apply blind_bind; [apply blind_allNodes_get|]. intros recorded.
    apply blind_bind.
    { destruct recorded; [|apply blind_ret].
      apply blind_bind; [apply blind_deref|]. intros old. apply blind_ret. }
    intros better. destruct better; [|apply blind_ret].
    apply blind_bind; [apply blind_new_node|]. intros neighbor.
    apply blind_bind; [apply blind_push|]. intros _. apply blind_allNodes_set.
Qed.

Lemma same_run_ret {A} (P : search_state → Prop) (a : A) :
  same_run P (ret a) (λ _, P).
Proof. intros s Hg HP. split; [done|]. by intros ? ? [= _ <-]. Qed.

Lemma for_each_same_run current goal rows cols idx :
  same_run start_closed (for_each idx (explore current goal rows cols))
           (λ _, start_closed).
Proof.
  induction idx as [|i idx IH]; cbn [for_each].
  - apply same_run_ret.
  - eapply same_run_bind; [apply explore_same_run|]. intros ?. apply IH.
Qed.

(** When the loop is entered the start cell is closed, or the start node
    is alone on the open list and will be the first to be closed. *)
Definition ready (s : search_state) : Prop :=
  start_closed s ∨
  ∃ p n, openList s = [p] ∧ heap s !! p = Some (Some n) ∧
         (Node.x n, Node.y n) = start.

Lemma search_loop_agree fuel goal rows cols : ∀ s,
  grid s = gd → ready s → agree (search_loop fuel goal rows cols) s.
Proof.
  induction fuel as [|fuel IH]; intros s Hg Hready; cbn [search_loop].
  - apply agree_bind; [apply agree_blind, blind_empty|].
    intros empty s1 [= <- <-]. by destruct (openList s).
  - apply agree_bind; [apply agree_blind, blind_empty|].
    intros empty s1 [= <- <-].
    destruct (match openList s with [] => true | _ => false end);
      [apply agree_blind, blind_ret|].
    apply agree_bind; [apply agree_blind, blind_top|].
    intros current s1 [Hin ->]%openList_top_Ok.
    apply agree_bind; [apply agree_blind, blind_pop|].
    intros ? s1 (Hg1 & Hh1 & Hc1 & _)%openList_pop_Ok.
    apply agree_bind; [apply agree_blind, blind_deref|].
    intros cur s2 [Hcur ->]%deref_Ok.
    destruct (_ && _); [apply agree_blind, blind_ret|].
    apply agree_bind; [apply agree_blind, blind_closed_set|].
    intros ? s2 (c & Hc & ->)%closed_set_Ok.
    assert (start_closed (mkState (grid s1) (heap s1) c (allNodes s1) (openList s1)))
      as Hclosed.
    { unfold start_closed. unfold_state.
      rewrite (get2_set2 _ _ _ _ _ _ _ Hc). case_decide as Hd; [done|].
      rewrite Hc1. destruct Hready as [Hcl|(p & n & Hopen & Hn & Hxy)]; [done|].
      rewrite Hopen in Hin. apply list_elem_of_singleton in Hin as ->.
      rewrite Hh1 in Hcur. assert (cur = n) as -> by congruence.
      destruct Hd. by rewrite <- Hxy. }
    assert (grid (mkState (grid s1) (heap s1) c (allNodes s1) (openList s1)) = gd)
      as Hg2 by (unfold_state; congruence).
    destruct (for_each_same_run current goal rows cols (seq 0 8) _ Hg2 Hclosed)
      as [Hagree Hpost].
    apply agree_bind; [apply Hagree|].
    intros ? s3 [Hg3 Hcl3]%Hpost. apply IH; [done|by left].
Qed.

End StartCell.

Lemma set2_dims {A} (g g' : list (list A)) x y (a : A) :
  set2 g x y a = Some g' →
  length g' = length g ∧ length <$> head g' = length <$> head g.
Proof.
  intros (row & Hrow & Hj & ->)%set2_Some.
  apply vec_get_Some in Hrow as [_ Hrow].
  split; [apply length_insert|].
  destruct g as [|row0 g]; [done|]. destruct (Z.to_nat x) as [|k]; [|done].
  cbn in *. injection Hrow as ->. by rewrite length_insert.
Qed.

(** The search gives the same result whatever the value of the start
    cell: the same outcome, the same path and the same store. *)
Lemma aStarSearch_start_cell fuel start goal gd gd' v h0 :
  set2 gd (fst start) (snd start) v = Some gd' →
  aStarSearch fuel start goal (mkMemory gd' h0)
  = outcome_map (λ r, (fst r, mkMemory gd' (mem_heap (snd r))))
                (aStarSearch fuel start goal (mkMemory gd h0)).
Proof.
  intros Hset. destruct (set2_dims _ _ _ _ _ Hset) as [Hlen Hhead].
  unfold aStarSearch. cbn [mem_grid mem_heap]. rewrite Hlen.
  destruct gd as [|row0 gd1], gd' as [|row0' gd1']; try done.
  cbn [head fmap option_fmap option_map] in Hhead. injection Hhead as ->.
  set (rows := wrap_int (Z.of_nat (length (row0 :: gd1)))).
  set (cols := wrap_int (Z.of_nat (length row0))).
  destruct ((rows <? 0) || (cols <? 0)); [done|].
  set (n0 := Node.mk (fst start) (snd start) 0 0
                     (heuristic (fst start) (snd start) (fst goal) (snd goal)) None).
  set (s0 := mkState (row0 :: gd1) h0 _ _ []).
  change (mkState (row0' :: gd1') h0 _ _ []) with (with_grid (row0' :: gd1') s0).
  set (prefix := bind (new_node n0) (λ startNode,
                   bind (openList_push startNode) (λ _,
                     bind (allNodes_set (fst start) (snd start) startNode) (λ _,
                       search_loop fuel goal rows cols)))).
  set (finish := λ goalNode : option nat, bind get_state (λ s1,
              bind (match goalNode with
                    | Some gp => λ s' : search_state,
                        match reconstructPath (length (heap s1)) (heap s1) gp with
                        | Ok p => Ok (p, s')
                        | Undefined => Undefined
                        | OutOfFuel => OutOfFuel
                        end
                    | None => ret []
                    end) (λ path,
                bind (defined (delete_all (heap s1) (concat (allNodes s1)))) (λ h' s',
                  Ok (path, mkState (grid s') h' (closed s') (allNodes s') (openList s')))))).
  match goal with |- match ?run _ with _ => _ end = _ =>
    assert (∀ s, run s = bind prefix finish s) as Hsplit end.
  { intros s. unfold prefix, finish, bind, new_node, openList_push.
    by destruct (allNodes_set _ _ _ _) as [[? ?]| |]. }
  rewrite !Hsplit. clear Hsplit.
  assert (agree (row0' :: gd1') (bind prefix finish) s0) as ->.
  { apply agree_bind.
    - unfold prefix.
      apply agree_bind; [apply agree_blind, blind_new_node|].
      intros p s1 [-> ->]%new_node_Ok.
      apply agree_bind; [apply agree_blind, blind_push|].
      intros ? s1 ->%openList_push_Ok.
      apply agree_bind; [apply agree_blind, blind_allNodes_set|].
      intros ? s1 (al & _ & ->)%allNodes_set_Ok.
      eapply search_loop_agree; [done|done|].
      right. exists (length h0), n0. unfold s0. unfold_state.
      split; [done|]. split; [by apply list_lookup_middle|]. by destruct start.
    - intros goalNode t _. unfold agree, finish, bind, get_state, defined, ret, with_grid.
      unfold_state.
      destruct goalNode as [gp|];
        [destruct (reconstructPath _ _ gp) as [p| |]; [|done..]|];
        by destruct (delete_all _ _). }
  by destruct (bind prefix finish s0) as [[path s]| |].
Qed.

(** ** The search returns *)

(** *** Matrices of the dimensions of the grid *)

Definition matrix {A} (rows cols : Z) (v : list (list A)) : Prop :=
  length v = Z.to_nat rows ∧ Forall (λ row, length row = Z.to_nat cols) v.

Lemma matrix_replicate {A} rows cols (a : A) :
  matrix rows cols (replicate (Z.to_nat rows) (replicate (Z.to_nat cols) a)).
Proof.
  split; [apply length_replicate|].
  apply Forall_forall. intros row [-> _]%elem_of_replicate. apply length_replicate.
Qed.

Lemma matrix_get2 {A} rows cols (v : list (list A)) x y :
  matrix rows cols v → 0 <= x < rows → 0 <= y < cols → is_Some (get2 v x y).
Proof.
  intros [Hlen Hrows] Hx Hy. unfold get2.
  destruct (vec_get_is_Some v x) as [row Hrow]; [lia|]. rewrite Hrow.
  apply vec_get_is_Some.
  apply vec_get_Some in Hrow as [_ Hrow%list_elem_of_lookup_2].
  eapply Forall_forall in Hrows; [|done]. lia.
Qed.

Lemma matrix_set2 {A} rows cols (v v' : list (list A)) x y a :
  set2 v x y a = Some v' → matrix rows cols v → matrix rows cols v'.
Proof.
  intros (row & Hrow & Hj & ->)%set2_Some [Hlen Hrows].
  apply vec_get_Some in Hrow as [_ Hrow].
  split; [by rewrite length_insert|].
  apply Forall_insert; [done|]. rewrite length_insert.
  eapply Forall_forall in Hrows; [done|]. by eapply list_elem_of_lookup_2.
Qed.

Lemma matrix_set2_is_Some {A} rows cols (v : list (list A)) x y a :
  matrix rows cols v → 0 <= x < rows → 0 <= y < cols → is_Some (set2 v x y a).
Proof.
  intros Hm Hx Hy. destruct (matrix_get2 _ _ _ _ _ Hm Hx Hy) as [o Ho].
  unfold get2 in Ho. destruct (vec_get v x) as [row|] eqn:Hrow; [|done].
  apply vec_get_lt in Ho. eexists. apply set2_Some. eauto.
Qed.

Lemma get2_elem_of_concat {A} (v : list (list A)) x y a :
  get2 v x y = Some a → a ∈ concat v.
Proof.
  unfold get2. destruct (vec_get v x) as [row|] eqn:Hrow; [|done].
  intros [_ Ha]%vec_get_Some. apply vec_get_Some in Hrow as [_ Hrow].
  apply elem_of_concat. exists row.
  split; eapply list_elem_of_lookup_2; eauto.
Qed.

(** Writing one cell of a two-dimensional vector changes one entry of
    the sequence of its entries. *)
Lemma concat_set2 {A} (v v' : list (list A)) x y a :
  set2 v x y a = Some v' →
  ∃ l1 o l2, get2 v x y = Some o ∧
             concat v = l1 ++ o :: l2 ∧ concat v' = l1 ++ a :: l2.
Proof.
  intros (row & Hrow & Hj & ->)%set2_Some.
  pose proof (vec_get_lt _ _ _ Hrow) as Hi.
  destruct (vec_get_is_Some row y Hj) as [o Ho].
  unfold get2. rewrite Hrow, Ho.
  apply vec_get_Some in Hrow as [_ Hrow]. apply vec_get_Some in Ho as [_ Ho].
  exists (concat (take (Z.to_nat x) v) ++ take (Z.to_nat y) row), o,
         (drop (S (Z.to_nat y)) row ++ concat (drop (S (Z.to_nat x)) v)).
  split; [done|]. split.
  - rewrite <- (take_drop_middle v _ _ Hrow) at 1.
    rewrite <- (take_drop_middle row _ _ Ho) at 1.
    rewrite concat_app. cbn [concat]. by rewrite <- !app_assoc.
  - rewrite (insert_take_drop v) by lia. rewrite (insert_take_drop row) by lia.
    rewrite concat_app. cbn [concat]. by rewrite <- !app_assoc.
Qed.

Lemma set2_same {A} (v : list (list A)) x y a :
  get2 v x y = Some a → set2 v x y a = Some v.
Proof.
  unfold get2. destruct (vec_get v x) as [row|] eqn:Hrow; [|done]. intros Ha.
  apply set2_Some. exists row. split; [done|]. split; [by eapply vec_get_lt|].
  apply vec_get_Some in Hrow as [_ Hrow]. apply vec_get_Some in Ha as [_ Ha].
  by rewrite (list_insert_id row), list_insert_id.
Qed.

(** *** No operation of the search is undefined *)

Lemma filter_none {A} (P : A → Prop) `{∀ x, Decision (P x)} (l : list A) :
  (∀ x, x ∈ l → ¬ P x) → filter P l = [].
Proof.
  induction l as [|a l IH]; intros HP; [done|].
  rewrite filter_cons_False by (apply HP; left).
  apply IH. intros x Hx. apply HP. by right.
Qed.

Lemma filter_agree {A} (P Q : A → Prop)
    `{∀ x, Decision (P x)} `{∀ x, Decision (Q x)} (l : list A) :
  (∀ x, x ∈ l → P x ↔ Q x) → filter P l = filter Q l.
Proof.
  induction l as [|a l IH]; intros HPQ; [done|].
  rewrite !filter_cons. rewrite IH by (intros x Hx; apply HPQ; by right).
  destruct (decide (P a)) as [Ha|Ha], (decide (Q a)) as [Hb|Hb]; try done;
    apply HPQ in Ha || apply HPQ in Hb; try done; left.
Qed.

Section Progress.
Variables (h0 : list (option Node.t)) (g0 : list (list Z)) (start : Z * Z)
          (rows cols : Z).
Hypothesis rows_int : rows <= INT_MAX.
Hypothesis cols_int : cols <= INT_MAX.
(** Every cell inside the bounds can be read. *)
Hypothesis grid_readable :
  ∀ x y, 0 <= x < rows → 0 <= y < cols → is_Some (get2 g0 x y).

(** The pointers recorded in [allNodes]. *)
Definition recorded (v : list (list (option nat))) : list nat :=
  omap id (concat v).

Record wf (s : search_state) : Prop := mkWf {
  wf_inv : inv h0 g0 start rows cols s;
  wf_closed : matrix rows cols (closed s);
  wf_allNodes : matrix rows cols (allNodes s);
  wf_recorded : NoDup (recorded (allNodes s))
}.

(** [s'] is [s] after at most [k] nodes were created, all of them on
    cells that are not closed. *)
Definition grown (k : nat) (s s' : search_state) : Prop :=
  grid s' = grid s ∧ closed s' = closed s ∧
  ∃ news : list Node.t,
    (length news <= k)%nat ∧
    heap s' = heap s ++ (Some <$> news) ∧
    openList s' = openList s ++ seq (length (heap s)) (length news) ∧
    Forall (λ n, get2 (closed s) (Node.x n) (Node.y n) = Some false) news.

Lemma grown_refl k s : grown k s s.
Proof.
  split; [done|]. split; [done|]. exists []. cbn.
  rewrite !app_nil_r. repeat split; (done || lia).
Qed.

Lemma grown_trans k1 k2 s1 s2 s3 :
  grown k1 s1 s2 → grown k2 s2 s3 → grown (k1 + k2) s1 s3.
Proof.
  intros (Hg1 & Hc1 & n1 & Hl1 & Hh1 & Ho1 & Hn1)
         (Hg2 & Hc2 & n2 & Hl2 & Hh2 & Ho2 & Hn2).
  split; [congruence|]. split; [congruence|].
  exists (n1 ++ n2). rewrite length_app. split; [lia|].
  split; [|split].
  - by rewrite Hh2, Hh1, fmap_app, app_assoc.
  - rewrite Ho2, Ho1, Hh1, <- app_assoc, length_app, length_fmap.
    f_equal. by rewrite seq_app.
  - apply Forall_app. split; [done|]. by rewrite <- Hc1.
Qed.

Lemma recorded_set2 (v v' : list (list (option nat))) x y p :
  set2 v x y (Some p) = Some v' →
  ∃ l1 l2, recorded v' = l1 ++ p :: l2 ∧ l1 ++ l2 `sublist_of` recorded v.
Proof.
  intros (l1 & o & l2 & _ & Hv & Hv')%concat_set2. unfold recorded.
  rewrite Hv, Hv', !omap_app. cbn [omap list_omap id].
  exists (omap id l1), (omap id l2). split; [done|].
  apply sublist_app; [done|]. destruct o; cbn; [apply sublist_cons|]; reflexivity.
Qed.

(** One pass of the loop body is defined, and keeps the state well
    formed. *)
Lemma explore_progress current goal i s :
  wf s → own h0 (heap s) current → (i < 8)%nat →
  ∃ s', explore current goal rows cols i s = Ok (tt, s') ∧
        wf s' ∧ grown 1 s s'.
Proof.
  intros Hwf Hown Hi. pose proof Hwf as [Hinv Hcl Hall Hrec].
  destruct (inv_live _ _ _ _ _ _ Hinv current Hown) as (cur & Hcur & Hbc & _).
  set (nx := wrap_int (Node.x cur + nth i dx 0)).
  set (ny := wrap_int (Node.y cur + nth i dy 0)).
  unfold explore.
  eapply (bind_run_ex (deref current)); [unfold deref; by rewrite Hcur|].
  fold nx ny.
  destruct (decide (0 <= nx < rows ∧ 0 <= ny < cols)) as [Hin|Hout]; last first.
  { eapply bind_run_ex.
    - unfold isValid.
      replace ((0 <=? nx) && (nx <? rows) && (0 <=? ny) && (ny <? cols)) with false;
        [reflexivity|].
      symmetry. rewrite !andb_false_iff, !Z.leb_gt, !Z.ltb_ge. lia.
    - exists s. split; [done|]. split; [done|apply grown_refl]. }
  destruct Hin as [Hx Hy].
  destruct (grid_readable nx ny Hx Hy) as [w Hw].
  eapply bind_run_ex.
  { unfold isValid. rewrite (inv_grid _ _ _ _ _ _ Hinv), Hw.
    replace ((0 <=? nx) && (nx <? rows) && (0 <=? ny) && (ny <? cols)) with true;
      [reflexivity|].
    symmetry. rewrite !andb_true_iff, !Z.leb_le, !Z.ltb_lt. lia. }
  destruct (Z.eqb_spec w 0) as [->|Hw0]; cbn [negb]; last first.
  { exists s. split; [done|]. split; [done|apply grown_refl]. }
  destruct (matrix_get2 _ _ _ _ _ Hcl Hx Hy) as [c Hc].
  eapply bind_run_ex; [unfold closed_get; by rewrite Hc|].
  destruct c.
  { exists s. split; [done|]. split; [done|apply grown_refl]. }
  destruct (matrix_get2 _ _ _ _ _ Hall Hx Hy) as [rec Hrecd].
  eapply bind_run_ex; [unfold allNodes_get; by rewrite Hrecd|].
  assert (∃ better, match rec with
                    | Some q =>
                        bind (deref q) (λ old, ret (PrimFloat.ltb
                          (PrimFloat.add
                             (PrimFloat.add (Node.g cur)
                                (heuristic (Node.x cur) (Node.y cur) nx ny))
                             (heuristic nx ny (fst goal) (snd goal)))
                          (Node.f old)))
                    | None => ret true
                    end s = Ok (better, s)) as [better Hbetter].
  { destruct rec as [q|]; [|by eexists].
    assert (own h0 (heap s) q) as Hq.
    { apply (inv_all _ _ _ _ _ _ Hinv). by eapply get2_elem_of_concat. }
    destruct (inv_live _ _ _ _ _ _ Hinv q Hq) as (old & Hold & _).
    eexists. eapply bind_run; [unfold deref; by rewrite Hold|]. reflexivity. }
  eapply bind_run_ex; [exact Hbetter|].
  destruct better; last first.
  { exists s. split; [done|]. split; [done|apply grown_refl]. }
  destruct (matrix_set2_is_Some _ _ _ nx ny (Some (length (heap s))) Hall Hx Hy)
    as [a Ha].
  set (n := Node.mk nx ny _ _ _ (Some current)).
  exists (created s n a). split.
  { eapply bind_run; [reflexivity|]. eapply bind_run; [reflexivity|].
    unfold allNodes_set. unfold_state. by rewrite Ha. }
  split; [split|].
  - eapply (inv_created h0 g0 start rows cols rows_int cols_int s cur current i n a);
      try done. by rewrite (inv_grid _ _ _ _ _ _ Hinv).
  - done.
  - by eapply matrix_set2.
  - unfold created. unfold_state.
    destruct (recorded_set2 _ _ _ _ _ Ha) as (l1 & l2 & -> & Hsub).
    apply NoDup_app. pose proof (sublist_NoDup _ _ Hrec Hsub) as Hnd.
    apply NoDup_app in Hnd as (Hn1 & Hdisj & Hn2).
    split; [done|]. split.
    + intros p Hp1 [->|Hp2]%elem_of_cons; [|by eapply Hdisj].
      assert (length (heap s) ∈ recorded (allNodes s)) as Hin.
      { eapply elem_of_sublist; [|done]. apply elem_of_app. by left. }
      apply list_elem_of_omap in Hin as (o & Ho & Heq). cbn in Heq. subst o.
      apply (inv_all _ _ _ _ _ _ Hinv) in Ho. unfold own in Ho. lia.
    + apply NoDup_cons. split; [|done]. intros Hp2.
      assert (length (heap s) ∈ recorded (allNodes s)) as Hin.
      { eapply elem_of_sublist; [|done]. apply elem_of_app. by right. }
      apply list_elem_of_omap in Hin as (o & Ho & Heq). cbn in Heq. subst o.
      apply (inv_all _ _ _ _ _ _ Hinv) in Ho. unfold own in Ho. lia.
  - unfold created. split; [done|]. split; [done|].
    exists [n]. cbn [length fmap list_fmap seq]. repeat split; try done.
    by apply Forall_singleton.
Qed.

Lemma for_each_progress current goal idx : ∀ s,
  wf s → own h0 (heap s) current → Forall (λ i, (i < 8)%nat) idx →
  ∃ s', for_each idx (explore current goal rows cols) s = Ok (tt, s') ∧
        wf s' ∧ grown (length idx) s s'.
Proof.
  induction idx as [|i idx IH]; intros s Hwf Hown Hidx; cbn [for_each length].
  - exists s. split; [done|]. split; [done|apply grown_refl].
  - apply Forall_cons in Hidx as [Hi Hidx].
    destruct (explore_progress current goal i s Hwf Hown Hi) as (s1 & Hrun & Hwf1 & Hg1).
    assert (own h0 (heap s1) current) as Hown1.
    { destruct Hg1 as (_ & _ & news & _ & -> & _). unfold own in *.
      rewrite length_app. lia. }
    destruct (IH s1 Hwf1 Hown1 Hidx) as (s2 & Hrun2 & Hwf2 & Hg2).
    exists s2. split; [by eapply bind_run|]. split; [done|].
    by apply (grown_trans 1 (length idx) s s1 s2).
Qed.

(** *** The open list *)

Lemma pq_min_is_Some h best bestf rest :
  Forall (λ p, ∃ n, h !! p = Some (Some n)) rest →
  is_Some (pq_min h best bestf rest).
Proof.
  intros Hrest. revert best bestf.
  induction Hrest as [|p rest [n Hn] _ IH]; intros best bestf; cbn [pq_min]; [done|].
  rewrite Hn. destruct (PrimFloat.ltb _ _); apply IH.
Qed.

Lemma pq_top_is_Some h q :
  q ≠ [] → Forall (λ p, ∃ n, h !! p = Some (Some n)) q → is_Some (pq_top h q).
Proof.
  destruct q as [|p rest]; [done|]. intros _ [[n Hn] Hrest]%Forall_cons.
  cbn [pq_top]. rewrite Hn. by apply pq_min_is_Some.
Qed.

Lemma pq_remove_sublist p q : pq_remove p q `sublist_of` q.
Proof.
  induction q as [|p' q IH]; [done|]. cbn [pq_remove].
  destruct (Nat.eqb p p'); [apply sublist_cons; reflexivity|by apply sublist_skip].
Qed.

Lemma pq_remove_not_elem p q : NoDup q → p ∉ pq_remove p q.
Proof.
  induction 1 as [|p' q Hp' _ IH]; cbn [pq_remove]; [by intros ?%elem_of_nil|].
  destruct (Nat.eqb_spec p p') as [->|Hne]; [done|].
  rewrite elem_of_cons. by intros [?|?].
Qed.

(** *** Counting the extractions *)

(** The node at [p] sits on a closed cell. *)
Definition on_closed (s : search_state) (p : nat) : bool :=
  match heap s !! p with
  | Some (Some n) =>
      match get2 (closed s) (Node.x n) (Node.y n) with
      | Some true => true
      | _ => false
      end
  | _ => false
  end.

(** The addresses of the nodes of the run, the number of them that sit on
    closed cells, and the number of closed cells. *)
Definition own_list (h : list (option Node.t)) : list nat :=
  seq (length h0) (length h - length h0).

Definition closed_count (s : search_state) : nat :=
  length (filter (λ p, on_closed s p = true) (own_list (heap s))).

Definition true_count (c : list (list bool)) : nat :=
  length (filter (λ b, b = true) (concat c)).

Definition cells : nat := (Z.to_nat rows * Z.to_nat cols)%nat.

(** [P] lists the nodes taken off the open list so far. Each sits on a
    closed cell; every extraction creates at most 8 nodes; and closing a
    cell adds to the nodes on closed cells at most the nodes that exist,
    so that their number is bounded by a power of the number of closed
    cells. *)
Record counted (s : search_state) (P : list nat) : Prop := mkCounted {
  ct_nodup : NoDup P;
  ct_popped : ∀ p, p ∈ P →
              own h0 (heap s) p ∧ on_closed s p = true ∧ p ∉ openList s;
  ct_open : NoDup (openList s);
  ct_size : (length (heap s) - length h0 <= 8 * length P + 1)%nat;
  ct_count : (8 * closed_count s + 1 <= 9 ^ true_count (closed s))%nat
}.

Lemma length_concat_matrix {A} (v : list (list A)) k :
  Forall (λ row, length row = k) v → length (concat v) = (length v * k)%nat.
Proof.
  induction 1 as [|row v Hrow _ IH]; [done|].
  cbn [concat length]. rewrite length_app, IH, Hrow. lia.
Qed.

Lemma true_count_le c : matrix rows cols c → (true_count c <= cells)%nat.
Proof.
  intros [Hlen Hrows]. unfold true_count, cells.
  etrans; [apply length_filter|].
  rewrite (length_concat_matrix c (Z.to_nat cols)) by done. by rewrite Hlen.
Qed.

Lemma true_count_set2 c c' x y :
  set2 c x y true = Some c' → get2 c x y = Some false →
  true_count c' = S (true_count c).
Proof.
  intros (l1 & o & l2 & Ho & Hc & Hc')%concat_set2 Hfalse.
  assert (o = false) as -> by congruence.
  unfold true_count. rewrite Hc, Hc', !filter_app, !filter_cons.
  rewrite decide_True, decide_False by done.
  rewrite !length_app. cbn [length]. lia.
Qed.

Lemma popped_le_closed_count s P :
  counted s P → (length P <= closed_count s)%nat.
Proof.
  intros [Hnd Hpop _ _ _]. unfold closed_count.
  apply submseteq_length, NoDup_submseteq; [done|].
  intros p (Hown & Hcl & _)%Hpop.
  apply list_elem_of_filter. split; [done|].
  unfold own_list, own in *. apply elem_of_seq. lia.
Qed.

Lemma extractions_bounded s P :
  wf s → counted s P → (length P < 9 ^ cells)%nat.
Proof.
  intros Hwf Hct. pose proof (popped_le_closed_count s P Hct) as Hle.
  pose proof (ct_count s P Hct) as Hcount.
  pose proof (true_count_le _ (wf_closed s Hwf)) as HK.
  pose proof (Nat.pow_le_mono_r 9 _ _ ltac:(lia) HK). lia.
Qed.

Lemma own_list_app h (news : list (option Node.t)) :
  (length h0 <= length h)%nat →
  own_list (h ++ news) = own_list h ++ seq (length h) (length news).
Proof.
  intros Hle. unfold own_list. rewrite length_app.
  replace (length h + length news - length h0)%nat
    with ((length h - length h0) + length news)%nat by lia.
  rewrite seq_app. do 2 f_equal. lia.
Qed.

(** One turn of the loop: the node [current] is taken off the open list,
    its cell is closed, and at most 8 nodes are created. *)
Lemma counted_step s P current cur c s3 :
  wf s → counted s P →
  current ∈ openList s → heap s !! current = Some (Some cur) →
  set2 (closed s) (Node.x cur) (Node.y cur) true = Some c →
  grown 8 (mkState (grid s) (heap s) c (allNodes s)
                   (pq_remove current (openList s))) s3 →
  counted s3 (current :: P).
Proof.
  intros Hwf Hct Hin Hcur Hc (_ & Hc3 & news & Hlen & Hh3 & Ho3 & Hnews).
  unfold_state.
  pose proof (wf_inv s Hwf) as Hinv.
  pose proof (inv_open _ _ _ _ _ _ Hinv) as Hopen.
  destruct (inv_frame _ _ _ _ _ _ Hinv) as [k Hk].
  assert (length h0 <= length (heap s))%nat as Hbase
    by (rewrite Hk, length_app; lia).
  pose proof Hct as [Hnd Hpop Hond Hsize Hcount].
  (* old nodes keep their cells, and closed cells stay closed *)
  assert (∀ q, (q < length (heap s))%nat → heap s3 !! q = heap s !! q) as Hold.
  { intros q Hq. rewrite Hh3. by apply lookup_app_l. }
  assert (∀ q, (q < length (heap s))%nat → on_closed s q = true →
               on_closed s3 q = true) as Hkeep.
  { intros q Hq. unfold on_closed. rewrite Hold, Hc3 by done.
    destruct (heap s !! q) as [[n|]|]; try done.
    rewrite (get2_set2 _ _ _ _ _ _ _ Hc). by case_decide. }
  assert (on_closed s3 current = true) as Hcurrent.
  { unfold on_closed. rewrite Hold, Hc3, Hcur by (apply Hopen in Hin; apply Hin).
    rewrite (get2_set2 _ _ _ _ _ _ _ Hc). by rewrite decide_True. }
  assert (∀ q, q ∈ seq (length (heap s)) (length news) → on_closed s3 q = false)
    as Hfresh.
  { intros q [Hq1 Hq2]%elem_of_seq. unfold on_closed. rewrite Hh3, Hc3.
    rewrite lookup_app_r by lia. rewrite list_lookup_fmap.
    destruct (news !! (q - length (heap s))%nat) as [n|] eqn:Hn; [|done].
    cbn. eapply Forall_lookup_1 in Hnews; [|done]. by rewrite Hnews. }
  assert (closed_count s3
          = length (filter (λ p, on_closed s3 p = true) (own_list (heap s)))) as Hcc.
  { unfold closed_count. rewrite Hh3, own_list_app, length_fmap by done.
    rewrite filter_app, length_app.
    replace (filter _ (seq (length (heap s)) (length news))) with (@nil nat);
      [cbn; lia|].
    symmetry. apply filter_none. intros q Hq. by rewrite (Hfresh q Hq). }
  split.
  - (* the extracted nodes are distinct *)
    apply NoDup_cons. split; [|done]. intros HP. by apply Hpop in HP as (_ & _ & ?).
  - (* each sits on a closed cell and is off the open list *)
    intros p Hp.
    assert (own h0 (heap s) p ∧ (p = current ∨ p ∈ P)) as [Hown Hcase].
    { apply elem_of_cons in Hp as [->|Hp]; [split; auto|].
      split; [by apply Hpop|auto]. }
    split; [|split].
    + unfold own in *. rewrite Hh3, length_app. lia.
    + destruct Hcase as [->|HP]; [done|].
      apply Hkeep; [apply Hown|]. by apply Hpop.
    + rewrite Ho3, elem_of_app, elem_of_seq. intros [Hrem|Hseq].
      * destruct Hcase as [->|HP]; [by apply pq_remove_not_elem in Hrem|].
        apply pq_remove_elem in Hrem. by apply Hpop in HP as (_ & _ & ?).
      * unfold own in Hown. lia.
  - (* the open list has no duplicates *)
    rewrite Ho3. apply NoDup_app. split; [|split].
    + eapply sublist_NoDup; [done|apply pq_remove_sublist].
    + intros q Hq%pq_remove_elem%Hopen [? ?]%elem_of_seq. unfold own in Hq. lia.
    + apply NoDup_seq.
  - (* at most 8 more nodes *)
    rewrite Hh3, length_app, length_fmap. cbn [length]. lia.
  - (* the nodes on closed cells *)
    rewrite Hcc, Hc3.
    destruct (concat_set2 _ _ _ _ _ Hc) as (? & o & ? & Ho & _).
    destruct o.
    + (* the cell was closed already *)
      apply set2_same in Ho. assert (c = closed s) as -> by congruence.
      replace (length (filter (λ p, on_closed s3 p = true) (own_list (heap s))))
        with (closed_count s); [done|].
      unfold closed_count. f_equal. apply filter_agree.
      intros q [_ Hq]%elem_of_seq. unfold on_closed.
      rewrite Hold, Hc3 by lia. done.
    + (* a new cell is closed *)
      rewrite (true_count_set2 _ _ _ _ Hc Ho). rewrite Nat.pow_succ_r'.
      pose proof (popped_le_closed_count s P Hct).
      assert (length (filter (λ p, on_closed s3 p = true) (own_list (heap s)))
              <= length (heap s) - length h0)%nat.
      { etrans; [apply length_filter|]. unfold own_list. by rewrite length_seq. }
      lia.
Qed.

(** One turn of the loop, with [current] at the top of the open list. *)
Lemma search_loop_step fuel goal s current cur :
  openList s ≠ [] → pq_top (heap s) (openList s) = Some current →
  heap s !! current = Some (Some cur) →
  search_loop (S fuel) goal rows cols s
  = let s1 := mkState (grid s) (heap s) (closed s) (allNodes s)
                      (pq_remove current (openList s)) in
    if (Node.x cur =? fst goal) && (Node.y cur =? snd goal)
    then Ok (Some current, s1)
    else
      match set2 (closed s) (Node.x cur) (Node.y cur) true with
      | Some c =>
          (for_each (seq 0 8) (explore current goal rows cols) ;;;
           search_loop fuel goal rows cols)
            (mkState (grid s) (heap s) c (allNodes s)
                     (pq_remove current (openList s)))
      | None => Undefined
      end.
Proof.
  intros Hq Htop Hcur. cbn [search_loop].
  run_with ltac:(unfold openList_empty; reflexivity).
  destruct (openList s) as [|p0 q] eqn:Hopen; [done|]. rewrite <- Hopen in *.
  run_with ltac:(unfold openList_top; by rewrite Htop).
  run_with ltac:(unfold openList_pop; by rewrite Htop).
  run_with ltac:(unfold deref; unfold_state; by rewrite Hcur).
  cbv zeta. destruct (_ && _); [done|].
  unfold bind at 1. unfold closed_set. unfold_state.
  by destruct (set2 _ _ _ _).
Qed.

(** The loop returns: every turn closes a cell or finds the cell of the
    extracted node closed already, and there are fewer than [9 ^ cells]
    turns. *)
Lemma search_loop_returns goal fuel : ∀ s P,
  wf s → counted s P → (9 ^ cells <= fuel + length P)%nat →
  ∃ r s', search_loop fuel goal rows cols s = Ok (r, s') ∧ wf s'.
Proof.
  induction fuel as [|fuel IH]; intros s P Hwf Hct Hfuel.
  - pose proof (extractions_bounded s P Hwf Hct).
    destruct (openList s) as [|p0 q] eqn:Hopen.
    + exists None, s. split; [|done]. cbn [search_loop].
      run_with ltac:(unfold openList_empty; reflexivity). by rewrite Hopen.
    + lia.
  - destruct (decide (openList s = [])) as [Hopen|Hopen].
    { exists None, s. split; [|done]. cbn [search_loop].
      run_with ltac:(unfold openList_empty; reflexivity). by rewrite Hopen. }
    pose proof Hwf as [Hinv Hcl Hall Hrec].
    pose proof Hinv as [Hg Hf Hlive Hown Hrecd].
    destruct (pq_top_is_Some (heap s) (openList s) Hopen) as [current Htop].
    { apply Forall_forall. intros p Hp%Hown%Hlive. destruct Hp as (n & Hn & _).
      by exists n. }
    pose proof (pq_top_elem _ _ _ Htop) as Hin.
    destruct (Hlive current (Hown _ Hin)) as (cur & Hcur & (Hx & Hy) & _).
    rewrite (search_loop_step fuel goal s current cur Hopen Htop Hcur). cbv zeta.
    assert (inv h0 g0 start rows cols
              (mkState (grid s) (heap s) (closed s) (allNodes s)
                       (pq_remove current (openList s)))) as Hinv1.
    { split; unfold_state; try done. intros p Hp%pq_remove_elem. by apply Hown. }
    destruct (_ && _).
    { eexists _, _. split; [done|]. by split. }
    destruct (matrix_set2_is_Some rows cols (closed s) _ _ true Hcl Hx Hy)
      as [c Hc].
    rewrite Hc.
    set (s2 := mkState (grid s) (heap s) c (allNodes s)
                       (pq_remove current (openList s))).
    assert (wf s2) as Hwf2.
    { split; unfold s2; unfold_state; try done.
      - split; unfold_state; try done. intros p Hp%pq_remove_elem. by apply Hown.
      - by eapply matrix_set2. }
    destruct (for_each_progress current goal (seq 0 8) s2 Hwf2)
      as (s3 & Hrun & Hwf3 & Hg3).
    { by apply Hown. }
    { apply Forall_forall. intros i [_ Hi]%elem_of_seq. lia. }
    rewrite length_seq in Hg3.
    pose proof (counted_step s P current cur c s3 Hwf Hct Hin Hcur Hc Hg3) as Hct3.
    destruct (IH s3 (current :: P) Hwf3 Hct3) as (r & s' & Hrest & Hwf').
    { cbn [length]. lia. }
    exists r, s'. split; [|done].
    eapply bind_run; [exact Hrun|]. exact Hrest.
Qed.

(** The state in which the loop starts. *)
Lemma omap_id_None (l : list (option nat)) :
  Forall (λ o, o = None) l → omap id l = [].
Proof. induction 1 as [|? ? -> _ IH]; [done|]. done. Qed.

Lemma start_state_wf f g h a0 :
  0 <= fst start < rows ∧ 0 <= snd start < cols →
  set2 (replicate (Z.to_nat rows) (replicate (Z.to_nat cols) None))
       (fst start) (snd start) (Some (length h0)) = Some a0 →
  let s := mkState g0 (h0 ++ [Some (Node.mk (fst start) (snd start) f g h None)])
             (replicate (Z.to_nat rows) (replicate (Z.to_nat cols) false))
             a0 ([] ++ [length h0]) in
  wf s ∧ counted s [].
Proof.
  intros Hstart Ha0 s.
  assert (∀ x y, get2 (closed s) x y ≠ Some true) as Hfalse.
  { intros x y (l & Hl & ->%elem_of_replicate_inv)%get2_elem_of_concat%elem_of_concat.
    by apply elem_of_replicate_inv in Hl. }
  split; split; unfold s; unfold_state.
  - by apply inv_initial.
  - apply matrix_replicate.
  - eapply matrix_set2; [done|apply matrix_replicate].
  - destruct (concat_set2 _ _ _ _ _ Ha0) as (l1 & o & l2 & _ & Hc & Hc').
    unfold recorded. rewrite Hc'.
    assert (Forall (λ o : option nat, o = None) (l1 ++ o :: l2)) as Hnone.
    { rewrite <- Hc. apply Forall_forall. intros [p|] Hp; [|done].
      by apply concat_replicate_None in Hp. }
    apply Forall_app in Hnone as [H1 [_ H2]%Forall_cons].
    rewrite omap_app. cbn [omap list_omap id].
    rewrite (omap_id_None l1), (omap_id_None l2) by done.
    apply NoDup_singleton.
  - apply NoDup_nil_2.
  - intros p Hp. by apply elem_of_nil in Hp.
  - apply NoDup_singleton.
  - rewrite length_app. cbn [length]. lia.
  - unfold closed_count. rewrite filter_none.
    + cbn [length]. pose proof (Nat.pow_nonzero 9 (true_count (closed s))). 
      unfold s in *. unfold_state. lia.
    + intros p _. unfold on_closed. fold s.
      destruct (heap s !! p) as [[n|]|]; try done.
      pose proof (Hfalse (Node.x n) (Node.y n)).
      by destruct (get2 _ _ _) as [[]|].
Qed.

(** Following the parents from a node of the run reaches the start node
    within as many steps as the address of the node. *)
Lemma reconstruct_loop_returns (h : list (option Node.t)) :
  (∀ p, own h0 h p → ∃ n, h !! p = Some (Some n) ∧ linked h0 g0 start rows cols h p n) →
  ∀ p fuel acc, own h0 h p → (p < fuel)%nat →
    ∃ path, reconstruct_loop fuel h (Some p) acc = Ok path.
Proof.
  intros Hlive p. induction (lt_wf p) as [p _ IH].
  intros [|fuel] acc Hown Hp; [lia|]. cbn [reconstruct_loop].
  destruct (Hlive p Hown) as (n & -> & _ & Hlink).
  destruct (Node.parent n) as [q|].
  - destruct Hlink as (Hq & _). apply IH; unfold own in *; lia.
  - rewrite reconstruct_loop_None. eauto.
Qed.

(** Deleting the recorded nodes is defined: they are live, and no node is
    recorded for two cells. *)
Lemma delete_all_returns ps : ∀ h : list (option Node.t),
  NoDup (omap id ps) →
  (∀ p, Some p ∈ ps → ∃ n, h !! p = Some (Some n)) →
  is_Some (delete_all h ps).
Proof.
  induction ps as [|[q|] ps IH]; intros h Hnd Hlive; cbn [delete_all].
  - done.
  - cbn [omap list_omap id] in Hnd. apply NoDup_cons in Hnd as [Hq Hnd].
    unfold delete_node. destruct (Hlive q) as [n ->]; [left|].
    apply IH; [done|]. intros p Hp.
    destruct (Hlive p) as [m Hm]; [by right|]. exists m.
    rewrite list_lookup_insert_ne; [done|]. intros ->.
    apply Hq. apply list_elem_of_omap. by exists (Some p).
  - apply IH; [done|]. intros p Hp. apply Hlive. by right.
Qed.

End Progress.

(** *** The whole search *)

(** A bound on the number of extractions from the open list, in the
    dimensions of the grid. *)
Definition extraction_bound (gd : list (list Z)) : nat :=
  (9 ^ (Z.to_nat (grid_rows gd) * Z.to_nat (grid_cols gd)))%nat.

(** No row of the grid is shorter than the first one. *)
Definition rectangular (gd : list (list Z)) : Prop :=
  Forall (λ row, grid_cols gd <= Z.of_nat (length row)) gd.

Lemma wrap_int_le n : 0 <= wrap_int (Z.of_nat n) → wrap_int (Z.of_nat n) <= Z.of_nat n.
Proof.
  unfold wrap_int. intros H.
  pose proof (Z.mod_le (Z.of_nat n + 2147483648) 4294967296
                ltac:(lia) ltac:(lia)). lia.
Qed.

Lemma rectangular_readable gd x y :
  rectangular gd → 0 <= x < grid_rows gd → 0 <= y < grid_cols gd →
  is_Some (get2 gd x y).
Proof.
  intros Hrect Hx Hy. unfold get2.
  pose proof (wrap_int_le (length gd) ltac:(unfold grid_rows in Hx; lia)).
  destruct (vec_get_is_Some gd x) as [row Hrow]; [unfold grid_rows in Hx; lia|].
  rewrite Hrow. apply vec_get_is_Some.
  apply vec_get_Some in Hrow as [_ Hrow%list_elem_of_lookup_2].
  eapply Forall_forall in Hrect; [|done]. cbv beta in Hrect. lia.
Qed.

(** The state in which the loop starts, [a0] being [allNodes] with the
    start node recorded. *)
Definition start_state (gd : list (list Z)) (h0 : list (option Node.t))
    (start goal : Z * Z) (a0 : list (list (option nat))) : search_state :=
  mkState gd
    (h0 ++ [Some (Node.mk (fst start) (snd start) 0%float 0%float
                    (heuristic (fst start) (snd start) (fst goal) (snd goal)) None)])
    (replicate (Z.to_nat (grid_rows gd)) (replicate (Z.to_nat (grid_cols gd)) false))
    a0 ([] ++ [length h0]).

(** On a rectangular grid, from a start inside it, the search returns
    within [extraction_bound] extractions: the loop returns, and the path
    is empty exactly when the loop found no goal node. *)
Lemma aStarSearch_run fuel start goal gd h0 :
  rectangular gd → in_bounds gd start →
  (extraction_bound gd <= fuel)%nat →
  ∃ a0 goalNode s path m',
    set2 (replicate (Z.to_nat (grid_rows gd))
                    (replicate (Z.to_nat (grid_cols gd)) (@None nat)))
         (fst start) (snd start) (Some (length h0)) = Some a0 ∧
    search_loop fuel goal (grid_rows gd) (grid_cols gd)
                (start_state gd h0 start goal a0) = Ok (goalNode, s) ∧
    (goalNode = None ↔ path = []) ∧
    aStarSearch fuel start goal (mkMemory gd h0) = Ok (path, m').
Proof.
  intros Hrect Hstart Hfuel. unfold start_state.
  pose proof (rectangular_readable gd) as Hread.
  pose proof (grid_dims_int gd) as [Hrmax Hcmax].
  unfold extraction_bound in Hfuel. unfold in_bounds in Hstart.
  unfold aStarSearch. cbn [mem_grid mem_heap].
  destruct gd as [|row0 gd']; [unfold grid_cols in Hstart; lia|].
  set (gd := row0 :: gd') in *.
  change (wrap_int (Z.of_nat (length gd))) with (grid_rows gd).
  change (wrap_int (Z.of_nat (length row0))) with (grid_cols gd).
  set (rows := grid_rows gd) in *. set (cols := grid_cols gd) in *.
  destruct (Z.ltb_spec rows 0); [lia|]. destruct (Z.ltb_spec cols 0); [lia|].
  cbn [orb].
  set (n0 := Node.mk (fst start) (snd start) 0%float 0%float
               (heuristic (fst start) (snd start) (fst goal) (snd goal)) None).
  destruct (matrix_set2_is_Some rows cols
              (replicate (Z.to_nat rows) (replicate (Z.to_nat cols) (@None nat)))
              (fst start) (snd start) (Some (length h0)))
    as [a0 Ha0]; [apply matrix_replicate|lia|lia|].
  destruct (start_state_wf h0 gd start rows cols 0%float 0%float
              (heuristic (fst start) (snd start) (fst goal) (snd goal)) a0
              Hstart Ha0) as [Hwf0 Hct0].
  destruct (search_loop_returns h0 gd start rows cols Hrmax Hcmax
              (λ x y, Hread x y Hrect) goal fuel _ [] Hwf0 Hct0)
    as (goalNode & s & Hloop & Hwf); [cbn [length]; unfold cells; lia|].
  pose proof (inv_search_loop h0 gd start rows cols Hrmax Hcmax
                fuel goal _ _ _ (wf_inv _ _ _ _ _ _ Hwf0) Hloop) as [Hinv Hgoal].
  assert (∃ path, match goalNode with
                  | Some gp => reconstructPath (length (heap s)) (heap s) gp
                  | None => Ok []
                  end = Ok path ∧ (goalNode = None ↔ path = []))
    as (path & Hpath & Hnone).
  { destruct goalNode as [gp|]; [|by exists []].
    destruct Hgoal as (Hown & n & Hn & _).
    destruct (reconstruct_loop_returns h0 gd start rows cols (heap s)
                (inv_live _ _ _ _ _ _ Hinv) gp (length (heap s)) [] Hown)
      as [l Hl]; [unfold own in Hown; lia|].
    exists (reverse l). unfold reconstructPath. rewrite Hl. split; [done|].
    assert (reconstructPath (length (heap s)) (heap s) gp = Ok (reverse l)) as Hp
      by (unfold reconstructPath; by rewrite Hl).
    eapply reconstructPath_chain in Hp as (Hhd & _); [|apply Hinv|done..].
    split; [done|]. intros Hnil. by rewrite Hnil in Hhd. }
  destruct (delete_all_returns (concat (allNodes s)) (heap s)) as [h' Hdel].
  { apply (wf_recorded _ _ _ _ _ _ Hwf). }
  { intros p Hp%(inv_all _ _ _ _ _ _ Hinv)%(inv_live _ _ _ _ _ _ Hinv).
    destruct Hp as (n & Hn & _). eauto. }
  exists a0, goalNode, s, path, (mkMemory (grid s) h').
  split; [done|]. split; [done|]. split; [done|].
  match goal with |- match ?run ?s0 with _ => _ end = _ =>
    assert (run s0 = Ok (path, mkState (grid s) h' (closed s) (allNodes s) (openList s)))
      as -> end; [|done].
  run_with ltac:(unfold new_node; reflexivity).
  run_with ltac:(unfold openList_push; reflexivity).
  run_with ltac:(unfold allNodes_set; unfold_state; by rewrite Ha0).
  unfold_state. eapply bind_run; [exact Hloop|]. cbv beta.
  run_with ltac:(unfold get_state; reflexivity).
  eapply bind_run.
  { destruct goalNode as [gp|]; [by rewrite Hpath|].
    unfold ret. by injection Hpath as <-. }
  cbv beta. run_with ltac:(unfold defined; by rewrite Hdel).
  done.
Qed.

Lemma aStarSearch_returns fuel start goal m :
  rectangular (mem_grid m) → in_bounds (mem_grid m) start →
  (extraction_bound (mem_grid m) <= fuel)%nat →
  ∃ path m', aStarSearch fuel start goal m = Ok (path, m').
Proof.
  destruct m as [gd h0]. cbn [mem_grid]. intros Hrect Hstart Hfuel.
  destruct (aStarSearch_run fuel start goal gd h0 Hrect Hstart Hfuel)
    as (_ & _ & _ & path & m' & _ & _ & _ & Hrun).
  eauto.
Qed.

(** *** A start outside the grid *)

Lemma bind_Undefined {A B} (m : M A) (k : A → M B) s :
  m s = Undefined → bind m k s = Undefined.
Proof. unfold bind. by intros ->. Qed.

(** Recording the start node for a cell outside the grid is an
    out-of-range write, whatever the fuel. *)
Lemma aStarSearch_start_outside fuel start goal m :
  ¬ in_bounds (mem_grid m) start → aStarSearch fuel start goal m = Undefined.
Proof.
  destruct m as [gd h0]. unfold aStarSearch, in_bounds, grid_rows, grid_cols.
  cbn [mem_grid mem_heap]. intros Hout.
  destruct gd as [|row0 gd']; [done|].
  set (rows := wrap_int (Z.of_nat (length (row0 :: gd')))) in *.
  set (cols := wrap_int (Z.of_nat (length row0))) in *.
  destruct ((rows <? 0) || (cols <? 0)) eqn:Hneg; [done|].
  match goal with |- match ?run ?s0 with _ => _ end = _ =>
    assert (run s0 = Undefined) as -> end; [|done].
  run_with ltac:(unfold new_node; reflexivity).
  run_with ltac:(unfold openList_push; reflexivity).
  apply bind_Undefined. unfold allNodes_set. unfold_state.
  destruct (set2 _ _ _ _) as [a0|] eqn:Ha0; [|done]. exfalso. apply Hout.
  apply set2_Some in Ha0 as (row & Hrow & Hj & _).
  pose proof (vec_get_lt _ _ _ Hrow) as Hi.
  apply vec_get_Some in Hrow as [_ [-> _]%lookup_replicate_1].
  rewrite !length_replicate in *. lia.
Qed.

(** ** The search finds a path that exists *)

Lemma isValid_false x y rows cols s s' :
  isValid x y rows cols s = Ok (false, s') →
  ¬ ((0 <= x < rows ∧ 0 <= y < cols) ∧ get2 (grid s) x y = Some 0).
Proof.
  unfold isValid.
  destruct ((0 <=? x) && (x <? rows) && (0 <=? y) && (y <? cols)) eqn:E.
  - destruct (get2 (grid s) x y) as [v|]; [|done].
    intros [= Hv _] [_ [= ->]]. done.
  - intros _ [Hb _].
    destruct (Z.leb_spec 0 x), (Z.ltb_spec x rows), (Z.leb_spec 0 y),
      (Z.ltb_spec y cols); cbn in E; try done; lia.
Qed.

(** What [explore] does for direction [i], with the reason when it
    creates no node. *)
Lemma explore_cases current goal rows cols i s u s' :
  explore current goal rows cols i s = Ok (u, s') →
  ∃ cur, heap s !! current = Some (Some cur) ∧
    let nx := wrap_int (Node.x cur + nth i dx 0) in
    let ny := wrap_int (Node.y cur + nth i dy 0) in
    (s' = s ∧
     (¬ ((0 <= nx < rows ∧ 0 <= ny < cols) ∧ get2 (grid s) nx ny = Some 0) ∨
      get2 (closed s) nx ny = Some true ∨
      ∃ q, get2 (allNodes s) nx ny = Some (Some q))) ∨
    (∃ n a, Node.x n = nx ∧ Node.y n = ny ∧
            set2 (allNodes s) nx ny (Some (length (heap s))) = Some a ∧
            s' = created s n a).
Proof.
  unfold explore. intros H.
  apply bind_Ok in H as (cur & s1 & [Hcur ->]%deref_Ok & H).
  exists cur. split; [done|]. cbv zeta.
  apply bind_Ok in H as (valid & s1 & Hv & H).
  pose proof (isValid_Ok _ _ _ _ _ _ _ Hv) as [-> _].
  destruct valid; cbn [negb] in H.
  2: { apply ret_Ok in H as [_ ->]. apply isValid_false in Hv. left. auto. }
  apply bind_Ok in H as (c & s1 & [Hc ->]%closed_get_Ok & H).
  destruct c; [apply ret_Ok in H as [_ ->]; left; auto|].
  apply bind_Ok in H as (rec & s1 & [Hrec ->]%allNodes_get_Ok & H).
  apply bind_Ok in H as (better & s1 & Hbetter & H).
  assert (s1 = s ∧ (better = false → ∃ q, rec = Some q)) as [-> Hq].
  { destruct rec as [q|].
    - apply bind_Ok in Hbetter as (old & s2 & [_ ->]%deref_Ok & [_ ->]%ret_Ok).
      eauto.
    - apply ret_Ok in Hbetter as [-> ->]. done. }
  destruct better.
  - right.
    apply bind_Ok in H as (p & s1 & [-> ->]%new_node_Ok & H).
    apply bind_Ok in H as (? & s1 & ->%openList_push_Ok & H).
    apply allNodes_set_Ok in H as (a & Ha & ->).
    unfold_state. eexists (Node.mk _ _ _ _ _ _), a.
    cbn [Node.x Node.y]. done.
  - apply ret_Ok in H as [_ ->]. left. split; [done|].
    destruct Hq as [q ->]; [done|]. eauto.
Qed.

Lemma pq_remove_other p q p' : p' ∈ q → p' ≠ p → p' ∈ pq_remove p q.
Proof.
  intros Hin Hne. induction q as [|p0 rest IH]; [done|]. cbn [pq_remove].
  destruct (Nat.eqb_spec p p0) as [->|Hp].
  - apply elem_of_cons in Hin as [->|?]; done.
  - apply elem_of_cons in Hin as [->|?]; [left|right; auto].
Qed.

Lemma offset_direction ox oy :
  (ox, oy) ∈ offsets → ∃ i, (i < 8)%nat ∧ nth i dx 0 = ox ∧ nth i dy 0 = oy.
Proof.
  unfold offsets, dx, dy. cbn [zip zip_with].
  rewrite !elem_of_cons, elem_of_nil. intros H.
  repeat destruct H as [H|H]; try done; injection H as -> ->.
  - exists 0%nat. split; [lia|done].
  - exists 1%nat. split; [lia|done].
  - exists 2%nat. split; [lia|done].
  - exists 3%nat. split; [lia|done].
  - exists 4%nat. split; [lia|done].
  - exists 5%nat. split; [lia|done].
  - exists 6%nat. split; [lia|done].
  - exists 7%nat. split; [lia|done].
Qed.

(** A turn of the loop that returns extracted the top of the open list. *)
Lemma search_loop_turn fuel goal rows cols s r s' :
  search_loop (S fuel) goal rows cols s = Ok (r, s') → openList s ≠ [] →
  ∃ current cur,
    pq_top (heap s) (openList s) = Some current ∧
    heap s !! current = Some (Some cur).
Proof.
  cbn [search_loop]. intros (empty & s1 & [= <- <-] & H)%bind_Ok Hne.
  destruct (openList s) as [|p0 q0] eqn:Hq; [done|]. rewrite <- Hq in *.
  apply bind_Ok in H as (current & s1 & Htop & H).
  unfold openList_top in Htop.
  destruct (pq_top (heap s) (openList s)) as [p|] eqn:Hp; [|done].
  injection Htop as -> <-.
  apply bind_Ok in H as (? & s1 & Hpop & H).
  unfold openList_pop in Hpop. rewrite Hp in Hpop. injection Hpop as _ <-.
  apply bind_Ok in H as (cur & s2 & [Hnode ->]%deref_Ok & H).
  unfold_state. eauto.
Qed.

Section Complete.
Variables (h0 : list (option Node.t)) (g0 : list (list Z)) (start goal : Z * Z)
          (rows cols : Z).
Hypothesis rows_int : rows <= INT_MAX.
Hypothesis cols_int : cols <= INT_MAX.

(** A cell is settled when it is closed or a node on it waits on the open
    list. *)
Definition is_closed (s : search_state) (x y : Z) : Prop :=
  get2 (closed s) x y = Some true.

Definition waiting (s : search_state) (x y : Z) : Prop :=
  ∃ p n, p ∈ openList s ∧ heap s !! p = Some (Some n) ∧
         Node.x n = x ∧ Node.y n = y.

Definition settled (s : search_state) (x y : Z) : Prop :=
  is_closed s x y ∨ waiting s x y.

(** The closed cells and the open list form a front around the start: the
    free neighbours of a closed cell are settled, except, while the cell
    [(cx, cy)] is being expanded, those in the directions [pend] still to
    be explored; a cell with a recorded node is settled; the goal is not
    closed. *)
Record front (pend : list nat) (cx cy : Z) (s : search_state) : Prop := mkFront {
  fr_start : settled s (fst start) (snd start);
  fr_step : ∀ x y i,
    is_closed s x y → (i < 8)%nat → (x = cx ∧ y = cy → i ∉ pend) →
    passable g0 rows cols (x + nth i dx 0, y + nth i dy 0) →
    settled s (x + nth i dx 0) (y + nth i dy 0);
  fr_rec : ∀ x y q, get2 (allNodes s) x y = Some (Some q) → settled s x y;
  fr_goal : ¬ is_closed s (fst goal) (snd goal)
}.

Lemma front_nil cx cy cx' cy' s : front [] cx cy s → front [] cx' cy' s.
Proof.
  intros [H1 H2 H3 H4]. split; try done.
  intros x y i Hc Hi _. apply H2; try done. intros _. apply not_elem_of_nil.
Qed.

Lemma settled_created s n a x y :
  settled s x y → settled (created s n a) x y.
Proof.
  intros [Hc|(p & m & Hp & Hm & Hxy)]; [by left|right].
  exists p, m. unfold created. unfold_state.
  split; [apply elem_of_app; by left|]. split; [|done].
  by apply lookup_app_l_Some.
Qed.

Lemma waiting_created s n a :
  waiting (created s n a) (Node.x n) (Node.y n).
Proof.
  exists (length (heap s)), n. unfold created. unfold_state.
  split; [apply elem_of_app; right; by left|].
  split; [by rewrite list_lookup_middle|done].
Qed.

(** The neighbour in direction [i] of a cell inside the grid is computed
    without overflow. *)
Lemma neighbour_no_wrap x y i :
  0 <= x < rows → 0 <= y < cols → (i < 8)%nat →
  wrap_int (x + nth i dx 0) = x + nth i dx 0 ∧
  wrap_int (y + nth i dy 0) = y + nth i dy 0.
Proof.
  intros Hx Hy Hi.
  pose proof (direction_offset i Hi) as Hoff%offset_unit.
  unfold INT_MAX in *.
  split; apply wrap_int_id; unfold in_int, INT_MAX; lia.
Qed.

Lemma front_explore current cur i pend s u s' :
  inv h0 g0 start rows cols s → own h0 (heap s) current →
  heap s !! current = Some (Some cur) → (i < 8)%nat →
  front (i :: pend) (Node.x cur) (Node.y cur) s →
  explore current goal rows cols i s = Ok (u, s') →
  front pend (Node.x cur) (Node.y cur) s'.
Proof.
  intros Hinv Hown Hcur Hi [Hst Hstep Hrec Hgoal] (cur' & Hcur' & Hcases)%explore_cases.
  assert (cur' = cur) as -> by congruence. cbv zeta in Hcases.
  destruct (inv_live _ _ _ _ _ _ Hinv current Hown) as (cur' & Hc' & (Hx & Hy) & _).
  assert (cur' = cur) as -> by congruence.
  destruct (neighbour_no_wrap _ _ i Hx Hy Hi) as [Hwx Hwy].
  rewrite Hwx, Hwy in Hcases.
  destruct Hcases as [[-> Hwhy]|(n & a & Hnx & Hny & Ha & ->)].
  - (* no node is created *)
    split; try done. intros x y j Hc Hj Hpend Hpass.
    destruct (decide (x = Node.x cur ∧ y = Node.y cur ∧ j = i)) as [(-> & -> & ->)|Hne].
    + destruct Hwhy as [Hinvalid|[Hclosed|[q Hq]]].
      * destruct Hinvalid. by rewrite (inv_grid _ _ _ _ _ _ Hinv).
      * by left.
      * by eapply Hrec.
    + apply Hstep; try done. intros [-> ->]. rewrite elem_of_cons.
      intros [->|Hin]; [tauto|]. by apply Hpend.
  - (* a node is created for the neighbour *)
    split.
    + by apply settled_created.
    + intros x y j Hc Hj Hpend Hpass.
      destruct (decide (x = Node.x cur ∧ y = Node.y cur ∧ j = i)) as [(-> & -> & ->)|Hne].
      * right. rewrite <- Hnx, <- Hny. apply waiting_created.
      * apply settled_created. apply Hstep; try done.
        intros [-> ->]. rewrite elem_of_cons.
        intros [->|Hin]; [tauto|]. by apply Hpend.
    + intros x y q. unfold created at 1. unfold_state.
      rewrite (get2_set2 _ _ _ _ _ _ _ Ha).
      destruct (decide _) as [[-> ->]|_].
      * intros _. right. rewrite <- Hnx, <- Hny. apply waiting_created.
      * intros Hq. apply settled_created. by eapply Hrec.
    + done.
Qed.

Lemma front_for_each current cur idx : ∀ pend s u s',
  inv h0 g0 start rows cols s → own h0 (heap s) current →
  heap s !! current = Some (Some cur) → Forall (λ i, (i < 8)%nat) idx →
  front (idx ++ pend) (Node.x cur) (Node.y cur) s →
  for_each idx (explore current goal rows cols) s = Ok (u, s') →
  front pend (Node.x cur) (Node.y cur) s'.
Proof.
  induction idx as [|i idx IH]; intros pend s u s' Hinv Hown Hcur Hidx Hfr;
    cbn [for_each].
  - by intros [_ ->]%ret_Ok.
  - intros (? & s1 & Hex & Hrest)%bind_Ok.
    apply Forall_cons in Hidx as [Hi Hidx].
    pose proof (front_explore current cur i (idx ++ pend) s _ s1
                  Hinv Hown Hcur Hi Hfr Hex) as Hfr1.
    pose proof Hex as (cur' & Hcur' & Hcases)%explore_Ok.
    eapply inv_explore in Hex as [Hinv1 Hown1]; [|done..].
    eapply (IH pend s1); try done.
    destruct Hcases as [->|(n & a & _ & _ & _ & _ & _ & _ & _ & ->)]; [done|].
    unfold created. unfold_state. by apply lookup_app_l_Some.
Qed.

(** Extracting [current] and closing its cell keeps every cell settled. *)
Lemma settled_closed s current cur c x y :
  current ∈ openList s → heap s !! current = Some (Some cur) →
  set2 (closed s) (Node.x cur) (Node.y cur) true = Some c →
  settled s x y →
  settled (mkState (grid s) (heap s) c (allNodes s)
                   (pq_remove current (openList s))) x y.
Proof.
  intros Hin Hcur Hc [Hcl|(p & n & Hp & Hn & Hx & Hy)].
  - left. unfold is_closed in *. unfold_state.
    rewrite (get2_set2 _ _ _ _ _ _ _ Hc). by case_decide.
  - destruct (decide (p = current)) as [->|Hne].
    + left. unfold is_closed. unfold_state.
      assert (n = cur) as -> by congruence.
      rewrite (get2_set2 _ _ _ _ _ _ _ Hc). by rewrite decide_True.
    + right. exists p, n. unfold_state. split; [by apply pq_remove_other|done].
Qed.

(** When the loop ends without a goal node the open list is empty, around
    a front. *)
Lemma front_search_loop fuel : ∀ s s',
  inv h0 g0 start rows cols s → front [] 0 0 s →
  search_loop fuel goal rows cols s = Ok (None, s') →
  front [] 0 0 s' ∧ openList s' = [].
Proof.
  induction fuel as [|fuel IH]; intros s s' Hinv Hfr Hrun.
  - cbn [search_loop] in Hrun.
    apply bind_Ok in Hrun as (empty & s1 & [= <- <-] & H).
    destruct (openList s) eqn:Hq; [|done]. by apply ret_Ok in H as [_ ->].
  - destruct (decide (openList s = [])) as [Hq|Hq].
    { cbn [search_loop] in Hrun.
      apply bind_Ok in Hrun as (empty & s1 & [= <- <-] & H).
      rewrite Hq in H. by apply ret_Ok in H as [_ ->]. }
    destruct (search_loop_turn _ _ _ _ _ _ _ Hrun Hq) as (current & cur & Htop & Hcur).
    rewrite (search_loop_step rows cols fuel goal s current cur Hq Htop Hcur) in Hrun.
    cbv zeta in Hrun.
    destruct ((Node.x cur =? fst goal) && (Node.y cur =? snd goal)) eqn:Hgoal; [done|].
    destruct (set2 (closed s) (Node.x cur) (Node.y cur) true) as [c|] eqn:Hc; [|done].
    apply bind_Ok in Hrun as (u & s3 & Hfor & Hrun).
    pose proof (pq_top_elem _ _ _ Htop) as Hin.
    pose proof (inv_open _ _ _ _ _ _ Hinv _ Hin) as Hown.
    set (s2 := mkState (grid s) (heap s) c (allNodes s)
                       (pq_remove current (openList s))) in *.
    assert (inv h0 g0 start rows cols s2) as Hinv2.
    { destruct Hinv. split; unfold s2; unfold_state; try done.
      intros p Hp%pq_remove_elem. auto. }
    assert (Forall (λ i, (i < 8)%nat) (seq 0 8)) as Hidx.
    { apply Forall_forall. intros i [_ Hi]%elem_of_seq. lia. }
    assert (front (seq 0 8 ++ []) (Node.x cur) (Node.y cur) s2) as Hfr2.
    { destruct Hfr as [Hst Hstep Hrec Hng]. split.
      - by apply (settled_closed s current cur).
      - intros x y i Hcl Hi Hpend Hpass.
        assert (¬ (x = Node.x cur ∧ y = Node.y cur)) as Hne.
        { intros Heq. apply (Hpend Heq). rewrite app_nil_r. apply elem_of_seq. lia. }
        apply (settled_closed s current cur); try done. apply Hstep; try done.
        + unfold is_closed, s2 in *. unfold_state.
          rewrite (get2_set2 _ _ _ _ _ _ _ Hc) in Hcl. by rewrite decide_False in Hcl.
        + intros _. apply not_elem_of_nil.
      - intros x y q Hq'. apply (settled_closed s current cur); try done.
        by eapply Hrec.
      - unfold is_closed, s2 in *. unfold_state.
        rewrite (get2_set2 _ _ _ _ _ _ _ Hc). rewrite decide_False; [done|].
        intros [Hx Hy]. rewrite Hx, Hy, !Z.eqb_refl in Hgoal. done. }
    eapply (front_for_each current cur (seq 0 8) [] s2) in Hfr2; try done.
    apply (IH s3); [|by eapply front_nil|done].
    by eapply (inv_for_each h0 g0 start rows cols rows_int cols_int current goal
                 (seq 0 8) s2).
Qed.

(** With the open list empty, the cells of a path of free cells from a
    closed cell are closed. *)
Lemma front_closed_path s : front [] 0 0 s → openList s = [] →
  ∀ l a, head l = Some a → is_closed s (fst a) (snd a) → stepwise l →
         Forall (passable g0 rows cols) (tail l) →
         Forall (λ c, is_closed s (fst c) (snd c)) l.
Proof.
  intros [Hst Hstep Hrec Hng] Hempty.
  induction l as [|c l IH]; intros a Hhd Ha Hsw Hfree; [done|].
  injection Hhd as ->. apply Forall_cons. split; [done|].
  destruct l as [|b l]; [done|]. cbn [tail] in Hfree.
  apply (IH b); [done| |intros i x y Hx Hy; by apply (Hsw (S i))|].
  - assert (unit_step a b) as Hab by (by apply (Hsw 0%nat)).
    destruct (offset_direction _ _ Hab) as (i & Hi & Hdx & Hdy).
    apply Forall_cons in Hfree as [Hb _].
    assert (b = (fst a + nth i dx 0, snd a + nth i dy 0)) as Hb'.
    { destruct b. cbn [fst snd] in *. f_equal; lia. }
    rewrite Hb' in Hb.
    destruct (Hstep (fst a) (snd a) i Ha Hi) as [Hcl|(p & _ & Hp & _)].
    + intros _. apply not_elem_of_nil.
    + done.
    + rewrite Hb'. done.
    + rewrite Hempty in Hp. by apply elem_of_nil in Hp.
  - destruct l; [done|]. cbn [tail]. by apply Forall_cons in Hfree as [_ ?].
Qed.

(** The state in which the loop starts has a front: the start node. *)
Lemma front_initial f g h r c a0 :
  set2 (replicate r (replicate c None)) (fst start) (snd start)
       (Some (length h0)) = Some a0 →
  front [] 0 0
    (mkState g0 (h0 ++ [Some (Node.mk (fst start) (snd start) f g h None)])
             (replicate r (replicate c false)) a0 ([] ++ [length h0])).
Proof.
  intros Ha0.
  set (s := mkState _ _ _ _ _).
  assert (∀ x y, ¬ is_closed s x y) as Hfalse.
  { intros x y (l & Hl & ->%elem_of_replicate_inv)%get2_elem_of_concat%elem_of_concat.
    by apply elem_of_replicate_inv in Hl. }
  assert (waiting s (fst start) (snd start)) as Hw.
  { eexists (length h0), _. unfold s. unfold_state.
    split; [by left|]. split; [by rewrite list_lookup_middle|done]. }
  split.
  - by right.
  - intros x y i Hc. by destruct (Hfalse x y).
  - intros x y q. unfold s. unfold_state. rewrite (get2_set2 _ _ _ _ _ _ _ Ha0).
    destruct (decide _) as [[-> ->]|_]; [by right|].
    intros Hq%get2_elem_of_concat. by apply concat_replicate_None in Hq.
  - apply Hfalse.
Qed.

End Complete.

(** A path of free cells from the start to the goal: consecutive cells one
    unit step apart, every cell after the first free. *)
Definition free_path (gd : list (list Z)) (start goal : Z * Z) (l : list (Z * Z)) : Prop :=
  head l = Some start ∧ last l = Some goal ∧ stepwise l ∧
  Forall (free_cell gd) (tail l).

(** Where a path of free cells leads from the start to the goal, the
    search returns a path. *)
Lemma aStarSearch_complete fuel start goal gd h0 l :
  rectangular gd → in_bounds gd start →
  (extraction_bound gd <= fuel)%nat →
  free_path gd start goal l →
  ∃ path m', aStarSearch fuel start goal (mkMemory gd h0) = Ok (path, m') ∧
             path ≠ [].
Proof.
  intros Hrect Hstart Hfuel (Hhd & Hlast & Hsw & Hfree).
  destruct (aStarSearch_run fuel start goal gd h0 Hrect Hstart Hfuel)
    as (a0 & goalNode & s & path & m' & Ha0 & Hloop & Hnone & Hrun).
  exists path, m'. split; [done|]. intros Hnil. apply Hnone in Hnil as ->.
  pose proof (grid_dims_int gd) as [Hrmax Hcmax].
  apply (front_search_loop h0 gd start goal _ _ Hrmax Hcmax) in Hloop
    as [Hfr Hempty].
  - pose proof Hfr as [Hst _ _ Hng].
    assert (is_closed s (fst start) (snd start)) as Hcl.
    { destruct Hst as [?|(p & _ & Hp & _)]; [done|].
      rewrite Hempty in Hp. by apply elem_of_nil in Hp. }
    pose proof (front_closed_path gd start goal _ _ s Hfr Hempty l start
                  Hhd Hcl Hsw Hfree) as Hall.
    apply last_Some_elem_of in Hlast.
    eapply Forall_forall in Hall; [|done]. done.
  - by apply inv_initial.
  - by apply front_initial.
Qed.

(** * The properties of the search *)

Lemma returned_path_bounds_start_goal fuel start goal m path m' :
  aStarSearch fuel start goal m = Ok (path, m') →
  path ≠ [] →
  head path = Some start ∧ last path = Some goal ∧ stepwise path.
Proof.
  intros (s & goalNode & h' & Hinv & _ & Hgoal & _)%aStarSearch_Ok Hne.
  destruct goalNode as [p|]; [|congruence].
  destruct Hgoal as (Hown & n & Hn & <- & Hpath).
  eapply reconstructPath_chain; [|done..].
  apply (inv_live _ _ _ _ _ _ Hinv).
Qed.

(** C2. If the search returns a non-empty path, the path begins at
    [start], ends at [goal], and each coordinate is followed by one that
    differs from it by one of the 8 unit offsets. *)
Theorem returned_path_links_start_to_goal fuel start goal m path m' :
  aStarSearch fuel start goal m = Ok (path, m') →
  path ≠ [] →
  head path = Some start ∧ last path = Some goal ∧
  ∀ (i : nat) (a b : Z * Z),
    path !! i = Some a → path !! S i = Some b →
    (fst b - fst a, snd b - snd a) ∈ offsets.
Proof. apply returned_path_bounds_start_goal. Qed.

Lemma returned_path_links_start_to_goal_witness :
  head [(0, 0); (1, 1); (2, 2)] = Some (0, 0) ∧
  last [(0, 0); (1, 1); (2, 2)] = Some (2, 2) ∧
  ∀ (i : nat) (a b : Z * Z),
    [(0, 0); (1, 1); (2, 2)] !! i = Some a →
    [(0, 0); (1, 1); (2, 2)] !! S i = Some b →
    (fst b - fst a, snd b - snd a) ∈ offsets.
Proof.
  eapply (returned_path_links_start_to_goal 10 (0, 0) (2, 2) (mkMemory maze_free [])).
  - vm_compute. reflexivity.
  - discriminate.
Defined.

(** C6. On every grid, for a valid free coordinate [c], the search from
    [c] to [c] returns the path [[c]], of length 1, at the first
    extraction from the open list: one unit of fuel is one extraction,
    the search cannot end without one, and one is enough. *)
Theorem start_equal_goal_returns_singleton c m :
  free_cell (mem_grid m) c →
  aStarSearch 0 c c m = OutOfFuel ∧
  ∀ fuel, aStarSearch (S fuel) c c m
          = Ok ([c], mkMemory (mem_grid m) (mem_heap m ++ [None])).
Proof.
  intros [Hb _]. split; [by apply aStarSearch_no_fuel|].
  intros fuel. by apply aStarSearch_start_is_goal.
Qed.

Lemma start_equal_goal_returns_singleton_witness :
  aStarSearch 0 (1, 0) (1, 0) (mkMemory maze_goal_blocked []) = OutOfFuel ∧
  ∀ fuel, aStarSearch (S fuel) (1, 0) (1, 0) (mkMemory maze_goal_blocked [])
          = Ok ([(1, 0)], mkMemory maze_goal_blocked [None]).
Proof.
  apply (start_equal_goal_returns_singleton (1, 0) (mkMemory maze_goal_blocked [])).
  split; [|reflexivity]. unfold in_bounds. vm_compute. intuition discriminate.
Defined.

(** X16. A search that returns has left what the caller had as it was:
    the grid is the same, and so is every slot of the store that existed
    before the call. The run reads no slot of the store it is given:
    started on an empty store it returns the same path. (Of the slots
    the run itself allocates nothing is said here.) *)
Theorem search_leaves_memory_unchanged fuel start goal m path m' :
  aStarSearch fuel start goal m = Ok (path, m') →
  mem_grid m' = mem_grid m ∧
  (∀ p, (p < length (mem_heap m))%nat → mem_heap m' !! p = mem_heap m !! p) ∧
  ∃ h, aStarSearch fuel start goal (mkMemory (mem_grid m) [])
       = Ok (path, mkMemory (mem_grid m) h).
Proof.
  intros Hrun. split; [|split].
  - apply aStarSearch_Ok in Hrun as (s & goalNode & h' & Hinv & _ & _ & _ & ->).
    apply (inv_grid _ _ _ _ _ _ Hinv).
  - apply aStarSearch_Ok in Hrun as (s & goalNode & h' & Hinv & _ & _ & Hdel & ->).
    destruct Hinv as [_ [k Hk] _ _ Hall]. cbn [mem_heap]. intros p Hp.
    eapply delete_all_frame in Hdel as [_ Hfr].
    + rewrite Hfr by done. rewrite Hk. by apply lookup_app_l.
    + intros q Hq. by apply Hall in Hq as [? _].
  - destruct m as [gd h0]. apply aStarSearch_rebase in Hrun as (h & Hrun & _).
    by exists h.
Qed.

Lemma search_leaves_memory_unchanged_witness :
  maze_free = maze_free ∧
  (∀ p, (p < 2)%nat → (old_store ++ replicate 9 None) !! p = old_store !! p) ∧
  ∃ h, aStarSearch 10 (0, 0) (2, 2) (mkMemory maze_free [])
       = Ok ([(0, 0); (1, 1); (2, 2)], mkMemory maze_free h).
Proof.
  apply (search_leaves_memory_unchanged 10 (0, 0) (2, 2)
           (mkMemory maze_free old_store) [(0, 0); (1, 1); (2, 2)]
           (mkMemory maze_free (old_store ++ replicate 9 None))).
  vm_compute. reflexivity.
Defined.

(** C10. The start cell is never validated: on every grid and for every
    cell [start] of it that is blocked, the search from [start] to
    [start] returns the path [[start]]. Only the neighbours met during
    expansion go through [isValid]. *)
Theorem blocked_start_equal_goal_returns_singleton fuel start m :
  in_bounds (mem_grid m) start →
  blocked (mem_grid m) start →
  aStarSearch (S fuel) start start m
  = Ok ([start], mkMemory (mem_grid m) (mem_heap m ++ [None])).
Proof. intros Hb _. by apply aStarSearch_start_is_goal. Qed.

Lemma blocked_start_equal_goal_returns_singleton_witness :
  aStarSearch 1 (1, 1) (1, 1) (mkMemory maze_goal_blocked [])
  = Ok ([(1, 1)], mkMemory maze_goal_blocked [None]).
Proof.
  apply (blocked_start_equal_goal_returns_singleton 0 (1, 1)
           (mkMemory maze_goal_blocked [])).
  - unfold in_bounds. vm_compute. intuition discriminate.
  - exists 1. split; [reflexivity|discriminate].
Defined.

(** C7, as the specification states it, fails: with the start cell
    blocked the search runs and returns a path, and with the goal cell
    blocked it runs to the end of the open list and returns the empty
    path; neither is rejected before the search. *)
Lemma invalid_input_is_searched :
  (blocked maze_start_blocked (0, 0) ∧
   aStarSearch 2 (0, 0) (1, 1) (mkMemory maze_start_blocked [])
   = Ok ([(0, 0); (1, 1)], mkMemory maze_start_blocked [None; None; None; None]))
  ∧
  (blocked maze_goal_blocked (1, 1) ∧
   aStarSearch 3 (0, 0) (1, 1) (mkMemory maze_goal_blocked [])
   = Ok ([], mkMemory maze_goal_blocked [None; None; None])).
Proof.
  split; (split; [exists 1; split; [reflexivity|discriminate]|vm_compute; reflexivity]).
Qed.

(** The path of a search that returns is empty when the goal is not a
    free cell of the grid and is not the start: the goal node would have
    been created by [explore], on a cell that [isValid] accepts. *)
Lemma unreachable_goal_path_empty fuel start goal m path m' :
  aStarSearch fuel start goal m = Ok (path, m') →
  goal ≠ start →
  ¬ free_cell (mem_grid m) goal →
  path = [].
Proof.
  intros (s & goalNode & h' & Hinv & Hstart & Hgoal & _)%aStarSearch_Ok Hne Hnf.
  destruct goalNode as [p|]; [|done].
  destruct Hgoal as (Hown & n & Hn & <- & _).
  destruct (inv_live _ _ _ _ _ _ Hinv p Hown) as (n' & Hn' & Hb & Hlink).
  assert (n' = n) as -> by congruence.
  destruct (Node.parent n); [|done].
  destruct Hlink as (_ & Hfree & _). by destruct Hnf.
Qed.

(** C7, amended. Nothing is validated and no error is reported; the
    search is run on the start and goal it is given.
    - With the start outside the grid, recording the start node is an
      out-of-range write: the behaviour is undefined.
    - The outcome does not depend on the value of the start cell: the
      search on a grid that differs in the start cell only (blocked
      instead of free, say) has the same outcome and returns the same
      path. (The cell is read by [isValid] when a neighbour of the start
      is expanded, but it is closed by then, so the neighbour is skipped
      whatever the value.)
    - With the goal outside the grid or blocked, and not the start, the
      search on a rectangular grid runs until the open list is empty and
      returns the empty path, as it does when no path exists. *)
Theorem invalid_input_is_not_rejected fuel start goal gd h0 :
  (¬ in_bounds gd start →
   aStarSearch fuel start goal (mkMemory gd h0) = Undefined) ∧
  (∀ v gd', set2 gd (fst start) (snd start) v = Some gd' →
     aStarSearch fuel start goal (mkMemory gd' h0)
     = outcome_map (λ r, (fst r, mkMemory gd' (mem_heap (snd r))))
                   (aStarSearch fuel start goal (mkMemory gd h0))) ∧
  (rectangular gd → in_bounds gd start →
   goal ≠ start → ¬ free_cell gd goal →
   (extraction_bound gd <= fuel)%nat →
   ∃ m', aStarSearch fuel start goal (mkMemory gd h0) = Ok ([], m')).
Proof.
  split; [|split].
  - apply (aStarSearch_start_outside fuel start goal (mkMemory gd h0)).
  - intros v gd'. apply aStarSearch_start_cell.
  - intros Hrect Hstart Hne Hnf Hfuel.
    destruct (aStarSearch_returns fuel start goal (mkMemory gd h0) Hrect Hstart Hfuel)
      as (path & m' & Hrun).
    exists m'. rewrite Hrun.
    by rewrite (unreachable_goal_path_empty _ _ _ _ _ _ Hrun Hne Hnf).
Qed.

Lemma invalid_input_is_not_rejected_witness :
  ∃ m', aStarSearch (extraction_bound maze_goal_blocked) (0, 0) (1, 1)
                    (mkMemory maze_goal_blocked []) = Ok ([], m').
Proof.
  apply (invalid_input_is_not_rejected
           (extraction_bound maze_goal_blocked) (0, 0) (1, 1) maze_goal_blocked []).
  - repeat constructor; vm_compute; discriminate.
  - unfold in_bounds. vm_compute. repeat split; discriminate.
  - discriminate.
  - intros [_ H]. discriminate H.
  - reflexivity.
Defined.

(** ** The rule applied to each neighbour *)




(** ** The heuristic *)

(** The square of a double and of its opposite are the same double. *)
Lemma pow2_opp (a : float) : pow2 (PrimFloat.opp a) = pow2 a.
Proof.
  unfold pow2. apply Prim2SF_inj. rewrite !FloatAxioms.mul_spec, FloatAxioms.opp_spec.
  destruct (Prim2SF a) as [[]|[]| |[] m e]; unfold SF64mul;
    cbn [SFopp SFmul negb xorb]; reflexivity.
Qed.

Lemma pow2_double_of_int_opp z :
  pow2 (double_of_int (- z)) = pow2 (double_of_int z).
Proof.
  unfold double_of_int.
  destruct (Z.ltb_spec (- z) 0), (Z.ltb_spec z 0); try lia.
  - by rewrite Z.opp_involutive, pow2_opp.
  - by rewrite pow2_opp.
  - by replace z with 0 by lia.
Qed.

(** X12. The heuristic is symmetric in its two points, as long as the
    differences of their coordinates are representable [int]s (as they
    are for two cells of a grid), and it is zero from a point to itself. *)
Theorem heuristic_symmetric_and_zero x1 y1 x2 y2 :
  in_int (x1 - x2) → in_int (x2 - x1) →
  in_int (y1 - y2) → in_int (y2 - y1) →
  heuristic x1 y1 x2 y2 = heuristic x2 y2 x1 y1 ∧
  heuristic x1 y1 x1 y1 = 0%float.
Proof.
  intros Hx Hx' Hy Hy'. unfold heuristic. split.
  - rewrite !wrap_int_id by done.
    replace (x2 - x1) with (- (x1 - x2)) by lia.
    replace (y2 - y1) with (- (y1 - y2)) by lia.
    by rewrite !pow2_double_of_int_opp.
  - rewrite !Z.sub_diag. vm_compute. reflexivity.
Qed.

Lemma heuristic_symmetric_and_zero_witness :
  heuristic 0 0 3 4 = heuristic 3 4 0 0 ∧ heuristic 0 0 0 0 = 0%float.
Proof.
  apply (heuristic_symmetric_and_zero 0 0 3 4);
    unfold in_int, INT_MAX; lia.
Defined.

(** ** Paths on a grid without obstacles *)

(** A stepwise path covers at most one row and one column per step: it
    has at least [max(|dRow|, |dCol|) + 1] nodes. *)
Lemma stepwise_length path : ∀ a b,
  head path = Some a → last path = Some b → stepwise path →
  Z.max (Z.abs (fst b - fst a)) (Z.abs (snd b - snd a)) + 1
  <= Z.of_nat (length path).
Proof.
  induction path as [|c path IH]; intros a b Hhd Hlast Hsw; [done|].
  injection Hhd as ->. destruct path as [|c' path].
  - injection Hlast as ->. cbn [length]. lia.
  - assert (unit_step a c') as Hstep by (by apply (Hsw 0%nat)).
    apply offset_unit in Hstep.
    assert (stepwise (c' :: path)) as Hsw'.
    { intros i x y Hx Hy. by apply (Hsw (S i)). }
    specialize (IH c' b eq_refl Hlast Hsw').
    cbn [length] in *. lia.
Qed.

(** X3. A path returned by the search never has fewer than
    [max(|goal.row - start.row|, |goal.col - start.col|) + 1] nodes,
    whatever the grid. *)
Theorem returned_path_length_at_least fuel start goal m path m' :
  aStarSearch fuel start goal m = Ok (path, m') → path ≠ [] →
  Z.max (Z.abs (fst goal - fst start)) (Z.abs (snd goal - snd start)) + 1
  <= Z.of_nat (length path).
Proof.
  intros Hrun Hne.
  destruct (returned_path_bounds_start_goal fuel start goal m path m' Hrun Hne)
    as (Hhd & Hlast & Hsw).
  by apply stepwise_length.
Qed.

Lemma returned_path_length_at_least_witness :
  Z.max (Z.abs (fst (2, 2) - fst (0, 0))) (Z.abs (snd (2, 2) - snd (0, 0))) + 1
  <= Z.of_nat (length [(0, 0); (1, 1); (2, 2)]).
Proof.
  apply (returned_path_length_at_least 10 (0, 0) (2, 2) (mkMemory maze_free [])
           [(0, 0); (1, 1); (2, 2)] (mkMemory maze_free (replicate 9 None))).
  - vm_compute. reflexivity.
  - discriminate.
Defined.

(** An example: on the 3 x 3 grid without obstacles the search from a
    corner to the opposite corner returns the diagonal. *)
Example free_grid_3x3_diagonal :
  ∃ m', aStarSearch 10 (0, 0) (2, 2) (mkMemory maze_free [])
        = Ok ([(0, 0); (1, 1); (2, 2)], m').
Proof. eexists. vm_compute. reflexivity. Qed.


(** ** The search returns, and finds a path exactly when one exists *)

Lemma returned_path_free_path fuel start goal m path m' :
  aStarSearch fuel start goal m = Ok (path, m') → path ≠ [] →
  free_path (mem_grid m) start goal path.
Proof.
  intros Hrun Hne.
  destruct (returned_path_bounds_start_goal fuel start goal m path m' Hrun Hne)
    as (Hhd & Hlast & Hsw).
  split; [done|]. split; [done|]. split; [done|].
  apply aStarSearch_Ok in Hrun as (s & goalNode & h' & Hinv & _ & Hgoal & _).
  destruct goalNode as [p|]; [|congruence].
  destruct Hgoal as (Hown & n & Hn & _ & Hpath).
  eapply reconstructPath_passable in Hpath; [done| |done].
  apply (inv_live _ _ _ _ _ _ Hinv).
Qed.

(** X1. On a rectangular grid, from a start inside it, the search returns
    (a path or the empty path) for every goal and every content of the
    node store: no access is out of range, no deleted node is read, and
    the loop ends within [9 ^ (rows * cols)] extractions from the open
    list. *)
Theorem search_returns fuel start goal m :
  rectangular (mem_grid m) → in_bounds (mem_grid m) start →
  (extraction_bound (mem_grid m) <= fuel)%nat →
  ∃ path m', aStarSearch fuel start goal m = Ok (path, m').
Proof. apply aStarSearch_returns. Qed.

Lemma search_returns_witness :
  ∃ path m', aStarSearch (extraction_bound maze_goal_blocked) (0, 0) (1, 1)
                         (mkMemory maze_goal_blocked []) = Ok (path, m').
Proof.
  apply (search_returns (extraction_bound maze_goal_blocked) (0, 0) (1, 1)
           (mkMemory maze_goal_blocked [])).
  - repeat constructor; vm_compute; discriminate.
  - unfold in_bounds. vm_compute. repeat split; discriminate.
  - reflexivity.
Defined.

(** X2. On a rectangular grid, from a start inside it, the search returns
    a non-empty path exactly when a path of free cells leads from the
    start to the goal (the start cell itself may be blocked), and the path
    it returns is such a path: from the start to the goal, in unit steps,
    every cell after the first a free cell of the grid. *)
Theorem search_finds_path_iff_one_exists fuel start goal gd h0 :
  rectangular gd → in_bounds gd start →
  (extraction_bound gd <= fuel)%nat →
  ∃ path m',
    aStarSearch fuel start goal (mkMemory gd h0) = Ok (path, m') ∧
    (path ≠ [] ↔ ∃ l, free_path gd start goal l) ∧
    (path ≠ [] → free_path gd start goal path).
Proof.
  intros Hrect Hstart Hfuel.
  destruct (aStarSearch_returns fuel start goal (mkMemory gd h0) Hrect Hstart Hfuel)
    as (path & m' & Hrun).
  exists path, m'. split; [done|].
  pose proof (returned_path_free_path _ _ _ _ _ _ Hrun) as Hsound.
  split; [split|done].
  - intros Hne. exists path. by apply Hsound.
  - intros [l Hl].
    destruct (aStarSearch_complete fuel start goal gd h0 l Hrect Hstart Hfuel Hl)
      as (path2 & m2 & Hrun2 & Hne).
    rewrite Hrun in Hrun2. by injection Hrun2 as -> _.
Qed.

(** A maze with a wall between the start and the goal. *)
Definition maze_wall : list (list Z) :=
  [[0; 0; 1; 0]; [0; 0; 1; 0]; [0; 0; 0; 0]].

Lemma search_finds_path_iff_one_exists_witness :
  ∃ path m',
    aStarSearch (extraction_bound maze_wall) (0, 0) (1, 3)
                (mkMemory maze_wall []) = Ok (path, m') ∧
    (path ≠ [] ↔ ∃ l, free_path maze_wall (0, 0) (1, 3) l) ∧
    (path ≠ [] → free_path maze_wall (0, 0) (1, 3) path).
Proof.
  apply (search_finds_path_iff_one_exists
           (extraction_bound maze_wall) (0, 0) (1, 3) maze_wall []).
  - repeat constructor; vm_compute; discriminate.
  - unfold in_bounds. vm_compute. repeat split; discriminate.
  - reflexivity.
Defined.

(** X4. The clean-up deletes the nodes recorded in [allNodes] only: a node
    replaced by a better one for its cell is still allocated when the
    search returns. On [maze_wall] the node first created for cell
    [(2, 0)], through [(1, 1)], is replaced by the one created through
    [(1, 0)], and remains in the store. *)
Example replaced_node_is_not_deleted :
  ∃ m' n,
    aStarSearch 10 (0, 0) (1, 3) (mkMemory maze_wall [])
    = Ok ([(0, 0); (1, 1); (2, 2); (1, 3)], m') ∧
    mem_heap m' !! 5%nat = Some (Some n) ∧
    (Node.x n, Node.y n) = (2, 0) ∧ Node.parent n = Some 3%nat.
Proof.
  eexists _, _. split; [vm_compute; reflexivity|]. by cbn.
Qed.

(** X14. [isValid] reads the grid only inside its bounds: on a rectangular
    grid, called with the dimensions of the grid, it returns for every
    pair of coordinates, also negative ones and ones beyond the grid, and
    it returns [true] exactly for the free cells of the grid. *)
Theorem isValid_accepts_free_cells x y s :
  rectangular (grid s) →
  ∃ b, isValid x y (grid_rows (grid s)) (grid_cols (grid s)) s = Ok (b, s) ∧
       (b = true ↔ free_cell (grid s) (x, y)).
Proof.
  intros Hrect. unfold isValid, free_cell, in_bounds. cbn [fst snd].
  destruct ((0 <=? x) && (x <? grid_rows (grid s)) && (0 <=? y)
            && (y <? grid_cols (grid s))) eqn:E.
  - assert (0 <= x < grid_rows (grid s) ∧ 0 <= y < grid_cols (grid s)) as Hb.
    { destruct (Z.leb_spec 0 x), (Z.ltb_spec x (grid_rows (grid s))),
        (Z.leb_spec 0 y), (Z.ltb_spec y (grid_cols (grid s))); cbn in E;
        try done; lia. }
    destruct (rectangular_readable (grid s) x y Hrect) as [v Hv]; [apply Hb..|].
    rewrite Hv. exists (v =? 0). split; [done|]. rewrite Z.eqb_eq. split.
    + by intros ->.
    + intros [_ [= ->]]. done.
  - exists false. split; [done|]. split; [done|]. intros [Hb _].
    destruct (Z.leb_spec 0 x), (Z.ltb_spec x (grid_rows (grid s))),
      (Z.leb_spec 0 y), (Z.ltb_spec y (grid_cols (grid s))); cbn in E;
      try done; lia.
Qed.

Lemma isValid_accepts_free_cells_witness :
  ∃ b, isValid (-1) 7 (grid_rows maze_wall) (grid_cols maze_wall)
               (mkState maze_wall [] [] [] [])
       = Ok (b, mkState maze_wall [] [] [] []) ∧
       (b = true ↔ free_cell maze_wall (-1, 7)).
Proof.
  apply (isValid_accepts_free_cells (-1) 7 (mkState maze_wall [] [] [] [])).
  repeat constructor; vm_compute; discriminate.
Defined.

(** ** The returned path visits no cell twice *)

(** The coordinates along the parent links from the node at [p]. *)
Inductive chain_of (h : list (option Node.t)) : nat → list (Z * Z) → Prop :=
| chain_root p n :
    h !! p = Some (Some n) → Node.parent n = None →
    chain_of h p [(Node.x n, Node.y n)]
| chain_link p n q l :
    h !! p = Some (Some n) → Node.parent n = Some q → chain_of h q l →
    chain_of h p ((Node.x n, Node.y n) :: l).

Lemma reconstruct_loop_chain_of fuel : ∀ h p acc path,
  reconstruct_loop fuel h (Some p) acc = Ok path →
  ∃ l, chain_of h p l ∧ path = acc ++ l.
Proof.
  induction fuel as [|fuel IH]; intros h p acc path Hrun; [done|].
  cbn [reconstruct_loop] in Hrun.
  destruct (h !! p) as [[n|]|] eqn:Hn; [|done|done].
  destruct (Node.parent n) as [q|] eqn:Hpar.
  - apply IH in Hrun as (l & Hl & ->).
    exists ((Node.x n, Node.y n) :: l). split; [by eapply chain_link|].
    by rewrite <- app_assoc.
  - rewrite reconstruct_loop_None in Hrun. injection Hrun as <-.
    exists [(Node.x n, Node.y n)]. split; [by apply chain_root|done].
Qed.

Lemma chain_of_head h p l n :
  chain_of h p l → h !! p = Some (Some n) → head l = Some (Node.x n, Node.y n).
Proof. intros [p' n' Hn' _|p' n' q l' Hn' _ _] Hn; cbn; congruence. Qed.

Section Simple.
Variables (h0 : list (option Node.t)) (g0 : list (list Z)) (start : Z * Z)
          (rows cols : Z).
Hypothesis rows_int : rows <= INT_MAX.
Hypothesis cols_int : cols <= INT_MAX.

(** The chain of a node of the run has no cell twice, and all its cells
    but the first are closed. *)
Definition tidy (s : search_state) : Prop :=
  ∀ p l, own h0 (heap s) p → chain_of (heap s) p l →
         NoDup l ∧
         Forall (λ c, get2 (closed s) (fst c) (snd c) = Some true) (tail l).

(** A node created later is on no chain of an older node. *)
Lemma chain_of_old (h : list (option Node.t)) x p l :
  (∀ p, own h0 h p → ∃ n, h !! p = Some (Some n) ∧ linked h0 g0 start rows cols h p n) →
  own h0 h p → chain_of (h ++ [x]) p l → chain_of h p l.
Proof.
  intros Hlive Hown Hc. induction Hc as [p n Hn Hpar|p n q l Hn Hpar Hc IH].
  - apply chain_root; [|done]. rewrite lookup_app_l in Hn; [done|apply Hown].
  - rewrite lookup_app_l in Hn by apply Hown.
    destruct (Hlive p Hown) as (n' & Hn' & _ & Hlink).
    assert (n' = n) as -> by congruence. rewrite Hpar in Hlink.
    destruct Hlink as (Hq & _).
    eapply chain_link; [done..|]. apply IH. unfold own in *. lia.
Qed.

Lemma tidy_created s n a current cur :
  inv h0 g0 start rows cols s → tidy s →
  own h0 (heap s) current → heap s !! current = Some (Some cur) →
  get2 (closed s) (Node.x cur) (Node.y cur) = Some true →
  Node.parent n = Some current →
  get2 (closed s) (Node.x n) (Node.y n) = Some false →
  tidy (created s n a).
Proof.
  intros Hinv Htidy Hown Hcur Hclosed Hpar Hopen p l Hp Hc.
  unfold created in *. unfold_state.
  pose proof (inv_live _ _ _ _ _ _ Hinv) as Hlive.
  destruct (decide (p < length (heap s))%nat) as [Hlt|Hge].
  - apply (Htidy p l); [unfold own in *; lia|].
    eapply chain_of_old; [done| |done]. unfold own in *. lia.
  - assert (p = length (heap s)) as ->.
    { unfold own in Hp. rewrite length_app in Hp. cbn [length] in Hp. lia. }
    inversion Hc as [p' n' Hn' Hpar'|p' n' q l' Hn' Hpar' Hc']; subst;
      rewrite list_lookup_middle in Hn' by done; injection Hn' as <-;
      [congruence|].
    assert (q = current) as -> by congruence.
    apply chain_of_old in Hc'; [|done..].
    destruct (Htidy current l' Hown Hc') as [Hnd Hcl].
    pose proof (chain_of_head _ _ _ _ Hc' Hcur) as Hhd.
    assert (Forall (λ c, get2 (closed s) (fst c) (snd c) = Some true) l') as Hall.
    { destruct l' as [|c l']; [done|]. injection Hhd as ->.
      apply Forall_cons. by split. }
    split; [|done]. apply NoDup_cons. split; [|done].
    intros Hin. eapply Forall_forall in Hall; [|done]. cbn [fst snd] in Hall.
    congruence.
Qed.

Lemma tidy_explore current cur goal i s u s' :
  inv h0 g0 start rows cols s → tidy s →
  own h0 (heap s) current → heap s !! current = Some (Some cur) →
  get2 (closed s) (Node.x cur) (Node.y cur) = Some true →
  explore current goal rows cols i s = Ok (u, s') →
  tidy s' ∧ heap s' !! current = Some (Some cur) ∧ closed s' = closed s.
Proof.
  intros Hinv Htidy Hown Hcur Hclosed (cur' & Hcur' & [->|Hnew])%explore_Ok; [done|].
  destruct Hnew as (n & a & _ & _ & Hpar & _ & _ & Hopen & _ & ->).
  split; [by apply (tidy_created s n a current cur)|].
  unfold created. unfold_state. split; [by apply lookup_app_l_Some|done].
Qed.

Lemma tidy_for_each current cur goal idx : ∀ s u s',
  inv h0 g0 start rows cols s → tidy s →
  own h0 (heap s) current → heap s !! current = Some (Some cur) →
  get2 (closed s) (Node.x cur) (Node.y cur) = Some true →
  Forall (λ i, (i < 8)%nat) idx →
  for_each idx (explore current goal rows cols) s = Ok (u, s') →
  tidy s'.
Proof.
  induction idx as [|i idx IH]; intros s u s' Hinv Htidy Hown Hcur Hclosed Hidx;
    cbn [for_each].
  - by intros [_ ->]%ret_Ok.
  - intros (? & s1 & Hex & Hrest)%bind_Ok.
    apply Forall_cons in Hidx as [Hi Hidx].
    pose proof (tidy_explore _ _ _ _ _ _ _ Hinv Htidy Hown Hcur Hclosed Hex)
      as (Htidy1 & Hcur1 & Hcl1).
    eapply inv_explore in Hex as [Hinv1 Hown1]; [|done..].
    eapply (IH s1); try done. by rewrite Hcl1.
Qed.

Lemma tidy_search_loop goal fuel : ∀ s r s',
  inv h0 g0 start rows cols s → tidy s →
  search_loop fuel goal rows cols s = Ok (r, s') → tidy s'.
Proof.
  induction fuel as [|fuel IH]; intros s r s' Hinv Htidy Hrun.
  - cbn [search_loop] in Hrun.
    apply bind_Ok in Hrun as (empty & s1 & [= <- <-] & H).
    destruct (openList s) eqn:Hq; [|done]. by apply ret_Ok in H as [_ ->].
  - destruct (decide (openList s = [])) as [Hq|Hq].
    { cbn [search_loop] in Hrun.
      apply bind_Ok in Hrun as (empty & s1 & [= <- <-] & H).
      rewrite Hq in H. by apply ret_Ok in H as [_ ->]. }
    destruct (search_loop_turn _ _ _ _ _ _ _ Hrun Hq) as (current & cur & Htop & Hcur).
    rewrite (search_loop_step rows cols fuel goal s current cur Hq Htop Hcur) in Hrun.
    cbv zeta in Hrun.
    destruct ((Node.x cur =? fst goal) && (Node.y cur =? snd goal)).
    { injection Hrun as _ <-. done. }
    destruct (set2 (closed s) (Node.x cur) (Node.y cur) true) as [c|] eqn:Hc; [|done].
    apply bind_Ok in Hrun as (u & s3 & Hfor & Hrun).
    pose proof (pq_top_elem _ _ _ Htop) as Hin.
    pose proof (inv_open _ _ _ _ _ _ Hinv _ Hin) as Hown.
    set (s2 := mkState (grid s) (heap s) c (allNodes s)
                       (pq_remove current (openList s))) in *.
    assert (inv h0 g0 start rows cols s2) as Hinv2.
    { destruct Hinv. split; unfold s2; unfold_state; try done.
      intros p Hp%pq_remove_elem. auto. }
    assert (Forall (λ i, (i < 8)%nat) (seq 0 8)) as Hidx.
    { apply Forall_forall. intros i [_ Hi]%elem_of_seq. lia. }
    assert (tidy s2) as Htidy2.
    { intros p l Hp Hl. destruct (Htidy p l Hp Hl) as [Hnd Hcl].
      split; [done|]. unfold s2. unfold_state.
      eapply Forall_impl; [done|]. intros [x y] Hxy. cbn [fst snd] in *.
      rewrite (get2_set2 _ _ _ _ _ _ _ Hc). by case_decide. }
    assert (inv h0 g0 start rows cols s3) as Hinv3.
    { by eapply (inv_for_each h0 g0 start rows cols rows_int cols_int current goal
                   (seq 0 8) s2). }
    assert (tidy s3) as Htidy3.
    { eapply (tidy_for_each current cur goal (seq 0 8) s2); try done.
      unfold s2. unfold_state. rewrite (get2_set2 _ _ _ _ _ _ _ Hc).
      by rewrite decide_True. }
    by apply (IH s3 r s').
Qed.

Lemma tidy_initial f g h r c a0 :
  tidy (mkState g0 (h0 ++ [Some (Node.mk (fst start) (snd start) f g h None)])
                (replicate r (replicate c false)) a0 ([] ++ [length h0])).
Proof.
  intros p l Hp Hl. unfold own in Hp. unfold_state.
  rewrite length_app in Hp. cbn [length] in Hp.
  assert (p = length h0) as -> by lia.
  inversion Hl as [p' n' Hn' Hpar'|p' n' q l' Hn' Hpar' Hc']; subst;
    rewrite list_lookup_middle in Hn' by done; injection Hn' as <-; [|done].
  split; [apply NoDup_singleton|done].
Qed.

End Simple.

(** What a search that returns has run: the loop from the start state,
    and the path read from the goal node it found. *)
Lemma aStarSearch_Ok_loop fuel start goal gd h0 path m' :
  aStarSearch fuel start goal (mkMemory gd h0) = Ok (path, m') →
  ∃ a0 goalNode s,
    set2 (replicate (Z.to_nat (grid_rows gd))
                    (replicate (Z.to_nat (grid_cols gd)) (@None nat)))
         (fst start) (snd start) (Some (length h0)) = Some a0 ∧
    search_loop fuel goal (grid_rows gd) (grid_cols gd)
                (start_state gd h0 start goal a0) = Ok (goalNode, s) ∧
    match goalNode with
    | Some p => reconstructPath (length (heap s)) (heap s) p = Ok path
    | None => path = []
    end.
Proof.
  unfold aStarSearch, start_state, grid_rows, grid_cols. cbn [mem_grid mem_heap].
  destruct gd as [|row0 gd']; [done|].
  set (rows := wrap_int (Z.of_nat (length (row0 :: gd')))).
  set (cols := wrap_int (Z.of_nat (length row0))).
  destruct ((rows <? 0) || (cols <? 0)) eqn:Hneg; [done|].
  match goal with |- match ?run ?s0 with _ => _ end = _ → _ =>
    destruct (run s0) as [[path' s']| |] eqn:Hrun; [|done|done] end.
  intros [= -> <-].
  apply bind_Ok in Hrun as (p0 & s1 & [-> ->]%new_node_Ok & Hrun).
  apply bind_Ok in Hrun as (? & s1 & ->%openList_push_Ok & Hrun).
  apply bind_Ok in Hrun as (? & s1 & (a0 & Ha0 & ->)%allNodes_set_Ok & Hrun).
  unfold_state.
  apply bind_Ok in Hrun as (goalNode & s & Hloop & Hrun).
  apply bind_Ok in Hrun as (? & ? & [= <- <-] & Hrun).
  apply bind_Ok in Hrun as (path0 & s2 & Hpath & Hrun).
  apply bind_Ok in Hrun as (h' & s3 & Hdel & Hrun).
  injection Hrun as -> <-.
  exists a0, goalNode, s. split; [done|]. split; [done|].
  destruct goalNode as [gp|].
  - destruct (reconstructPath _ _ _); [|done|done]. by injection Hpath as ->.
  - by apply ret_Ok in Hpath as [-> _].
Qed.

Lemma returned_path_NoDup fuel start goal m path m' :
  aStarSearch fuel start goal m = Ok (path, m') → NoDup path.
Proof.
  destruct m as [gd h0]. intros Hrun.
  pose proof Hrun as (_ & _ & _ & _ & Hstart & _)%aStarSearch_Ok.
  apply aStarSearch_Ok_loop in Hrun as (a0 & goalNode & s & Ha0 & Hloop & Hpath).
  destruct goalNode as [p|]; [|subst; apply NoDup_nil_2].
  pose proof (grid_dims_int gd) as [Hrmax Hcmax].
  cbn [mem_grid mem_heap] in *.
  assert (inv h0 gd start (grid_rows gd) (grid_cols gd)
              (start_state gd h0 start goal a0)) as Hinv0
    by (by apply inv_initial).
  pose proof (tidy_search_loop h0 gd start _ _ Hrmax Hcmax goal fuel _ _ _ Hinv0
                (tidy_initial h0 gd start _ _ _ _ _ a0) Hloop) as Htidy.
  pose proof (inv_search_loop h0 gd start _ _ Hrmax Hcmax fuel goal _ _ _ Hinv0 Hloop)
    as [Hinv (Hown & _)].
  unfold reconstructPath in Hpath.
  destruct (reconstruct_loop _ _ _ _) as [l0| |] eqn:Hl0; [|done|done].
  injection Hpath as <-.
  apply reconstruct_loop_chain_of in Hl0 as (l & Hl & ->).
  rewrite reverse_Permutation. by apply (Htidy p l).
Qed.

(** Distinct cells inside the grid are at most as many as the grid has. *)
Lemma NoDup_cells_bound rows cols (l : list (Z * Z)) :
  0 <= rows → 0 <= cols → NoDup l →
  Forall (λ c, 0 <= fst c < rows ∧ 0 <= snd c < cols) l →
  Z.of_nat (length l) <= rows * cols.
Proof.
  intros Hr Hc Hnd Hin.
  set (index := λ c : Z * Z, Z.to_nat (fst c * cols + snd c)).
  assert (NoDup (index <$> l)) as Hnd'.
  { apply NoDup_fmap_2_strong; [|done]. intros [x y] [x' y'] Hx Hy Heq.
    eapply Forall_forall in Hx, Hy; [|done..]. unfold index in Heq.
    cbn [fst snd] in *.
    assert (x * cols + y = x' * cols + y') as Heq' by (apply Z2Nat.inj; nia).
    assert (x = x') as -> by nia. f_equal. lia. }
  assert (index <$> l ⊆ seq 0 (Z.to_nat (rows * cols))) as Hsub.
  { intros k (c & -> & Hc')%list_elem_of_fmap.
    eapply Forall_forall in Hc'; [|done]. apply elem_of_seq. unfold index.
    destruct c as [x y]. cbn [fst snd] in *.
    assert (x * cols <= (rows - 1) * cols)
      by (apply Z.mul_le_mono_nonneg_r; lia).
    split; [lia|]. cbn [Nat.add]. apply Z2Nat.inj_lt; lia. }
  pose proof (submseteq_length _ _ (NoDup_submseteq _ _ Hnd' Hsub)) as Hlen.
  rewrite length_fmap, length_seq in Hlen. lia.
Qed.

Lemma returned_path_length_le fuel start goal m path m' :
  aStarSearch fuel start goal m = Ok (path, m') →
  Z.of_nat (length path) <= grid_rows (mem_grid m) * grid_cols (mem_grid m).
Proof.
  intros Hrun.
  pose proof (returned_path_NoDup _ _ _ _ _ _ Hrun) as Hnd.
  pose proof Hrun as (_ & _ & _ & _ & Hstart & _)%aStarSearch_Ok.
  unfold in_bounds in Hstart.
  apply NoDup_cells_bound; [lia|lia|done|].
  destruct path as [|c path]; [done|].
  assert (c :: path ≠ []) as Hne by done.
  destruct (returned_path_free_path _ _ _ _ _ _ Hrun Hne) as (Hhd & _ & _ & Hfree).
  injection Hhd as ->. cbn [tail] in Hfree.
  apply Forall_cons. split; [done|].
  eapply Forall_impl; [done|]. by intros c [Hc _].
Qed.

(** X10. A path returned by the search visits no cell twice; so it has at
    most as many nodes as the grid has cells. *)
Theorem returned_path_is_simple fuel start goal m path m' :
  aStarSearch fuel start goal m = Ok (path, m') →
  NoDup path ∧
  Z.of_nat (length path) <= grid_rows (mem_grid m) * grid_cols (mem_grid m).
Proof.
  intros Hrun. split.
  - by eapply returned_path_NoDup.
  - by eapply returned_path_length_le.
Qed.

Lemma returned_path_is_simple_witness :
  NoDup [(0, 0); (1, 1); (2, 2)] ∧
  Z.of_nat (length [(0, 0); (1, 1); (2, 2)])
  <= grid_rows maze_free * grid_cols maze_free.
Proof.
  apply (returned_path_is_simple 10 (0, 0) (2, 2) (mkMemory maze_free [])
           [(0, 0); (1, 1); (2, 2)] (mkMemory maze_free (replicate 9 None))).
  vm_compute. reflexivity.
Defined.

(** ** [solveMaze]: the search from corner to corner *)

(** X11. [solveMaze] on a rectangular maze of at least one cell and at
    most [INT_MAX] cells: the search returns, the path length it reports
    is between 0 and the number of cells, and it is positive (so that the
    maze is counted as successful) exactly when a path of free cells leads
    from the top left corner to the bottom right one. *)
Theorem solveMaze_succeeds_iff_path_exists fuel maze :
  rectangular maze →
  1 <= grid_rows maze → 1 <= grid_cols maze →
  grid_rows maze * grid_cols maze <= INT_MAX →
  (extraction_bound maze <= fuel)%nat →
  ∃ pathLen,
    solveMaze_pathLen fuel maze = Ok pathLen ∧
    0 <= pathLen <= grid_rows maze * grid_cols maze ∧
    (found pathLen = true ↔
     ∃ l, free_path maze (0, 0) (grid_rows maze - 1, grid_cols maze - 1) l).
Proof.
  intros Hrect Hrows Hcols Hsize Hfuel. unfold solveMaze_pathLen.
  assert (in_bounds maze (0, 0)) as Hstart by (unfold in_bounds; cbn; lia).
  destruct (aStarSearch_returns fuel (0, 0) (grid_rows maze - 1, grid_cols maze - 1)
              (mkMemory maze []) Hrect Hstart Hfuel) as (path & m' & Hrun).
  rewrite Hrun.
  pose proof (returned_path_length_le _ _ _ _ _ _ Hrun) as Hlen.
  cbn [mem_grid] in Hlen.
  assert (wrap_int (Z.of_nat (length path)) = Z.of_nat (length path)) as Hwrap
    by (apply wrap_int_id; unfold in_int, INT_MAX in *; lia).
  exists (Z.of_nat (length path)). rewrite Hwrap. split; [done|]. split; [lia|].
  unfold found. rewrite Z.ltb_lt. split.
  - intros Hpos. exists path.
    apply (returned_path_free_path _ _ _ _ _ _ Hrun). by destruct path.
  - intros [l Hl].
    destruct (aStarSearch_complete fuel _ _ maze [] l Hrect Hstart Hfuel Hl)
      as (path2 & m2 & Hrun2 & Hne).
    rewrite Hrun in Hrun2. injection Hrun2 as <- _.
    destruct path; [done|]. cbn [length]. lia.
Qed.

Lemma solveMaze_succeeds_iff_path_exists_witness :
  ∃ pathLen,
    solveMaze_pathLen (extraction_bound maze_wall) maze_wall = Ok pathLen ∧
    0 <= pathLen <= grid_rows maze_wall * grid_cols maze_wall ∧
    (found pathLen = true ↔
     ∃ l, free_path maze_wall (0, 0)
            (grid_rows maze_wall - 1, grid_cols maze_wall - 1) l).
Proof.
  apply (solveMaze_succeeds_iff_path_exists (extraction_bound maze_wall) maze_wall).
  - repeat constructor; vm_compute; discriminate.
  - vm_compute. discriminate.
  - vm_compute. discriminate.
  - vm_compute. discriminate.
  - reflexivity.
Defined.

(** ** A grid without obstacles *)

(** Every cell of the grid is free. *)
Definition obstacle_free (gd : list (list Z)) : Prop :=
  Forall (Forall (λ v, v = 0)) gd.

(** The walk from [a] to [goal] that moves one cell towards the goal in
    each coordinate, diagonally as long as both differ. *)
Definition toward (a g : Z) : Z := a + Z.sgn (g - a).

Fixpoint walk (n : nat) (a goal : Z * Z) : list (Z * Z) :=
  match n with
  | O => [a]
  | S n' => a :: walk n' (toward (fst a) (fst goal), toward (snd a) (snd goal)) goal
  end.

Definition chebyshev (a b : Z * Z) : Z :=
  Z.max (Z.abs (fst b - fst a)) (Z.abs (snd b - snd a)).

Lemma toward_spec a g :
  (a < g ∧ toward a g = a + 1) ∨ (a = g ∧ toward a g = a) ∨
  (g < a ∧ toward a g = a - 1).
Proof.
  unfold toward.
  destruct (Z.sgn_spec (g - a)) as [[? ->]|[[? ->]|[? ->]]]; lia.
Qed.

Lemma walk_head n a goal : head (walk n a goal) = Some a.
Proof. by destruct n. Qed.

Lemma walk_last n : ∀ a goal,
  chebyshev a goal = Z.of_nat n → last (walk n a goal) = Some goal.
Proof.
  unfold chebyshev.
  induction n as [|n IH]; intros [ax ay] [gx gy] Hd; cbn [walk fst snd] in *.
  - cbn [last]. do 2 f_equal; lia.
  - rewrite last_cons, IH; [done|]. cbn [fst snd].
    destruct (toward_spec ax gx) as [[? ->]|[[? ->]|[? ->]]],
             (toward_spec ay gy) as [[? ->]|[[? ->]|[? ->]]]; lia.
Qed.

Lemma stepwise_cons a b l :
  unit_step a b → stepwise (b :: l) → stepwise (a :: b :: l).
Proof.
  intros Hab Hl [|i] x y Hx Hy; cbn in Hx, Hy.
  - by injection Hx as <-; injection Hy as <-.
  - by apply (Hl i).
Qed.

Lemma walk_stepwise n : ∀ a goal,
  chebyshev a goal = Z.of_nat n → stepwise (walk n a goal).
Proof.
  unfold chebyshev.
  induction n as [|n IH]; intros [ax ay] [gx gy] Hd; cbn [walk fst snd] in *.
  - apply stepwise_singleton.
  - assert (chebyshev (toward ax gx, toward ay gy) (gx, gy) = Z.of_nat n
            ∧ unit_step (ax, ay) (toward ax gx, toward ay gy)) as [Hd' Hstep].
    { unfold chebyshev, unit_step. rewrite offset_unit. cbn [fst snd].
      destruct (toward_spec ax gx) as [[? ->]|[[? ->]|[? ->]]],
               (toward_spec ay gy) as [[? ->]|[[? ->]|[? ->]]]; lia. }
    specialize (IH _ _ Hd').
    destruct n; cbn [walk] in *; by apply stepwise_cons.
Qed.

(** The walk stays between its ends. *)
Lemma walk_between n : ∀ a goal lo hi,
  (fst lo <= fst a <= fst hi ∧ snd lo <= snd a <= snd hi) →
  (fst lo <= fst goal <= fst hi ∧ snd lo <= snd goal <= snd hi) →
  Forall (λ c, fst lo <= fst c <= fst hi ∧ snd lo <= snd c <= snd hi)
         (walk n a goal).
Proof.
  induction n as [|n IH]; intros [ax ay] [gx gy] lo hi Ha Hg; cbn [walk fst snd] in *.
  - by apply Forall_singleton.
  - apply Forall_cons. split; [done|]. apply IH; [|done]. cbn [fst snd].
    destruct (toward_spec ax gx) as [[? ->]|[[? ->]|[? ->]]],
             (toward_spec ay gy) as [[? ->]|[[? ->]|[? ->]]]; lia.
Qed.

Lemma walk_length n a goal : length (walk n a goal) = S n.
Proof. revert a. induction n as [|n IH]; intros a; cbn [walk length]; by rewrite ?IH. Qed.

(** On a rectangular grid without obstacles every cell inside is free. *)
Lemma obstacle_free_cell gd c :
  rectangular gd → obstacle_free gd → in_bounds gd c → free_cell gd c.
Proof.
  intros Hrect Hfree Hc. split; [done|].
  destruct (rectangular_readable gd (fst c) (snd c) Hrect) as [v Hv];
    [apply Hc..|].
  rewrite Hv. f_equal.
  apply get2_elem_of_concat, elem_of_concat in Hv as (row & Hvrow & Hrow).
  eapply Forall_forall in Hfree; [|done].
  by eapply Forall_forall in Hfree.
Qed.

(** Between two cells of a grid without obstacles there is a path of
    free cells. *)
Lemma obstacle_free_path gd start goal :
  rectangular gd → obstacle_free gd →
  in_bounds gd start → in_bounds gd goal →
  free_path gd start goal (walk (Z.to_nat (chebyshev start goal)) start goal).
Proof.
  intros Hrect Hfree Hs Hg.
  assert (chebyshev start goal = Z.of_nat (Z.to_nat (chebyshev start goal))) as Hd
    by (unfold chebyshev; lia).
  split; [apply walk_head|]. split; [by apply walk_last|].
  split; [by apply walk_stepwise|].
  apply Forall_tail.
  pose proof (walk_between (Z.to_nat (chebyshev start goal)) start goal
                (Z.min (fst start) (fst goal), Z.min (snd start) (snd goal))
                (Z.max (fst start) (fst goal), Z.max (snd start) (snd goal)))
    as Hbetween.
  cbn [fst snd] in Hbetween.
  eapply Forall_impl; [apply Hbetween; lia|].
  intros c Hc. apply obstacle_free_cell; [done..|].
  unfold in_bounds in *. lia.
Qed.

(** X6. On a rectangular grid without obstacles, for a start and a goal
    inside the grid, the search returns a path from the start to the goal
    in unit steps, of at least
    [max(|goal.row - start.row|, |goal.col - start.col|) + 1] nodes. *)
Theorem obstacle_free_search_returns_path fuel start goal gd h0 :
  rectangular gd → obstacle_free gd →
  in_bounds gd start → in_bounds gd goal →
  (extraction_bound gd <= fuel)%nat →
  ∃ path m',
    aStarSearch fuel start goal (mkMemory gd h0) = Ok (path, m') ∧
    head path = Some start ∧ last path = Some goal ∧ stepwise path ∧
    chebyshev start goal + 1 <= Z.of_nat (length path).
Proof.
  intros Hrect Hfree Hs Hg Hfuel.
  destruct (aStarSearch_complete fuel start goal gd h0 _ Hrect Hs Hfuel
              (obstacle_free_path gd start goal Hrect Hfree Hs Hg))
    as (path & m' & Hrun & Hne).
  exists path, m'. split; [done|].
  destruct (returned_path_bounds_start_goal _ _ _ _ _ _ Hrun Hne)
    as (Hhd & Hlast & Hsw).
  repeat split; try done. by apply stepwise_length.
Qed.

Lemma obstacle_free_search_returns_path_witness :
  ∃ path m',
    aStarSearch (extraction_bound maze_free) (0, 0) (2, 1) (mkMemory maze_free [])
    = Ok (path, m') ∧
    head path = Some (0, 0) ∧ last path = Some (2, 1) ∧ stepwise path ∧
    chebyshev (0, 0) (2, 1) + 1 <= Z.of_nat (length path).
Proof.
  apply (obstacle_free_search_returns_path
           (extraction_bound maze_free) (0, 0) (2, 1) maze_free []).
  - repeat constructor; vm_compute; discriminate.
  - repeat constructor.
  - unfold in_bounds. vm_compute. repeat split; discriminate.
  - unfold in_bounds. vm_compute. repeat split; discriminate.
  - reflexivity.
Defined.

(** ** The nodes of a run at its end *)

(** Every node that the run has allocated, in the slots from [base] on, is
    deleted in the store [h]. *)
Definition released (base : nat) (h : list (option Node.t)) : Prop :=
  ∀ p n, (base <= p)%nat → h !! p ≠ Some (Some n).

(** C9. The search does not release all the node storage it creates. The
    clean-up deletes the nodes recorded in [allNodes]; a node that has
    been replaced by a better one for its cell is recorded nowhere but in
    the open list. On [maze_wall], from [(0, 0)] to [(1, 3)], started on
    an empty store, the search returns a path and leaves the grid as it
    was, but the node created for cell [(2, 0)] when [(1, 1)] was
    expanded, replaced when [(1, 0)] was expanded, is still allocated on
    return. *)
Lemma search_leaves_replaced_node_allocated :
  ∃ m',
    aStarSearch 10 (0, 0) (1, 3) (mkMemory maze_wall [])
    = Ok ([(0, 0); (1, 1); (2, 2); (1, 3)], m') ∧
    mem_grid m' = maze_wall ∧
    (∃ n, mem_heap m' !! 5%nat = Some (Some n) ∧
          (Node.x n, Node.y n) = (2, 0) ∧ Node.parent n = Some 3%nat) ∧
    ¬ released 0 (mem_heap m').
Proof.
  eexists. split; [vm_compute; reflexivity|]. split; [reflexivity|].
  split; [eexists; by cbn|].
  intros Hrel. eapply (Hrel 5%nat); [lia|]. by cbn.
Qed.

(** * The batch *)

(** ** One thread on its own *)

(** The effect of one instruction on the register, the counters and the
    output of the thread that executes it. *)
Definition exec_instr (st : Z * globals * list Z) (i : instr) : Z * globals * list Z :=
  let '(r, gl, out) := st in
  match i with
  | Print n => (r, gl, out ++ [n])
  | Load c => (load c gl, gl, out)
  | AddStore c d => (r, store_to c (wrap_int (r + d)) gl, out)
  end.

Definition exec_code (st : Z * globals * list Z) (ins : list instr) : Z * globals * list Z :=
  fold_left exec_instr ins st.

Definition single (st : Z * globals * list Z) (ins : list instr) : config :=
  let '(r, gl, out) := st in mkConfig gl out [mkThread r ins].

Lemma step_single st i ins :
  step (single st (i :: ins)) 0 = single (exec_instr st i) ins.
Proof. destruct st as [[r gl] out]. by destruct i. Qed.

Lemma step_single_idle st ins tid :
  tid ≠ 0%nat ∨ ins = [] → step (single st ins) tid = single st ins.
Proof.
  destruct st as [[r gl] out]. intros [Htid| ->].
  - destruct tid as [|tid]; [done|]. unfold step. cbn [single threads].
    by rewrite lookup_cons_ne_0, lookup_nil by done.
  - unfold step. cbn [single threads]. by destruct tid.
Qed.

(** Whatever the schedule, a single thread has executed a prefix of its
    code, in order. *)
Lemma run_schedule_single sched : ∀ st ins,
  ∃ k, (k <= length ins)%nat ∧
       run_schedule sched (single st ins)
       = single (exec_code st (take k ins)) (drop k ins).
Proof.
  induction sched as [|tid sched IH]; intros st ins.
  - exists 0%nat. split; [lia|]. by rewrite take_0, drop_0.
  - cbn [run_schedule fold_left].
    destruct (decide (tid = 0%nat)) as [->|Hne]; [destruct ins as [|i ins]|].
    + rewrite step_single_idle by auto. apply IH.
    + rewrite step_single. destruct (IH (exec_instr st i) ins) as (k & Hk & Hrun).
      exists (S k). split; [cbn [length]; lia|]. apply Hrun.
    + rewrite step_single_idle by auto. apply IH.
Qed.

Lemma finished_single st ins : finished (single st ins) → ins = [].
Proof.
  destruct st as [[r gl] out]. unfold finished. cbn [single threads].
  by intros [Hf _]%Forall_cons.
Qed.

Lemma run_schedule_single_finished sched st ins :
  finished (run_schedule sched (single st ins)) →
  run_schedule sched (single st ins) = single (exec_code st ins) [].
Proof.
  destruct (run_schedule_single sched st ins) as (k & Hk & ->).
  intros Hf%finished_single.
  assert (k = length ins) as ->.
  { apply (f_equal length) in Hf. rewrite length_drop in Hf. cbn in Hf. lia. }
  by rewrite firstn_all, drop_all.
Qed.

(** Run without interruption, the tail of [solveMaze] prints the path
    length and updates the counters as [record_result] does. *)
Lemma exec_solveMaze_code r gl out n :
  ∃ r', exec_code (r, gl, out) (solveMaze_code n)
        = (r', record_result gl n, out ++ [n]).
Proof.
  unfold solveMaze_code, record_result, exec_code.
  destruct gl as [t s a]. destruct (0 <? n); cbn; eauto.
Qed.

Lemma exec_all_solveMaze_code results : ∀ r gl out,
  ∃ r', exec_code (r, gl, out) (concat (map solveMaze_code results))
        = (r', fold_left record_result results gl, out ++ results).
Proof.
  induction results as [|n results IH]; intros r gl out.
  - exists r. cbn. by rewrite app_nil_r.
  - cbn [map concat]. unfold exec_code. rewrite fold_left_app.
    destruct (exec_solveMaze_code r gl out n) as [r1 Hn].
    unfold exec_code in Hn. rewrite Hn.
    destruct (IH r1 (record_result gl n) (out ++ [n])) as [r2 Hrest].
    exists r2. unfold exec_code in Hrest. rewrite Hrest.
    cbn [fold_left]. by rewrite <- app_assoc.
Qed.

(** With one thread, every execution that finishes ends with the
    statistics of the sequential reduction and one printed line per
    result, in order. *)
Lemma sequential_run results sched :
  finished (run_schedule sched (spawn [results])) →
  shared (run_schedule sched (spawn [results])) = reduce results ∧
  output (run_schedule sched (spawn [results])) = results.
Proof.
  change (spawn [results])
    with (single (0, mkGlobals 0 0 0, []) (concat (map solveMaze_code results))).
  intros ->%run_schedule_single_finished.
  destruct (exec_all_solveMaze_code results 0 (mkGlobals 0 0 0) []) as [r' ->].
  done.
Qed.

(** ** The sequential reduction *)

Lemma count_found_le results : count_found results <= Z.of_nat (length results).
Proof.
  unfold count_found. induction results as [|n results IH]; [done|].
  cbn [List.filter length]. destruct (found n); cbn [length]; lia.
Qed.

Lemma fold_record_result results : ∀ gl,
  Forall (λ n, 0 <= n) results →
  0 <= totalPathLength gl → 0 <= successfulMazes gl <= mazeAttempts gl →
  totalPathLength gl + sum_list results <= INT_MAX →
  mazeAttempts gl + Z.of_nat (length results) <= INT_MAX →
  fold_left record_result results gl
  = mkGlobals (totalPathLength gl + sum_list results)
              (successfulMazes gl + count_found results)
              (mazeAttempts gl + Z.of_nat (length results)).
Proof.
  unfold count_found.
  induction results as [|n results IH]; intros gl Hpos Ht Hs Hsum Hlen.
  - destruct gl. cbn. f_equal; lia.
  - apply Forall_cons in Hpos as [Hn Hpos].
    assert (0 <= sum_list results).
    { clear -Hpos. induction Hpos; cbn [sum_list]; lia. }
    pose proof (count_found_le results) as Hcnt. unfold count_found in Hcnt.
    cbn [fold_left length sum_list List.filter] in *.
    rewrite IH; clear IH; unfold record_result, found in *; cbn [totalPathLength successfulMazes mazeAttempts];
      try done; destruct (Z.ltb_spec 0 n);
      rewrite ?wrap_int_id by (unfold in_int, INT_MAX in *; lia);
      cbn [length]; try lia; f_equal; lia.
Qed.

(** ** The distribution of the iterations *)

Lemma concat_distribute {A} sizes : ∀ l : list A,
  concat (distribute sizes l) = take (fold_right Nat.add 0%nat sizes) l.
Proof.
  induction sizes as [|k sizes IH]; intros l; cbn [distribute concat fold_right].
  - by rewrite take_0.
  - by rewrite IH, take_take_drop.
Qed.

Lemma sum_blocks q r k : ∀ start,
  fold_right Nat.add 0%nat
    (map (λ t, (q + if t <? r then 1 else 0)%nat) (seq start k))
  = (k * q + (Nat.min (start + k) r - Nat.min start r))%nat.
Proof.
  induction k as [|k IH]; intros start; cbn [seq map fold_right].
  - rewrite Nat.add_0_r. lia.
  - rewrite IH. destruct (Nat.ltb_spec start r); lia.
Qed.

Lemma sum_block_sizes team n :
  (0 < team)%nat → fold_right Nat.add 0%nat (block_sizes team n) = n.
Proof.
  intros Hteam. unfold block_sizes. rewrite sum_blocks.
  pose proof (Nat.mod_upper_bound n team ltac:(lia)).
  pose proof (Nat.div_mod_eq n team). nia.
Qed.

(** Every iteration is given to exactly one thread, in order. *)
Lemma concat_parallel_for {A} team (l : list A) :
  (0 < team)%nat → concat (parallel_for team l) = l.
Proof.
  intros Hteam. unfold parallel_for.
  rewrite concat_distribute, sum_block_sizes by done. apply firstn_all.
Qed.

Lemma parallel_for_one {A} (l : list A) : parallel_for 1 l = [l].
Proof.
  unfold parallel_for, block_sizes. cbn [seq map distribute].
  rewrite Nat.div_1_r, Nat.mod_1_r. cbn [Nat.ltb Nat.leb].
  by rewrite Nat.add_0_r, firstn_all.
Qed.

Lemma omp_team_size_pos numThreads : (0 < omp_team_size numThreads)%nat.
Proof. unfold omp_team_size. lia. Qed.

Lemma omp_team_size_one numThreads : numThreads <= 1 → omp_team_size numThreads = 1%nat.
Proof. unfold omp_team_size. lia. Qed.

(** ** Interleaved threads: updates can be lost, never invented *)

Definition counter_eqb (c c' : counter) : bool :=
  match c, c' with
  | TotalPathLength, TotalPathLength
  | SuccessfulMazes, SuccessfulMazes
  | MazeAttempts, MazeAttempts => true
  | _, _ => false
  end.

Lemma counter_eqb_eq c c' : counter_eqb c c' = true ↔ c = c'.
Proof. destruct c, c'; cbn; split; (done || discriminate). Qed.

(** What the instructions still to run will add to counter [c]. *)
Fixpoint pending (c : counter) (ins : list instr) : Z :=
  match ins with
  | [] => 0
  | AddStore c' d :: rest => (if counter_eqb c c' then d else 0) + pending c rest
  | _ :: rest => pending c rest
  end.

Definition pending_all (c : counter) (ts : list thread) : Z :=
  sum_list (map (λ t, pending c (code t)) ts).

(** Code in which every write follows the read of the same counter, and
    adds a non-negative amount. *)
Fixpoint paired (ins : list instr) : Prop :=
  match ins with
  | [] => True
  | Print _ :: rest => paired rest
  | Load c :: AddStore c' d :: rest => c = c' ∧ 0 <= d ∧ paired rest
  | _ => False
  end.

(** A thread is either between two updates, or has read a counter and is
    about to write it; the value it has read is at most [bound c]. *)
Definition thread_ok (bound : counter → Z) (t : thread) : Prop :=
  match code t with
  | AddStore c d :: rest => 0 <= d ∧ paired rest ∧ 0 <= reg t <= bound c
  | ins => paired ins
  end.

(** [total c] is what all the updates of [c] add up to; so far at most
    [total c] minus what is pending has arrived in [c]. *)
Definition arrived (total : counter → Z) (ts : list thread) (c : counter) : Z :=
  total c - pending_all c ts.

Record conf_ok (total : counter → Z) (cfg : config) : Prop := mkConfOk {
  ok_total : ∀ c, total c <= INT_MAX;
  ok_shared : ∀ c, 0 <= load c (shared cfg) <= arrived total (threads cfg) c;
  ok_threads : Forall (thread_ok (arrived total (threads cfg))) (threads cfg)
}.

Lemma paired_pending_nonneg c ins : paired ins → 0 <= pending c ins.
Proof.
  assert (∀ k ins, (length ins <= k)%nat → paired ins → 0 <= pending c ins) as H;
    [|by apply (H (length ins))].
  clear ins. induction k as [|k IH]; intros ins Hlen.
  { destruct ins; [done|cbn [length] in Hlen; lia]. }
  destruct ins as [|[n|c1|c1 d] rest]; cbn [paired pending]; try done.
  - apply IH. cbn [length] in Hlen. lia.
  - destruct rest as [|[n|c2|c2 d] rest]; try done.
    intros (-> & Hd & Hp). cbn [pending].
    assert (0 <= pending c rest) by (apply IH; [cbn [length] in Hlen; lia|done]).
    destruct (counter_eqb c c2); lia.
Qed.

Lemma thread_ok_pending_nonneg bound c t : thread_ok bound t → 0 <= pending c (code t).
Proof.
  unfold thread_ok. destruct (code t) as [|[n|c1|c1 d] rest] eqn:Hc;
    try (apply paired_pending_nonneg).
  intros (Hd & Hp & _). cbn [pending].
  pose proof (paired_pending_nonneg c rest Hp). destruct (counter_eqb c c1); lia.
Qed.

Lemma pending_all_nonneg bound c ts :
  Forall (thread_ok bound) ts → 0 <= pending_all c ts.
Proof.
  unfold pending_all. induction 1 as [|t ts Ht _ IH]; [done|].
  cbn [map sum_list].
  pose proof (thread_ok_pending_nonneg bound c t Ht). lia.
Qed.

Lemma thread_ok_mono bound bound' t :
  (∀ c, bound c <= bound' c) → thread_ok bound t → thread_ok bound' t.
Proof.
  intros Hb. unfold thread_ok. destruct (code t) as [|[n|c1|c1 d] rest]; try done.
  intros (Hd & Hp & Hr). specialize (Hb c1). repeat split; (done || lia).
Qed.

Lemma sum_list_insert l : ∀ i x y,
  l !! i = Some x → sum_list (<[i := y]> l) = sum_list l - x + y.
Proof.
  induction l as [|a l IH]; intros [|i] x y; try done.
  - intros [= ->]. cbn. lia.
  - intros Hl. cbn in Hl. cbn [insert list_insert sum_list].
    change (list_insert i y l) with (<[i := y]> l). rewrite (IH _ _ _ Hl). lia.
Qed.

Lemma pending_all_insert c ts tid t t' :
  ts !! tid = Some t →
  pending_all c (<[tid := t']> ts)
  = pending_all c ts - pending c (code t) + pending c (code t').
Proof.
  intros Ht. unfold pending_all. rewrite list_fmap_insert.
  apply sum_list_insert. by rewrite list_lookup_fmap, Ht.
Qed.

Lemma load_store_to c c' v gl :
  load c (store_to c' v gl) = if counter_eqb c c' then v else load c gl.
Proof. by destruct c, c', gl. Qed.

(** Each step keeps the configuration within its bounds. *)
Lemma conf_ok_step total cfg tid :
  conf_ok total cfg → conf_ok total (step cfg tid).
Proof.
  intros [Htot Hsh Hth]. unfold step.
  destruct (threads cfg !! tid) as [[r [|i rest]]|] eqn:Ht; try done.
  pose proof (Forall_lookup_1 _ _ _ _ Hth Ht) as Hok.
  assert (∀ c, 0 <= pending_all c (threads cfg)) as Hnn
    by (intros c; by eapply pending_all_nonneg).
  destruct i as [n|c1|c1 d]; unfold thread_ok in Hok; cbn [code reg] in Hok.
  - (* Print *)
    assert (∀ c, arrived total (<[tid := mkThread r rest]> (threads cfg)) c
                 = arrived total (threads cfg) c) as Harr.
    { intros c. unfold arrived. erewrite pending_all_insert by done. cbn. lia. }
    split; cbn [shared threads]; [done|..].
    + intros c. rewrite Harr. apply Hsh.
    + apply Forall_insert.
      * eapply Forall_impl; [done|]. intros t. apply thread_ok_mono.
        intros c. rewrite Harr. lia.
      * unfold thread_ok. cbn [code]. cbn [paired] in Hok.
        destruct rest as [|[?|?|? ?] ?]; done.
  - (* Load *)
    destruct rest as [|[?|?|c2 d] rest]; try done.
    destruct Hok as (<- & Hd & Hp).
    assert (∀ c, arrived total
                   (<[tid := mkThread (load c1 (shared cfg)) (AddStore c1 d :: rest)]>
                      (threads cfg)) c
                 = arrived total (threads cfg) c) as Harr.
    { intros c. unfold arrived. erewrite pending_all_insert by done. cbn. lia. }
    split; cbn [shared threads]; [done|..].
    + intros c. rewrite Harr. apply Hsh.
    + apply Forall_insert.
      * eapply Forall_impl; [done|]. intros t. apply thread_ok_mono.
        intros c. rewrite Harr. lia.
      * unfold thread_ok. cbn [code reg]. rewrite Harr. by repeat split; try apply Hsh.
  - (* AddStore *)
    destruct Hok as (Hd & Hp & Hr).
    assert (∀ c, arrived total (<[tid := mkThread r rest]> (threads cfg)) c
                 = arrived total (threads cfg) c
                   + if counter_eqb c c1 then d else 0) as Harr.
    { intros c. unfold arrived. erewrite pending_all_insert by done.
      cbn [code pending]. lia. }
    assert (0 <= pending_all c1 (<[tid := mkThread r rest]> (threads cfg))) as Hrest.
    { eapply (pending_all_nonneg (arrived total (threads cfg))).
      apply Forall_insert; [done|]. unfold thread_ok. cbn [code].
      destruct rest as [|[?|?|? ?] ?]; done. }
    assert (wrap_int (r + d) = r + d) as Hwrap.
    { apply wrap_int_id. specialize (Htot c1). specialize (Harr c1).
      assert (counter_eqb c1 c1 = true) as Heq by by apply counter_eqb_eq.
      rewrite Heq in Harr. unfold arrived in *. unfold in_int. lia. }
    split; cbn [shared threads]; [done|..].
    + intros c. rewrite Harr, load_store_to, Hwrap. specialize (Hsh c).
      destruct (counter_eqb c c1) eqn:Heq; [|lia].
      apply counter_eqb_eq in Heq as ->. lia.
    + apply Forall_insert.
      * eapply Forall_impl; [done|]. intros t. apply thread_ok_mono.
        intros c. rewrite Harr. destruct (counter_eqb c c1); lia.
      * unfold thread_ok. cbn [code]. destruct rest as [|[?|?|? ?] ?]; done.
Qed.

Lemma conf_ok_run total sched : ∀ cfg,
  conf_ok total cfg → conf_ok total (run_schedule sched cfg).
Proof.
  induction sched as [|tid sched IH]; intros cfg Hok; [done|].
  cbn [run_schedule fold_left]. apply IH. by apply conf_ok_step.
Qed.

Lemma pending_all_finished c ts :
  Forall (λ t, code t = []) ts → pending_all c ts = 0.
Proof.
  unfold pending_all. induction 1 as [|t ts Ht _ IH]; [done|].
  cbn [map sum_list]. rewrite Ht. cbn [pending]. lia.
Qed.

(** At the end nothing is pending: each counter is between 0 and the sum
    of its updates. *)
Lemma conf_ok_finished total cfg c :
  conf_ok total cfg → finished cfg → 0 <= load c (shared cfg) <= total c.
Proof.
  intros [_ Hsh _] Hfin. specialize (Hsh c). unfold arrived in Hsh.
  rewrite pending_all_finished in Hsh by done. lia.
Qed.

(** The updates of the whole batch add up to the sequential statistics. *)
Definition batch_total (results : list Z) (c : counter) : Z :=
  match c with
  | TotalPathLength => sum_list results
  | SuccessfulMazes => count_found results
  | MazeAttempts => Z.of_nat (length results)
  end.

Lemma pending_app c ins1 ins2 :
  pending c (ins1 ++ ins2) = pending c ins1 + pending c ins2.
Proof.
  induction ins1 as [|[n|c1|c1 d] ins1 IH]; cbn [app pending]; lia.
Qed.

Lemma pending_solveMaze_code c n :
  pending c (solveMaze_code n) = batch_total [n] c.
Proof.
  unfold solveMaze_code, batch_total, count_found, found. cbn [List.filter sum_list].
  destruct c; destruct (0 <? n); cbn; lia.
Qed.

Lemma batch_total_cons n results c :
  batch_total (n :: results) c = batch_total [n] c + batch_total results c.
Proof.
  unfold batch_total, count_found. cbn [List.filter sum_list length].
  destruct c; [lia| |lia]. destruct (found n); cbn [length]; lia.
Qed.

Lemma batch_total_app results1 results2 c :
  batch_total (results1 ++ results2) c
  = batch_total results1 c + batch_total results2 c.
Proof.
  induction results1 as [|n results1 IH]; cbn [app].
  - destruct c; reflexivity.
  - rewrite (batch_total_cons n (results1 ++ results2)), (batch_total_cons n results1). lia.
Qed.

Lemma pending_task_code c results :
  pending c (concat (map solveMaze_code results)) = batch_total results c.
Proof.
  induction results as [|n results IH]; cbn [map concat].
  - destruct c; done.
  - rewrite pending_app, pending_solveMaze_code, IH, (batch_total_cons n results). done.
Qed.

Lemma pending_all_spawn c assignment :
  pending_all c (threads (spawn assignment)) = batch_total (concat assignment) c.
Proof.
  unfold pending_all, spawn. cbn [threads].
  induction assignment as [|its assignment IH]; cbn [map concat sum_list].
  - destruct c; done.
  - cbn [code]. by rewrite pending_task_code, batch_total_app, IH.
Qed.

Lemma paired_app ins1 ins2 : paired ins1 → paired ins2 → paired (ins1 ++ ins2).
Proof.
  assert (∀ k ins1, (length ins1 <= k)%nat → paired ins1 → paired ins2 →
                    paired (ins1 ++ ins2)) as H; [|by apply (H (length ins1))].
  clear ins1. induction k as [|k IH]; intros ins1 Hlen.
  { destruct ins1; [done|cbn [length] in Hlen; lia]. }
  destruct ins1 as [|[n|c1|c1 d] rest]; cbn [paired app]; try done.
  - apply IH. cbn [length] in Hlen. lia.
  - destruct rest as [|[n|c2|c2 d] rest]; try done.
    intros (-> & Hd & Hp) H2. cbn [app]. repeat split; [done|].
    apply IH; [cbn [length] in Hlen; lia|done..].
Qed.

Lemma paired_task_code results :
  Forall (λ n, 0 <= n) results → paired (concat (map solveMaze_code results)).
Proof.
  induction 1 as [|n results Hn _ IH]; [done|].
  cbn [map concat]. apply paired_app; [|done].
  unfold solveMaze_code. destruct (0 <? n); cbn; repeat split; (done || lia).
Qed.

Lemma conf_ok_spawn assignment :
  Forall (λ n, 0 <= n) (concat assignment) →
  Z.of_nat (length (concat assignment)) <= INT_MAX →
  sum_list (concat assignment) <= INT_MAX →
  conf_ok (batch_total (concat assignment)) (spawn assignment).
Proof.
  intros Hpos Hlen Hsum. split.
  - intros c. pose proof (count_found_le (concat assignment)).
    destruct c; cbn [batch_total]; lia.
  - intros c. unfold arrived. rewrite pending_all_spawn.
    destruct c; cbn; lia.
  - unfold spawn. cbn [threads]. apply Forall_fmap, Forall_forall.
    intros its Hits. unfold compose, thread_ok. cbn [code reg].
    assert (paired (concat (map solveMaze_code its))) as Hp.
    { apply paired_task_code. apply Forall_forall. intros n Hn.
      eapply Forall_forall in Hpos; [done|]. apply elem_of_concat. eauto. }
    destruct (concat (map solveMaze_code its)) as [|[?|?|? ?] ?]; done.
Qed.

(** For every way of giving the tasks to threads and every interleaving
    that finishes, each counter ends between 0 and its sequential value. *)
Lemma interleaved_run_bounds assignment sched c :
  Forall (λ n, 0 <= n) (concat assignment) →
  Z.of_nat (length (concat assignment)) <= INT_MAX →
  sum_list (concat assignment) <= INT_MAX →
  finished (run_schedule sched (spawn assignment)) →
  0 <= load c (shared (run_schedule sched (spawn assignment)))
    <= load c (reduce (concat assignment)).
Proof.
  intros Hpos Hlen Hsum Hfin.
  pose proof (conf_ok_finished _ _ c
                (conf_ok_run _ sched _ (conf_ok_spawn _ Hpos Hlen Hsum)) Hfin) as Hb.
  unfold reduce. rewrite fold_record_result by (cbn; (done || lia)).
  destruct c; cbn in *; lia.
Qed.

(** * The properties of the batch *)

Lemma main_Ok fuel numThreads mazes sched st cfg :
  main fuel numThreads mazes sched = Ok (st, cfg) →
  ∃ results,
    solve_all fuel mazes = Ok results ∧ st = 0 ∧
    cfg = run_schedule sched (spawn (parallel_for (omp_team_size numThreads) results)).
Proof.
  unfold main. destruct (solve_all fuel mazes) as [results| |]; [|done|done].
  intros [= <- <-]. eauto.
Qed.

Lemma solve_all_length fuel mazes : ∀ results,
  solve_all fuel mazes = Ok results → length results = length mazes.
Proof.
  induction mazes as [|maze mazes IH]; intros results; cbn [solve_all].
  - by intros [= <-].
  - destruct (solveMaze_pathLen fuel maze); [|done|done].
    destruct (solve_all fuel mazes) as [ns| |]; [|done|done].
    intros [= <-]. cbn [length]. by rewrite (IH ns).
Qed.

(** C1, as the specification states it, fails on a batch of two one-cell
    mazes. With one thread the statistics count 2 attempts; with two
    threads there is an interleaving after which they count 1, and on the
    way both threads are inside the update of [mazeAttempts] at once. *)
Lemma statistics_depend_on_interleaving :
  (∃ cfg1 cfg2,
     main 1 1 [maze_one_cell; maze_one_cell] sched_sequential = Ok (0, cfg1) ∧
     finished cfg1 ∧ mazeAttempts (shared cfg1) = 2 ∧
     main 1 2 [maze_one_cell; maze_one_cell] sched_lost_update = Ok (0, cfg2) ∧
     finished cfg2 ∧ mazeAttempts (shared cfg2) = 1) ∧
  (∃ cfg,
     main 1 2 [maze_one_cell; maze_one_cell] sched_both_read = Ok (0, cfg) ∧
     race_on MazeAttempts cfg) ∧
  ¬ pool_size_independent 1 [maze_one_cell; maze_one_cell] ∧
  ¬ race_free 1 [maze_one_cell; maze_one_cell].
Proof.
  assert (∃ cfg1 cfg2,
     main 1 1 [maze_one_cell; maze_one_cell] sched_sequential = Ok (0, cfg1) ∧
     finished cfg1 ∧ mazeAttempts (shared cfg1) = 2 ∧
     main 1 2 [maze_one_cell; maze_one_cell] sched_lost_update = Ok (0, cfg2) ∧
     finished cfg2 ∧ mazeAttempts (shared cfg2) = 1) as H1.
  { eexists _, _. split; [vm_compute; reflexivity|].
    split; [repeat constructor|]. split; [reflexivity|].
    split; [vm_compute; reflexivity|].
    split; [repeat constructor|reflexivity]. }
  assert (∃ cfg,
     main 1 2 [maze_one_cell; maze_one_cell] sched_both_read = Ok (0, cfg) ∧
     race_on MazeAttempts cfg) as H2.
  { eexists. split; [vm_compute; reflexivity|].
    exists 0%nat, 1%nat. eexists _, _.
    split; [done|]. split; [reflexivity|]. split; [reflexivity|].
    split; eexists _, _; reflexivity. }
  split; [done|]. split; [done|]. split.
  - intros Hind. destruct H1 as (cfg1 & cfg2 & Hm1 & Hf1 & Ha1 & Hm2 & Hf2 & Ha2).
    assert (shared cfg1 = shared cfg2) as Heq.
    { eapply (Hind 1 2); [| |done..]; rewrite !elem_of_cons; auto. }
    rewrite Heq in Ha1. lia.
  - intros Hfree. destruct H2 as (cfg & Hm & Hrace).
    eapply (Hfree 2); [|done..]. rewrite !elem_of_cons; auto.
Qed.

(** C1, amended. With a pool of one thread the statistics are those of
    the sequential reduction. With more threads the three counters are
    updated without synchronisation, so updates can be lost: whatever the
    number of threads and the interleaving, once every task has finished
    each counter lies between 0 and its sequential value. *)
Theorem statistics_at_most_sequential
    fuel numThreads mazes sched results st cfg :
  solve_all fuel mazes = Ok results →
  Forall (λ n, 0 <= n) results →
  Z.of_nat (length results) <= INT_MAX →
  sum_list results <= INT_MAX →
  main fuel numThreads mazes sched = Ok (st, cfg) →
  finished cfg →
  (numThreads <= 1 → shared cfg = reduce results) ∧
  0 <= mazeAttempts (shared cfg) <= mazeAttempts (reduce results) ∧
  0 <= totalPathLength (shared cfg) <= totalPathLength (reduce results) ∧
  0 <= successfulMazes (shared cfg) <= successfulMazes (reduce results).
Proof.
  intros Hres Hpos Hlen Hsum (results' & Hres' & -> & ->)%main_Ok Hfin.
  assert (results' = results) as -> by congruence.
  split.
  - intros Hone. rewrite omp_team_size_one, parallel_for_one in * by done.
    by apply sequential_run.
  - pose proof (concat_parallel_for (omp_team_size numThreads) results
                  (omp_team_size_pos numThreads)) as Hcat.
    pose proof (λ c, interleaved_run_bounds
                  (parallel_for (omp_team_size numThreads) results) sched c) as Hb.
    rewrite Hcat in Hb.
    pose proof (Hb MazeAttempts Hpos Hlen Hsum Hfin).
    pose proof (Hb TotalPathLength Hpos Hlen Hsum Hfin).
    pose proof (Hb SuccessfulMazes Hpos Hlen Hsum Hfin).
    done.
Qed.

Lemma statistics_at_most_sequential_witness :
  (2 <= 1 →
   shared (run_schedule sched_lost_update (spawn (parallel_for 2 [1; 1])))
   = reduce [1; 1]) ∧
  0 <= mazeAttempts
         (shared (run_schedule sched_lost_update (spawn (parallel_for 2 [1; 1]))))
    <= mazeAttempts (reduce [1; 1]) ∧
  0 <= totalPathLength
         (shared (run_schedule sched_lost_update (spawn (parallel_for 2 [1; 1]))))
    <= totalPathLength (reduce [1; 1]) ∧
  0 <= successfulMazes
         (shared (run_schedule sched_lost_update (spawn (parallel_for 2 [1; 1]))))
    <= successfulMazes (reduce [1; 1]).
Proof.
  apply (statistics_at_most_sequential 1 2 [maze_one_cell; maze_one_cell]
           sched_lost_update [1; 1] 0).
  - vm_compute. reflexivity.
  - repeat constructor; lia.
  - unfold INT_MAX. cbn. lia.
  - unfold INT_MAX. cbn. lia.
  - vm_compute. reflexivity.
  - vm_compute. repeat constructor.
Defined.

(** ** What every interleaving prints *)

(** The path lengths a piece of code prints, and those the threads have
    still to print. *)
Fixpoint printed (ins : list instr) : list Z :=
  match ins with
  | [] => []
  | Print n :: rest => n :: printed rest
  | _ :: rest => printed rest
  end.

Definition to_print (ts : list thread) : list Z :=
  concat (map (λ t, printed (code t)) ts).

Lemma printed_app ins1 ins2 : printed (ins1 ++ ins2) = printed ins1 ++ printed ins2.
Proof.
  induction ins1 as [|[n|c|c d] ins1 IH]; cbn [app printed]; by rewrite ?IH.
Qed.

Lemma printed_task_code results :
  printed (concat (map solveMaze_code results)) = results.
Proof.
  induction results as [|n results IH]; [done|]. cbn [map concat].
  rewrite printed_app, IH. unfold solveMaze_code. by destruct (0 <? n).
Qed.

Lemma to_print_spawn assignment :
  to_print (threads (spawn assignment)) = concat assignment.
Proof.
  unfold to_print, spawn. cbn [threads].
  induction assignment as [|its assignment IH]; [done|].
  cbn [map concat code]. by rewrite printed_task_code, IH.
Qed.

Lemma to_print_split ts tid t :
  ts !! tid = Some t →
  ∀ t', to_print (<[tid := t']> ts)
        = to_print (take tid ts) ++ printed (code t') ++ to_print (drop (S tid) ts).
Proof.
  intros Ht t'. pose proof (lookup_lt_Some _ _ _ Ht) as Hlt.
  rewrite insert_take_drop by done. unfold to_print.
  by rewrite map_app, concat_app.
Qed.

Lemma to_print_middle ts tid t :
  ts !! tid = Some t →
  to_print ts
  = to_print (take tid ts) ++ printed (code t) ++ to_print (drop (S tid) ts).
Proof.
  intros Ht. rewrite <- (take_drop_middle ts tid t Ht) at 1. unfold to_print.
  by rewrite map_app, concat_app.
Qed.

(** A step moves at most one path length from what is still to print to
    the output. *)
Lemma step_prints cfg tid :
  output (step cfg tid) ++ to_print (threads (step cfg tid))
  ≡ₚ output cfg ++ to_print (threads cfg).
Proof.
  unfold step.
  destruct (threads cfg !! tid) as [[r [|i rest]]|] eqn:Ht; try done.
  rewrite (to_print_middle _ _ _ Ht).
  destruct i as [n|c|c d]; cbn [output threads];
    rewrite (to_print_split _ _ _ Ht); cbn [code printed]; try done.
  rewrite <- (app_assoc (output cfg)). apply Permutation_app_head.
  cbn [app]. apply Permutation_middle.
Qed.

Lemma run_schedule_prints sched : ∀ cfg,
  output (run_schedule sched cfg) ++ to_print (threads (run_schedule sched cfg))
  ≡ₚ output cfg ++ to_print (threads cfg).
Proof.
  induction sched as [|tid sched IH]; intros cfg; [done|].
  cbn [run_schedule fold_left]. etrans; [apply IH|apply step_prints].
Qed.

Lemma to_print_finished ts : Forall (λ t, code t = []) ts → to_print ts = [].
Proof.
  unfold to_print. induction 1 as [|t ts Ht _ IH]; [done|].
  cbn [map concat]. by rewrite Ht, IH.
Qed.

(** X8. Whatever the number of threads requested and whatever the
    interleaving, once every thread has finished the path lengths printed
    are those of the mazes, each once, in some order: lost updates change
    the counters, never the tasks that ran. *)
Theorem every_task_prints_once fuel numThreads mazes sched st cfg :
  main fuel numThreads mazes sched = Ok (st, cfg) →
  finished cfg →
  ∃ results,
    solve_all fuel mazes = Ok results ∧
    length results = length mazes ∧
    output cfg ≡ₚ results.
Proof.
  intros (results & Hres & -> & ->)%main_Ok Hfin.
  exists results. split; [done|]. split; [by eapply solve_all_length|].
  pose proof (run_schedule_prints sched
                (spawn (parallel_for (omp_team_size numThreads) results))) as Hp.
  rewrite (to_print_finished _ Hfin), app_nil_r, to_print_spawn in Hp.
  rewrite concat_parallel_for in Hp by apply omp_team_size_pos.
  done.
Qed.

Lemma every_task_prints_once_witness :
  ∃ results,
    solve_all 1 [maze_one_cell; maze_one_cell] = Ok results ∧
    length results = length [maze_one_cell; maze_one_cell] ∧
    output (run_schedule sched_lost_update (spawn (parallel_for 2 [1; 1])))
    ≡ₚ results.
Proof.
  apply (every_task_prints_once 1 2 [maze_one_cell; maze_one_cell]
           sched_lost_update 0
           (run_schedule sched_lost_update (spawn (parallel_for 2 [1; 1])))).
  - vm_compute. reflexivity.
  - vm_compute. repeat constructor.
Defined.

(** ** Executions without a race *)

(** No two threads are inside an update of the same counter at any moment
    of the execution of [sched] from [cfg]. *)
Fixpoint never_races (sched : list nat) (cfg : config) : Prop :=
  match sched with
  | [] => True
  | tid :: sched' => (∀ c, ¬ race_on c cfg) ∧ never_races sched' (step cfg tid)
  end.

(** The same, decided: the number of threads about to write [c]. *)
Definition updatingb (c : counter) (t : thread) : bool :=
  match code t with
  | AddStore c' _ :: _ => counter_eqb c c'
  | _ => false
  end.

Definition racesb (c : counter) (cfg : config) : bool :=
  (1 <? length (List.filter (updatingb c) (threads cfg)))%nat.

Lemma filter_two {A} (P : A → bool) (l : list A) : ∀ i j x y,
  i ≠ j → l !! i = Some x → l !! j = Some y → P x = true → P y = true →
  (2 <= length (List.filter P l))%nat.
Proof.
  assert (∀ (l : list A) j y, l !! j = Some y → P y = true →
                              (1 <= length (List.filter P l))%nat) as Hone.
  { intros l0 j y Hj Hy. apply list_elem_of_lookup_2, list_elem_of_In in Hj.
    assert (In y (List.filter P l0)) as Hin by (apply filter_In; done).
    destruct (List.filter P l0); [done|cbn [length]; lia]. }
  induction l as [|a l IH]; intros i j x y Hne Hi Hj Hx Hy; [done|].
  destruct i as [|i], j as [|j]; try done; cbn in Hi, Hj; cbn [List.filter].
  - injection Hi as ->. rewrite Hx. cbn [length].
    pose proof (Hone l j y Hj Hy). lia.
  - injection Hj as ->. rewrite Hy. cbn [length].
    pose proof (Hone l i x Hi Hx). lia.
  - assert (i ≠ j) as Hne' by congruence.
    pose proof (IH i j x y Hne' Hi Hj Hx Hy).
    destruct (P a); cbn [length]; lia.
Qed.

Lemma race_on_racesb c cfg : race_on c cfg → racesb c cfg = true.
Proof.
  intros (i & j & ti & tj & Hne & Hi & Hj & (d1 & r1 & H1) & (d2 & r2 & H2)).
  unfold racesb. apply Nat.ltb_lt.
  assert (∀ t d r, code t = AddStore c d :: r → updatingb c t = true) as Hup.
  { intros t d r Ht. unfold updatingb. rewrite Ht. by apply counter_eqb_eq. }
  pose proof (filter_two (updatingb c) (threads cfg) i j ti tj Hne Hi Hj
                (Hup _ _ _ H1) (Hup _ _ _ H2)). lia.
Qed.

(** Every counter holds what has arrived, and a thread about to write a
    counter has read its current value. *)
Record conf_exact (total : counter → Z) (cfg : config) : Prop := mkConfExact {
  ex_ok : conf_ok total cfg;
  ex_shared : ∀ c, load c (shared cfg) = arrived total (threads cfg) c;
  ex_regs : ∀ j t c d rest,
    threads cfg !! j = Some t → code t = AddStore c d :: rest →
    reg t = load c (shared cfg)
}.

Lemma conf_exact_step total cfg tid :
  conf_exact total cfg → (∀ c, ¬ race_on c cfg) →
  conf_exact total (step cfg tid).
Proof.
  intros [Hok Hsh Hregs] Hrace.
  pose proof (conf_ok_step total cfg tid Hok) as Hok'.
  split; [done|..]; clear Hok'; destruct Hok as [Htot Hbound Hth]; unfold step in *.
  - (* the counters *)
    destruct (threads cfg !! tid) as [[r [|i rest]]|] eqn:Ht; try done.
    pose proof (Forall_lookup_1 _ _ _ _ Hth Ht) as Hok.
    unfold thread_ok in Hok. cbn [code reg] in Hok.
    destruct i as [n|c1|c1 d]; cbn [shared threads]; intros c;
      unfold arrived; erewrite pending_all_insert by done; cbn [code pending].
    + rewrite Hsh. unfold arrived. lia.
    + rewrite Hsh. unfold arrived. lia.
    + destruct Hok as (Hd & Hp & Hr).
      pose proof (Hregs tid _ c1 d rest Ht eq_refl) as Hreg. cbn [reg] in Hreg.
      pose proof (paired_pending_nonneg c1 rest Hp) as Hrest.
      assert (counter_eqb c1 c1 = true) as Heq by by apply counter_eqb_eq.
      assert (0 <= pending_all c1 (threads cfg) - d) as H.
      { assert (0 <= pending_all c1 (<[tid := mkThread r rest]> (threads cfg))) as H.
        { eapply (pending_all_nonneg (arrived total (threads cfg))).
          apply Forall_insert; [done|]. unfold thread_ok. cbn [code].
          destruct rest as [|[?|?|? ?] ?]; done. }
        erewrite pending_all_insert in H by done. cbn [code pending] in H.
        rewrite Heq in H. lia. }
      assert (wrap_int (r + d) = r + d) as ->.
      { apply wrap_int_id. specialize (Htot c1). rewrite Hreg, Hsh.
        unfold arrived, in_int.
        pose proof (Hbound c1) as Hb. rewrite Hsh in Hb. unfold arrived in Hb. lia. }
      rewrite load_store_to.
      destruct (counter_eqb c c1) eqn:Hc.
      * apply counter_eqb_eq in Hc as ->. rewrite Hreg, Hsh. unfold arrived. lia.
      * rewrite Hsh. unfold arrived. lia.
  - (* the registers *)
    destruct (threads cfg !! tid) as [[r [|i rest]]|] eqn:Ht; try done.
    pose proof (Forall_lookup_1 _ _ _ _ Hth Ht) as Hok.
    unfold thread_ok in Hok. cbn [code reg] in Hok.
    destruct i as [n|c1|c1 d]; cbn [shared threads];
      intros j t c d' rest' Hj Hcode;
      apply list_lookup_insert_Some in Hj as [(-> & <- & Hlt)|[Hne Hj]];
      cbn [code reg] in *.
    + subst rest. done.
    + by eapply Hregs.
    + subst rest. by destruct Hok as (-> & _).
    + by eapply Hregs.
    + destruct Hok as (_ & Hp & _). subst rest. done.
    + rewrite load_store_to.
      destruct (counter_eqb c c1) eqn:Hc; [|by eapply Hregs].
      apply counter_eqb_eq in Hc as ->. destruct (Hrace c1).
      exists tid, j, (mkThread r (AddStore c1 d :: rest)), t.
      repeat split; try done; unfold updating; cbn [code]; eauto.
Qed.

Lemma conf_exact_run total sched : ∀ cfg,
  conf_exact total cfg → never_races sched cfg →
  conf_exact total (run_schedule sched cfg).
Proof.
  induction sched as [|tid sched IH]; intros cfg Hex Hnr; [done|].
  destruct Hnr as [Hrace Hnr]. cbn [run_schedule fold_left].
  apply IH; [by apply conf_exact_step|done].
Qed.

Lemma conf_exact_spawn assignment :
  Forall (λ n, 0 <= n) (concat assignment) →
  Z.of_nat (length (concat assignment)) <= INT_MAX →
  sum_list (concat assignment) <= INT_MAX →
  conf_exact (batch_total (concat assignment)) (spawn assignment).
Proof.
  intros Hpos Hlen Hsum. split.
  - by apply conf_ok_spawn.
  - intros c. unfold arrived. rewrite pending_all_spawn. destruct c; cbn; lia.
  - unfold spawn. cbn [threads shared]. intros j t c d rest Hj Hcode.
    rewrite list_lookup_fmap in Hj.
    destruct (assignment !! j) as [its|] eqn:Hits; [|done].
    injection Hj as <-. cbn [code reg] in *.
    assert (paired (concat (map solveMaze_code its))) as Hp.
    { apply paired_task_code. apply Forall_forall. intros n Hn.
      eapply Forall_forall in Hpos; [done|]. apply elem_of_concat.
      exists its. split; [done|]. by eapply list_elem_of_lookup_2. }
    rewrite Hcode in Hp. done.
Qed.

(** An interleaving of two threads, one task each, in which the threads
    take turns but no update of one overlaps the same update of the
    other. *)
Definition sched_taking_turns : list nat :=
  [0; 1; 0; 0; 1; 1; 0; 0; 1; 1; 0; 0; 1; 1]%nat.

(** Without a race the counters end with the sequential statistics. *)
Lemma race_free_shared assignment sched :
  Forall (λ n, 0 <= n) (concat assignment) →
  Z.of_nat (length (concat assignment)) <= INT_MAX →
  sum_list (concat assignment) <= INT_MAX →
  finished (run_schedule sched (spawn assignment)) →
  never_races sched (spawn assignment) →
  shared (run_schedule sched (spawn assignment)) = reduce (concat assignment).
Proof.
  intros Hpos Hlen Hsum Hfin Hnr.
  pose proof (conf_exact_run _ sched _ (conf_exact_spawn _ Hpos Hlen Hsum) Hnr)
    as [_ Hsh _].
  assert (∀ c, load c (shared (run_schedule sched (spawn assignment)))
               = batch_total (concat assignment) c) as Hload.
  { intros c. rewrite Hsh. unfold arrived.
    rewrite pending_all_finished by done. lia. }
  unfold reduce. rewrite fold_record_result by (cbn; (done || lia)).
  pose proof (Hload TotalPathLength) as H1.
  pose proof (Hload SuccessfulMazes) as H2.
  pose proof (Hload MazeAttempts) as H3.
  destruct (shared _) as [t s a]. cbn in *. by subst.
Qed.

(** X9. The statistics are wrong only through overlapping updates: for
    every number of threads and every interleaving in which no two
    threads are ever inside an update of the same counter, the counters
    end with the statistics of the sequential reduction. *)
Theorem race_free_run_is_exact fuel numThreads mazes sched results st cfg :
  solve_all fuel mazes = Ok results →
  Forall (λ n, 0 <= n) results →
  Z.of_nat (length results) <= INT_MAX →
  sum_list results <= INT_MAX →
  main fuel numThreads mazes sched = Ok (st, cfg) →
  finished cfg →
  never_races sched (spawn (parallel_for (omp_team_size numThreads) results)) →
  shared cfg = reduce results.
Proof.
  intros Hres Hpos Hlen Hsum (results' & Hres' & -> & ->)%main_Ok Hfin Hnr.
  assert (results' = results) as -> by congruence.
  pose proof (concat_parallel_for (omp_team_size numThreads) results
                (omp_team_size_pos numThreads)) as Hcat.
  pose proof (race_free_shared
                (parallel_for (omp_team_size numThreads) results) sched) as H.
  rewrite Hcat in H. by apply H.
Qed.

Lemma race_free_run_is_exact_witness :
  shared (run_schedule sched_taking_turns (spawn (parallel_for 2 [1; 1])))
  = reduce [1; 1].
Proof.
  apply (race_free_run_is_exact 1 2 [maze_one_cell; maze_one_cell]
           sched_taking_turns [1; 1] 0).
  - vm_compute. reflexivity.
  - repeat constructor; lia.
  - unfold INT_MAX. cbn. lia.
  - unfold INT_MAX. cbn. lia.
  - vm_compute. reflexivity.
  - vm_compute. repeat constructor.
  - unfold sched_taking_turns. cbn [never_races].
    repeat split; intros c Hr%race_on_racesb; destruct c; vm_compute in Hr;
      discriminate.
Defined.

(** ** The reduction rule for the statistics *)

(** Three threads read [mazeAttempts] before any of them writes it back,
    then each runs to its end. *)
Definition sched_all_read_first : list nat :=
  [0; 0; 1; 1; 2; 2]%nat
  ++ replicate 5 0%nat ++ replicate 5 1%nat ++ replicate 5 2%nat.

(** Two threads that take turns, each completing an update before the
    other begins one; the first thread has a second task. *)
Definition sched_turns_two_tasks : list nat :=
  [0; 1; 0; 0; 1; 1; 0; 0; 1; 1; 0; 0; 1; 1; 0; 0; 0; 0; 0]%nat.

(** C3, as the specification states it, fails: the program updates the
    counters from the threads of the parallel loop without
    synchronisation. On a batch of three one-cell mazes run by four
    threads there is an interleaving after which every task has finished
    and found a path, and the statistics count 1 attempt and 3 successes:
    the attempts are not the number of tasks, and the successes exceed
    the attempts. *)
Lemma lost_update_breaks_reduction_rule :
  ∃ cfg,
    solve_all 1 [maze_one_cell; maze_one_cell; maze_one_cell] = Ok [1; 1; 1] ∧
    main 1 4 [maze_one_cell; maze_one_cell; maze_one_cell] sched_all_read_first
    = Ok (0, cfg) ∧
    finished cfg ∧
    mazeAttempts (shared cfg) = 1 ∧
    totalPathLength (shared cfg) = 3 ∧
    successfulMazes (shared cfg) = 3 ∧
    mazeAttempts (shared cfg)
    ≠ Z.of_nat (length [maze_one_cell; maze_one_cell; maze_one_cell]) ∧
    ¬ successfulMazes (shared cfg) <= mazeAttempts (shared cfg).
Proof.
  eexists. split; [vm_compute; reflexivity|].
  split; [vm_compute; reflexivity|].
  split; [repeat constructor|].
  repeat split; [discriminate|]. cbn. lia.
Qed.

(** C3, amended. The statistics follow the reduction rule when the
    updates of the tasks do not overlap. For every distribution of the
    tasks over the threads and every interleaving after which every task
    has finished, if no two threads are ever inside an update of the same
    counter at once, or if there is one thread only, then the counters
    are those of the sequential reduction: the attempts are the number of
    tasks, the total length is the sum of the path lengths (0 for a task
    without a path), the successes are the number of tasks that found a
    path, and the successes do not exceed the attempts. The counters are
    [int]s: the path lengths are sizes, and the totals are taken to
    fit. *)
Theorem statistics_follow_rule_without_races assignment sched :
  Forall (λ n, 0 <= n) (concat assignment) →
  Z.of_nat (length (concat assignment)) <= INT_MAX →
  sum_list (concat assignment) <= INT_MAX →
  finished (run_schedule sched (spawn assignment)) →
  never_races sched (spawn assignment) ∨ length assignment = 1%nat →
  shared (run_schedule sched (spawn assignment)) = reduce (concat assignment) ∧
  mazeAttempts (shared (run_schedule sched (spawn assignment)))
  = Z.of_nat (length (concat assignment)) ∧
  totalPathLength (shared (run_schedule sched (spawn assignment)))
  = sum_list (concat assignment) ∧
  successfulMazes (shared (run_schedule sched (spawn assignment)))
  = count_found (concat assignment) ∧
  successfulMazes (shared (run_schedule sched (spawn assignment)))
  <= mazeAttempts (shared (run_schedule sched (spawn assignment))).
Proof.
  intros Hpos Hlen Hsum Hfin Hnr.
  assert (shared (run_schedule sched (spawn assignment))
          = reduce (concat assignment)) as ->.
  { destruct Hnr as [Hnr|Hone]; [by apply race_free_shared|].
    destruct assignment as [|results [|? ?]]; try done.
    cbn [concat]. rewrite app_nil_r. by apply sequential_run. }
  split; [done|]. unfold reduce.
  rewrite fold_record_result by (cbn; (done || lia)).
  cbn [mazeAttempts totalPathLength successfulMazes].
  pose proof (count_found_le (concat assignment)).
  repeat split; lia.
Qed.

Lemma statistics_follow_rule_without_races_witness :
  shared (run_schedule sched_turns_two_tasks (spawn [[3; 0]; [5]]))
  = reduce [3; 0; 5] ∧
  mazeAttempts (shared (run_schedule sched_turns_two_tasks (spawn [[3; 0]; [5]])))
  = 3 ∧
  totalPathLength (shared (run_schedule sched_turns_two_tasks (spawn [[3; 0]; [5]])))
  = 8 ∧
  successfulMazes (shared (run_schedule sched_turns_two_tasks (spawn [[3; 0]; [5]])))
  = 2 ∧
  successfulMazes (shared (run_schedule sched_turns_two_tasks (spawn [[3; 0]; [5]])))
  <= mazeAttempts (shared (run_schedule sched_turns_two_tasks (spawn [[3; 0]; [5]]))).
Proof.
  apply (statistics_follow_rule_without_races [[3; 0]; [5]] sched_turns_two_tasks).
  - repeat constructor; lia.
  - unfold INT_MAX. cbn. lia.
  - unfold INT_MAX. cbn. lia.
  - vm_compute. repeat constructor.
  - left. unfold sched_turns_two_tasks. cbn [never_races].
    repeat split; intros c Hr%race_on_racesb; destruct c; vm_compute in Hr;
      discriminate.
Defined.

(** ** The threads one after the other *)













(** ** What lost updates cannot hide *)

(** Every update of counter [c] in the code adds at least 1. *)
Fixpoint adds_one (c : counter) (ins : list instr) : Prop :=
  match ins with
  | [] => True
  | AddStore c' d :: rest => (c' = c → 1 <= d) ∧ adds_one c rest
  | _ :: rest => adds_one c rest
  end.

Lemma adds_one_app c ins1 ins2 :
  adds_one c ins1 → adds_one c ins2 → adds_one c (ins1 ++ ins2).
Proof.
  induction ins1 as [|[n|c1|c1 d] ins1 IH]; cbn [app adds_one]; try done.
  intros [Hd H1] H2. split; [done|]. by apply IH.
Qed.

Lemma adds_one_task_code c results :
  c ≠ TotalPathLength → adds_one c (concat (map solveMaze_code results)).
Proof.
  intros Hc. induction results as [|n results IH]; [done|].
  cbn [map concat]. apply adds_one_app; [|done].
  unfold solveMaze_code. destruct (0 <? n); cbn; repeat split; (done || lia).
Qed.

(** Once an update of [c] has arrived, [c] is at least 1. *)
Record conf_seen (total : counter → Z) (c : counter) (cfg : config) : Prop := mkConfSeen {
  seen_ok : conf_ok total cfg;
  seen_code : Forall (λ t, adds_one c (code t)) (threads cfg);
  seen_shared : 0 < arrived total (threads cfg) c → 1 <= load c (shared cfg)
}.

Lemma conf_seen_step total c cfg tid :
  conf_seen total c cfg → conf_seen total c (step cfg tid).
Proof.
  intros [Hok Hcode Hseen].
  pose proof (conf_ok_step total cfg tid Hok) as Hok'.
  split; [done|..]; clear Hok'; destruct Hok as [Htot Hbound Hth]; unfold step in *.
  - destruct (threads cfg !! tid) as [[r [|i rest]]|] eqn:Ht; try done.
    pose proof (Forall_lookup_1 _ _ _ _ Hcode Ht) as Hins. cbn [code] in Hins.
    destruct i as [n|c1|c1 d]; cbn [threads]; apply Forall_insert; try done;
      cbn [code adds_one] in *; tauto.
  - destruct (threads cfg !! tid) as [[r [|i rest]]|] eqn:Ht; try done.
    pose proof (Forall_lookup_1 _ _ _ _ Hth Ht) as Hok.
    pose proof (Forall_lookup_1 _ _ _ _ Hcode Ht) as Hins.
    unfold thread_ok in Hok. cbn [code reg adds_one] in Hok, Hins.
    destruct i as [n|c1|c1 d]; cbn [shared threads];
      unfold arrived in *; erewrite pending_all_insert by done; cbn [code pending].
    + intros H. apply Hseen. lia.
    + intros H. apply Hseen. lia.
    + destruct Hok as (Hd & Hp & Hr). destruct Hins as [Hone _].
      assert (0 <= pending_all c1 (threads cfg) - d) as Hleft.
      { assert (0 <= pending_all c1 (<[tid := mkThread r rest]> (threads cfg))) as H.
        { eapply (pending_all_nonneg (λ c, total c - pending_all c (threads cfg))).
          apply Forall_insert; [done|]. unfold thread_ok. cbn [code].
          destruct rest as [|[?|?|? ?] ?]; done. }
        erewrite pending_all_insert in H by done. cbn [code pending] in H.
        assert (counter_eqb c1 c1 = true) as Heq by by apply counter_eqb_eq.
        rewrite Heq in H. lia. }
      assert (wrap_int (r + d) = r + d) as ->.
      { apply wrap_int_id. specialize (Htot c1). unfold in_int. lia. }
      rewrite load_store_to.
      destruct (counter_eqb c c1) eqn:Hc.
      * apply counter_eqb_eq in Hc as ->. specialize (Hone eq_refl). lia.
      * intros H. apply Hseen. lia.
Qed.

Lemma conf_seen_run total c sched : ∀ cfg,
  conf_seen total c cfg → conf_seen total c (run_schedule sched cfg).
Proof.
  induction sched as [|tid sched IH]; intros cfg Hok; [done|].
  cbn [run_schedule fold_left]. apply IH. by apply conf_seen_step.
Qed.

Lemma conf_seen_spawn c assignment :
  c ≠ TotalPathLength →
  Forall (λ n, 0 <= n) (concat assignment) →
  Z.of_nat (length (concat assignment)) <= INT_MAX →
  sum_list (concat assignment) <= INT_MAX →
  conf_seen (batch_total (concat assignment)) c (spawn assignment).
Proof.
  intros Hc Hpos Hlen Hsum. split.
  - by apply conf_ok_spawn.
  - unfold spawn. cbn [threads]. apply Forall_fmap, Forall_forall.
    intros its _. unfold compose. cbn [code]. by apply adds_one_task_code.
  - unfold arrived. rewrite pending_all_spawn. lia.
Qed.

(** X15. Lost updates cannot empty a counter: for every number of threads
    and every interleaving, when the batch has finished, [mazeAttempts]
    is positive exactly when there was a maze, and [successfulMazes] is
    positive exactly when some search found a path. *)
Theorem counters_positive_iff_updated fuel numThreads mazes sched results st cfg :
  solve_all fuel mazes = Ok results →
  Forall (λ n, 0 <= n) results →
  Z.of_nat (length results) <= INT_MAX →
  sum_list results <= INT_MAX →
  main fuel numThreads mazes sched = Ok (st, cfg) →
  finished cfg →
  (0 < mazeAttempts (shared cfg) ↔ mazes ≠ []) ∧
  (0 < successfulMazes (shared cfg) ↔ ∃ n, n ∈ results ∧ found n = true).
Proof.
  intros Hres Hpos Hlen Hsum (results' & Hres' & -> & ->)%main_Ok Hfin.
  assert (results' = results) as -> by congruence.
  pose proof (concat_parallel_for (omp_team_size numThreads) results
                (omp_team_size_pos numThreads)) as Hcat.
  set (assignment := parallel_for (omp_team_size numThreads) results) in *.
  rewrite <- Hcat in Hpos, Hlen, Hsum.
  assert (∀ c, c ≠ TotalPathLength →
               0 < batch_total results c →
               1 <= load c (shared (run_schedule sched (spawn assignment)))) as Hlow.
  { intros c Hc Htot.
    destruct (conf_seen_run _ c sched _ (conf_seen_spawn c assignment Hc Hpos Hlen Hsum))
      as [_ _ Hseen].
    apply Hseen. unfold arrived. rewrite pending_all_finished by done.
    rewrite Hcat. lia. }
  assert (∀ c, load c (shared (run_schedule sched (spawn assignment)))
               <= batch_total results c) as Hup.
  { intros c.
    pose proof (conf_ok_finished _ _ c
                  (conf_ok_run _ sched _ (conf_ok_spawn _ Hpos Hlen Hsum)) Hfin) as Hb.
    rewrite Hcat in Hb. lia. }
  pose proof (solve_all_length _ _ _ Hres) as Hlength.
  split; split.
  - intros H. specialize (Hup MazeAttempts). cbn in Hup.
    intros ->. cbn [length] in Hlength. lia.
  - intros Hne. pose proof (Hlow MazeAttempts ltac:(done)) as H. cbn in H.
    destruct mazes; [done|]. cbn [length] in Hlength. lia.
  - intros H. specialize (Hup SuccessfulMazes). cbn in Hup.
    unfold count_found in Hup.
    destruct (List.filter found results) as [|n l] eqn:Hf; [cbn in Hup; lia|].
    exists n. assert (In n (List.filter found results)) as Hin by (rewrite Hf; by left).
    apply filter_In in Hin as [Hin Hn]. split; [by apply list_elem_of_In|done].
  - intros (n & Hn & Hfound). pose proof (Hlow SuccessfulMazes ltac:(done)) as H. cbn in H.
    unfold count_found in H.
    assert (In n (List.filter found results)) as Hin
      by (apply filter_In; split; [by apply list_elem_of_In|done]).
    destruct (List.filter found results); [done|]. cbn [length] in H. lia.
Qed.

Lemma counters_positive_iff_updated_witness :
  (0 < mazeAttempts
         (shared (run_schedule sched_lost_update (spawn (parallel_for 2 [1; 1]))))
   ↔ [maze_one_cell; maze_one_cell] ≠ []) ∧
  (0 < successfulMazes
         (shared (run_schedule sched_lost_update (spawn (parallel_for 2 [1; 1]))))
   ↔ ∃ n, n ∈ [1; 1] ∧ found n = true).
Proof.
  apply (counters_positive_iff_updated 1 2 [maze_one_cell; maze_one_cell]
           sched_lost_update [1; 1] 0).
  - vm_compute. reflexivity.
  - repeat constructor; lia.
  - unfold INT_MAX. cbn. lia.
  - unfold INT_MAX. cbn. lia.
  - vm_compute. reflexivity.
  - vm_compute. repeat constructor.
Defined.
